(** * LFQuant: lookup-free quantization (lfquant/__init__.py)

    A shallow embedding of class [LFQ]: the lazy mode selector
    ([init_books]), the three entropy estimators, and the orchestrator
    ([run]), followed by the properties of the specification that were
    checked against them.

    Conventions of the embedding.
    - A float tensor entry is a mathematical real ([R]); [exp], [ln] stand
      for the exact functions, and NaN and infinities are outside the
      model.  Rounding is idealised for the continuous results (entropies,
      probability mass, commit loss).  The two discrete results, the
      returned code and the decoded index, come from lines 177-188; these
      lines are evaluated a second time with the rounding of the dtype
      ([passthrough_fl], [decode_fl]), and statements about them are made
      on the range where both evaluations agree.
    - A tensor of shape (B, S, d) is a list of B samples, each a list of
      S positions, each a list of d reals; the tensors of the program are
      rectangular ([shape3]).  A matrix product is taken on matching inner
      dimensions: statements that assert a return take the last dimension
      of the batch to be [d] (torch raises [RuntimeError] otherwise).
    - Python integers ([d], [k], [x_split], the thresholds) are [Z], with
      Python's floor division and modulo ([Z.div], [Z.modulo]); the
      bit-width [d] is meant to be non-negative ([2 ** d] is an int).
    - An attribute of the instance is a field of record [LFQ]; a method is
      a function from the instance to the updated instance and a result,
      [Err e] standing for a raised exception.
    - The device argument and gradient tracking ([detach]) do not affect
      forward values and are left out.
    - Module [lfquant.codebook] is modelled from its specification. *)

From Stdlib Require Import Reals ZArith List Bool Lia Lra.
Import ListNotations.

Open Scope R_scope.

(** ** Exceptions *)

Inductive pyerror : Type :=
| AssertionError
| ZeroDivisionError
| TypeError
| IndexError
| ValueError.

Inductive result (A : Type) : Type :=
| Ok (a : A)
| Err (e : pyerror).

Arguments Ok {A} a.
Arguments Err {A} e.

(** ** Tensors *)

Definition Vec := list R.
Definition Mat := list Vec.
Definition Tensor3 := list Mat.

Definition size0 (x : Tensor3) : nat := length x.
Definition size1 (x : Tensor3) : nat := length (hd [] x).
Definition size2 (x : Tensor3) : nat := length (hd [] (hd [] x)).

(** Every tensor of the program is rectangular. *)
Definition shape2 (S n : nat) (m : Mat) : Prop :=
  length m = S /\ Forall (fun r => length r = n) m.

Definition shape3 (B S n : nat) (x : Tensor3) : Prop :=
  length x = B /\ Forall (shape2 S n) x.

Definition map3 (f : R -> R) (x : Tensor3) : Tensor3 :=
  map (map (map f)) x.

Fixpoint zipWith {A B C : Type} (f : A -> B -> C) (a : list A) (b : list B)
  : list C :=
  match a, b with
  | u :: a', v :: b' => f u v :: zipWith f a' b'
  | _, _ => []
  end.

Definition zip3 (f : R -> R -> R) (x y : Tensor3) : Tensor3 :=
  zipWith (zipWith (zipWith f)) x y.

Definition vsum (v : Vec) : R := fold_right Rplus 0 v.

Definition zeros (n : nat) : Vec := repeat 0 n.
Definition zeros2 (r c : nat) : Mat := repeat (zeros c) r.

Definition vadd (a b : Vec) : Vec := zipWith Rplus a b.
Definition vdiv (a : Vec) (c : R) : Vec := map (fun v => v / c) a.

Definition dot (a b : Vec) : R := vsum (zipWith Rmult a b).

(** [tensor.mean()] over a vector: the sum over the number of entries. *)
Definition vmean (v : Vec) : R := vsum v / INR (length v).

Definition flatten3 (x : Tensor3) : Vec := concat (concat x).
Definition mean3 (x : Tensor3) : R := vmean (flatten3 x).

(** [torch.arange(n)] and [torch.arange(n - 1, -1, -1)]. *)
Definition arange (n : Z) : list Z := map Z.of_nat (seq 0 (Z.to_nat n)).
Definition arange_down (n : Z) : list Z := rev (arange n).

(** [m.t()] for a matrix with [ncols] columns. *)
Definition transpose (ncols : nat) (m : Mat) : Mat :=
  map (fun j => map (fun row => nth j row 0) m) (seq 0 ncols).

Definition ncols (m : Mat) : nat := length (hd [] m).

(** [row @ m] for [m] of shape (d, n) and a row of [d] entries: entry [j]
    is the dot product of the row with column [j]. *)
Definition vecmat (row : Vec) (m : Mat) : Vec :=
  map (fun j => dot row (map (fun mrow => nth j mrow 0) m)) (seq 0 (ncols m)).

Definition matmul3 (x : Tensor3) (m : Mat) : Tensor3 :=
  map (map (fun row => vecmat row m)) x.

(** [x[:, lo:hi]]: Python slices clamp to the length. *)
Definition slice {A : Type} (lo hi : nat) (l : list A) : list A :=
  firstn (hi - lo) (skipn lo l).

Definition chunk (x : Tensor3) (i c : nat) : Tensor3 :=
  map (slice (i * c) ((i + 1) * c)) x.

(** [tnf.softmax(l, -1)], [tnf.log_softmax(l, -1)] on one row, in exact
    arithmetic. *)
Definition expsum (l : Vec) : R := vsum (map exp l).
Definition softmax (l : Vec) : Vec := map (fun v => exp v / expsum l) l.
Definition log_softmax (l : Vec) : Vec := map (fun v => v - ln (expsum l)) l.

(** ** The quantizer state *)

Inductive LFQMode : Type := VANILLA | X_BATCH | BLOCK.

Record LFQ : Type := mkLFQ {
  d : Z;
  k : Z;
  mode_delimiter : Z * Z;
  temperature : R;
  eps : R;
  indices : option (list (list Z));
  debug : bool;
  alpha : R;
  beta : R;
  commit_loss : option Tensor3;
  book_t : option Mat;
  half_book : option Mat;
  mode : option LFQMode;
  subbook_size : option Z;
  num_subbooks : option Z;
  subbook_ranges : option (list (Z * Z));
  x_split : Z;
  mean_probs : option Mat
}.

(** [LFQ.__init__]. *)
Definition LFQ_init (d0 : Z) (alpha0 beta0 temperature0 eps0 : R)
  (x_split0 : Z) (debug0 : bool) (mode_delimiter0 : Z * Z) : LFQ :=
  {| d := d0;
     k := 2 ^ d0;
     mode_delimiter := mode_delimiter0;
     temperature := temperature0;
     eps := eps0;
     indices := None;
     debug := debug0;
     alpha := alpha0;
     beta := beta0;
     commit_loss := None;
     book_t := None;
     half_book := None;
     mode := None;
     subbook_size := None;
     num_subbooks := None;
     subbook_ranges := None;
     x_split := x_split0;
     mean_probs := None |}.

(** The constructor's defaults:
    [d=26, alpha=1.0, beta=1.0, temperature=0.005, eps=1e-10, x_split=16,
     debug=False, mode_delimiter=(19, 26)]. *)
Definition LFQ_default (d0 : Z) : LFQ :=
  LFQ_init d0 1 1 (5 / 1000) (1 / 10000000000) 16 false (19%Z, 26%Z).

Definition set_mode (self : LFQ) (m : LFQMode) : LFQ :=
  mkLFQ (d self) (k self) (mode_delimiter self) (temperature self) (eps self)
    (indices self) (debug self) (alpha self) (beta self) (commit_loss self)
    (book_t self) (half_book self) (Some m) (subbook_size self)
    (num_subbooks self) (subbook_ranges self) (x_split self) (mean_probs self).

Definition set_book_t (self : LFQ) (b : Mat) : LFQ :=
  mkLFQ (d self) (k self) (mode_delimiter self) (temperature self) (eps self)
    (indices self) (debug self) (alpha self) (beta self) (commit_loss self)
    (Some b) (half_book self) (mode self) (subbook_size self)
    (num_subbooks self) (subbook_ranges self) (x_split self) (mean_probs self).

Definition set_subbooks (self : LFQ) (size num : Z) (ranges : list (Z * Z))
  : LFQ :=
  mkLFQ (d self) (k self) (mode_delimiter self) (temperature self) (eps self)
    (indices self) (debug self) (alpha self) (beta self) (commit_loss self)
    (book_t self) (half_book self) (mode self) (Some size)
    (Some num) (Some ranges) (x_split self) (mean_probs self).

Definition set_mean_probs (self : LFQ) (m : Mat) : LFQ :=
  mkLFQ (d self) (k self) (mode_delimiter self) (temperature self) (eps self)
    (indices self) (debug self) (alpha self) (beta self) (commit_loss self)
    (book_t self) (half_book self) (mode self) (subbook_size self)
    (num_subbooks self) (subbook_ranges self) (x_split self) (Some m).

Definition set_commit_loss (self : LFQ) (c : Tensor3) : LFQ :=
  mkLFQ (d self) (k self) (mode_delimiter self) (temperature self) (eps self)
    (indices self) (debug self) (alpha self) (beta self) (Some c)
    (book_t self) (half_book self) (mode self) (subbook_size self)
    (num_subbooks self) (subbook_ranges self) (x_split self) (mean_probs self).

Definition set_indices (self : LFQ) (i : list (list Z)) : LFQ :=
  mkLFQ (d self) (k self) (mode_delimiter self) (temperature self) (eps self)
    (Some i) (debug self) (alpha self) (beta self) (commit_loss self)
    (book_t self) (half_book self) (mode self) (subbook_size self)
    (num_subbooks self) (subbook_ranges self) (x_split self) (mean_probs self).

(** ** Mode selection and codebook materialisation: [init_books] *)

(** One codeword: [(i >> arange(d-1, -1, -1)) % 2], zeros replaced by -1,
    most significant bit first. *)
Definition pm_bit (i sh : Z) : Z :=
  let b := (Z.shiftr i sh mod 2)%Z in
  if (b =? 0)%Z then (-1)%Z else b.

Definition codeword (dd i : Z) : list Z :=
  map (pm_bit i) (arange_down dd).

(** The [k x d] matrix [book], before [.float().t()]. *)
Definition make_book (dd kk : Z) : list (list Z) :=
  map (codeword dd) (arange kk).

Definition full_book_t (dd kk : Z) : Mat :=
  transpose (Z.to_nat dd) (map (map IZR) (make_book dd kk)).

Definition make_ranges (size num : Z) : list (Z * Z) :=
  map (fun i => (i * size, (i + 1) * size)%Z) (arange num).

(** In the BLOCK branch [2 ** (min(21, d) - 1)] is an int only when the
    exponent is non-negative; for [d <= 0] Python yields a float,
    [num_subbooks] is a float too and [range(num_subbooks)] raises
    [TypeError] (the float-valued fields have no place in the record and
    stay unset on that path). *)
Definition init_books (self : LFQ) : LFQ * result unit :=
  if (d self <? fst (mode_delimiter self))%Z then
    (set_book_t (set_mode self VANILLA) (full_book_t (d self) (k self)), Ok tt)
  else if (d self <? snd (mode_delimiter self))%Z then
    (set_book_t (set_mode self X_BATCH) (full_book_t (d self) (k self)), Ok tt)
  else
    let self1 := set_mode self BLOCK in
    let e := (Z.min 21 (d self) - 1)%Z in
    if (e <? 0)%Z then (self1, Err TypeError)
    else
      let size := (2 ^ e)%Z in
      let num := (k self / size)%Z in
      (set_subbooks self1 size num (make_ranges size num), Ok tt).

(** ** The codebook provider (module [lfquant.codebook]) *)

(** Modelled from the spec: [generate_sub_book_t(d, start, end, device)],
    imported from [lfquant.codebook].  The result has shape
    (d, end - start); column [j] is the bit expansion of [start + j], most
    significant bit first, with 0 mapped to -1 and 1 to +1. *)
Definition generate_sub_book_t (dd start stop : Z) : Mat :=
  transpose (Z.to_nat dd)
    (map (fun j => map IZR (codeword dd (start + j))) (arange (stop - start))).

(** The computation every estimator performs on a block of positions:
    logits against the codewords, scaled by the temperature, softmax,
    log-softmax of the logits shifted by [eps], and the entropy of each
    position. *)
Definition scaled_logits (temp : R) (book : Mat) (x : Tensor3) : Tensor3 :=
  map3 (fun v => v / temp) (matmul3 x book).

Definition probs_of (l : Tensor3) : Tensor3 := map (map softmax) l.

Definition log_probs_of (e : R) (l : Tensor3) : Tensor3 :=
  map (map log_softmax) (map3 (fun v => v + e) l).

(** [-torch.sum(probs * log_probs, -1)]. *)
Definition entropy_of (probs log_probs : Tensor3) : Mat :=
  zipWith (zipWith (fun p lp => - vsum (zipWith Rmult p lp))) probs log_probs.

(** [torch.sum(m, dim=-2)] for a matrix with [n] columns. *)
Definition colsum (n : nat) (m : Mat) : Vec := fold_right vadd (zeros n) m.

(** [probs.mean(dim=(0, 1))]: the mean over samples and positions. *)
Definition mean01 (probs : Tensor3) : Vec :=
  vdiv (colsum (size2 probs) (concat probs)) (INR (length (concat probs))).

(** [-torch.sum(p * torch.log(p + eps), -1)] on one row. *)
Definition row_entropy (e : R) (p : Vec) : R :=
  - vsum (zipWith Rmult p (map (fun v => ln (v + e)) p)).

Section Provider.

(** The temperature used inside [book_entropy]: the call site passes only
    [(x, book_t, eps)]. *)
Variable provider_temperature : R.

(** Modelled from the spec: [book_entropy(x, book_t, eps)], imported from
    [lfquant.codebook] (the direct, whole-codebook entropy routine).
    Logits are the dot products against every codeword divided by the
    temperature; a softmax over the codewords gives the per-position
    distribution and a log-softmax with the additive floor [eps] the
    log-probabilities; the per-position entropy is [-sum p log p];
    [entro_mean] averages it over every position and sample; [mean_entro]
    is the entropy of the distribution averaged over samples and
    positions. *)
Definition book_entropy (x : Tensor3) (book : Mat) (e : R) : R * R :=
  let l := scaled_logits provider_temperature book x in
  let probs := probs_of l in
  let entropy := entropy_of probs (log_probs_of e l) in
  (vmean (concat entropy), row_entropy e (mean01 probs)).

(** ** The entropy estimators *)

(** [assert (x.size(-2) % self.x_split) == 0]. *)
Definition check_split (S : nat) (c : Z) : result unit :=
  if (c =? 0)%Z then Err ZeroDivisionError
  else if (Z.of_nat S mod c =? 0)%Z then Ok tt
  else Err AssertionError.

(** One iteration of the loop of [calc_entro_by_batch]; the accumulators
    are the local [entro_mean] and the attribute [self.mean_probs]. *)
Definition by_batch_step (self : LFQ) (book : Mat) (x : Tensor3)
  (acc : Vec * Mat) (i : nat) : Vec * Mat :=
  let x_chunk := chunk x i (Z.to_nat (x_split self)) in
  let l := scaled_logits (temperature self) book x_chunk in
  let probs := probs_of l in
  let log_probs := log_probs_of (eps self) l in
  let entropy := entropy_of probs log_probs in
  let mean_probs := mean01 probs in
  (vadd (fst acc) (map (fun row => vsum row / INR (size1 x)) entropy),
   map (fun row => vadd row mean_probs) (snd acc)).

(** [assert abs(self.mean_probs[0].sum().item()) < 1.1]. *)
Definition mass_check (mp : Mat) : result unit :=
  match mp with
  | [] => Err IndexError
  | row0 :: _ =>
      if Rlt_dec (Rabs (vsum row0)) (11 / 10) then Ok tt else Err AssertionError
  end.

(** The loop of [calc_entro_by_batch] and the division that follows it:
    the local [entro_mean] and the final [self.mean_probs]. *)
Definition by_batch_totals (self : LFQ) (book : Mat) (x : Tensor3)
  : Vec * Mat :=
  let mp0 := zeros2 (size0 x) (Z.to_nat (k self)) in
  let em0 := zeros (size0 x) in
  let num_splits := (Z.of_nat (size1 x) / x_split self)%Z in
  let acc :=
    fold_left (by_batch_step self book x) (seq 0 (Z.to_nat num_splits))
      (em0, mp0) in
  (fst acc, map (fun row => vdiv row (IZR num_splits)) (snd acc)).

Definition calc_entro_by_batch (self : LFQ) (x : Tensor3)
  : LFQ * result (R * R) :=
  match check_split (size1 x) (x_split self) with
  | Err e => (self, Err e)
  | Ok _ =>
      let mp0 := zeros2 (size0 x) (Z.to_nat (k self)) in
      let num_splits := (Z.of_nat (size1 x) / x_split self)%Z in
      let iters := seq 0 (Z.to_nat num_splits) in
      match book_t self, iters with
      | None, _ :: _ => (set_mean_probs self mp0, Err TypeError)
      | b, _ =>
          let book := match b with Some m => m | None => [] end in
          let acc := by_batch_totals self book x in
          let mp := snd acc in
          let self1 := set_mean_probs self mp in
          let finish :=
            (self1,
             Ok (vmean (fst acc), vmean (map (row_entropy (eps self)) mp))) in
          if debug self then
            match mass_check mp with
            | Err e => (self1, Err e)
            | Ok _ => finish
            end
          else finish
      end
  end.

Definition calc_entro_vanilla (self : LFQ) (x : Tensor3)
  : LFQ * result (R * R) :=
  match book_t self with
  | None => (self, Err TypeError)
  | Some book => (self, Ok (book_entropy x book (eps self)))
  end.

(** [LFQ._block]: one chunk of one subbook folded into the running
    totals. *)
Definition _block (self : LFQ) (nranges : nat) (x : Tensor3) (i : nat)
  (sub_book_t : Mat) (acc : Vec * Mat) : Vec * Mat :=
  let x_chunk := chunk x i (Z.to_nat (x_split self)) in
  let l := scaled_logits (temperature self) sub_book_t x_chunk in
  let probs := probs_of l in
  let log_probs := log_probs_of (eps self) l in
  let entropy := entropy_of probs log_probs in
  let denorm := INR (size1 x * nranges) in
  (vadd (fst acc) (map (fun row => vsum row / denorm) entropy),
   zipWith vadd (snd acc)
     (map (fun m => vdiv (colsum (ncols sub_book_t) m) denorm) probs)).

Definition block_subbook (self : LFQ) (nranges : nat) (x : Tensor3)
  (acc : Vec * Mat) (range : Z * Z) : Vec * Mat :=
  let sub_book_t := generate_sub_book_t (d self) (fst range) (snd range) in
  let num_splits := (Z.of_nat (size1 x) / x_split self)%Z in
  fold_left (fun a i => _block self nranges x i sub_book_t a)
    (seq 0 (Z.to_nat num_splits)) acc.

(** The two nested loops of [calc_entro_block]: the final local
    [entro_mean] and [mean_probs]. *)
Definition block_totals (self : LFQ) (size : Z) (ranges : list (Z * Z))
  (x : Tensor3) : Vec * Mat :=
  let em0 := zeros (size0 x) in
  let mp0 := zeros2 (size0 x) (Z.to_nat size) in
  fold_left (block_subbook self (length ranges) x) ranges (em0, mp0).

Definition calc_entro_block (self : LFQ) (x : Tensor3)
  : LFQ * result (R * R) :=
  match check_split (size1 x) (x_split self) with
  | Err e => (self, Err e)
  | Ok _ =>
      match subbook_size self, subbook_ranges self with
      | Some size, Some ranges =>
          let acc := block_totals self size ranges x in
          (self,
           Ok (vmean (fst acc),
               vmean (map (row_entropy (eps self)) (snd acc))))
      | _, _ => (self, Err TypeError)
      end
  end.

(** ** The orchestrator: [run] *)

(** [torch.where(x > 0, 1, -1)] on one coordinate. *)
Definition quantize (v : R) : R := if Rlt_dec 0 v then 1 else -1.

(** [x + (q - x).detach()]: the forward value of the pass-through code,
    in exact arithmetic; [passthrough_fl] below is the same line with the
    rounding of the dtype. *)
Definition passthrough (x q : Tensor3) : Tensor3 :=
  zip3 (fun xv qv => xv + (qv - xv)) x q.

(** [tnf.mse_loss(x, q.detach(), reduction="none")]. *)
Definition mse_none (x q : Tensor3) : Tensor3 :=
  zip3 (fun xv qv => (xv - qv) * (xv - qv)) x q.

(** [tensor.long()]: truncation toward zero (the 64-bit range is not
    modelled). *)
Definition to_long (r : R) : Z :=
  if Rle_dec 0 r then Zfloor r else (- Zfloor (- r))%Z.

(** [2 ** torch.arange(n - 1, -1, -1).float()]. *)
Definition powers_of_2 (n : nat) : Vec :=
  map (fun e => 2 ^ Z.to_nat e) (arange_down (Z.of_nat n)).

(** [((q + 1) // 2).float() @ powers_of_2).long()], in exact arithmetic;
    [decode_fl] below is the same line with the float32 rounding. *)
Definition decode_indices (q : Tensor3) : list (list Z) :=
  let binary_result := map3 (fun v => IZR (Zfloor ((v + 1) / 2))) q in
  let powers := powers_of_2 (size2 binary_result) in
  map (map (fun row => to_long (dot row powers))) binary_result.

(** A slot of the result that is not always a float scalar. *)
Inductive slot : Type :=
| SNone
| SScalar (r : R)
| SLong (i : list (list Z)).

Definition slot_of_indices (i : option (list (list Z))) : slot :=
  match i with
  | None => SNone
  | Some m => SLong m
  end.

(** The six-slot tuple returned by [run]. *)
Record Output : Type := mkOutput {
  out_q : Tensor3;
  out_entro_mean : R;
  out_mean_entro : R;
  out_entro_loss : R;
  out_indices : slot;
  out_commit_loss : R
}.

Definition FZERO : R := 0.

(** [if self.mode is None: self.init_books(device)]. *)
Definition lazy_init (self : LFQ) : LFQ * result unit :=
  match mode self with
  | None => init_books self
  | Some _ => (self, Ok tt)
  end.

Definition dispatch (self : LFQ) (x : Tensor3) : LFQ * result (R * R) :=
  match mode self with
  | Some VANILLA => calc_entro_vanilla self x
  | Some X_BATCH => calc_entro_by_batch self x
  | Some BLOCK => calc_entro_block self x
  | None => (self, Err ValueError)
  end.

Definition run (self : LFQ) (x : Tensor3) (return_indices training : bool)
  : LFQ * result Output :=
  match lazy_init self with
  | (self1, Err e) => (self1, Err e)
  | (self1, Ok _) =>
      let q := map3 quantize x in
      if negb training then
        (self1, Ok (mkOutput q FZERO FZERO FZERO (SScalar FZERO) FZERO))
      else
        match dispatch self1 x with
        | (self2, Err e) => (self2, Err e)
        | (self2, Ok (entro_mean, mean_entro)) =>
            let entro_loss :=
              alpha self2 * entro_mean - alpha self2 * mean_entro in
            let q' := passthrough x q in
            let self3 := set_commit_loss self2 (mse_none x q') in
            let self4 :=
              if return_indices then set_indices self3 (decode_indices q')
              else self3 in
            (self4,
             Ok (mkOutput q' entro_mean mean_entro entro_loss
                   (slot_of_indices (indices self4))
                   (mean3 (mse_none x q'))))
        end
  end.

(** [TorchLFQ.forward]: the wrapper forwards its own training flag. *)
Definition forward (self : LFQ) (module_training : bool) (x : Tensor3)
  (return_indices : bool) : LFQ * result Output :=
  run self x return_indices module_training.

(** A sequence of calls on one instance; the outputs are collected in call
    order. *)
Record Call : Type := mkCall {
  call_x : Tensor3;
  call_return_indices : bool;
  call_training : bool
}.

Fixpoint run_calls (self : LFQ) (calls : list Call)
  : LFQ * list (result Output) :=
  match calls with
  | [] => (self, [])
  | c :: rest =>
      let (self1, r) :=
        run self (call_x c) (call_return_indices c) (call_training c) in
      let (self2, rs) := run_calls self1 rest in
      (self2, r :: rs)
  end.

End Provider.

(** ** Floating-point evaluation of lines 177-188

    The reals above idealise rounding.  Two results of [run] are discrete
    (the returned code and the decoded index), so the two lines that
    produce them are also evaluated here with the rounding of the dtype.
    A finite value of a dtype is an integer number of units [2 ^ - emin],
    the least positive value of the dtype, that fits the significand. *)

Inductive dtype : Type :=
| float64
| float32
| float16
| bfloat16.

(** Significand bits, hidden bit included. *)
Definition prec (dt : dtype) : Z :=
  match dt with
  | float64 => 53
  | float32 => 24
  | float16 => 11
  | bfloat16 => 8
  end%Z.

Definition emin (dt : dtype) : Z :=
  match dt with
  | float64 => 1074
  | float32 => 149
  | float16 => 24
  | bfloat16 => 133
  end%Z.

(** Round to nearest, ties to even, to [p] significant bits: the result
    of one floating-point operation whose exact result is [z] units
    (overflow to infinity is not modelled). *)
Definition round_int (p z : Z) : Z :=
  let a := Z.abs z in
  if (a <? 2 ^ p)%Z then z
  else
    let e := (Z.log2 a - (p - 1))%Z in
    let q := (a / 2 ^ e)%Z in
    let r := (a mod 2 ^ e)%Z in
    let half := (2 ^ (e - 1))%Z in
    let q' :=
      if (r <? half)%Z then q
      else if (half <? r)%Z then (q + 1)%Z
      else if Z.even q then q else (q + 1)%Z in
    (Z.sgn z * (q' * 2 ^ e))%Z.

(** The number 1 in units of the dtype, and the real a number of units
    stands for. *)
Definition one (dt : dtype) : Z := (2 ^ emin dt)%Z.

Definition float_value (dt : dtype) (z : Z) : R := IZR z / IZR (one dt).

Definition is_float (dt : dtype) (z : Z) : Prop := round_int (prec dt) z = z.

(** Line 157 on one coordinate, promoted to the dtype of [x] by [q - x]. *)
Definition where_fl (dt : dtype) (x : Z) : Z :=
  if (0 <? x)%Z then one dt else (- one dt)%Z.

(** Line 177 on one coordinate: [x + (q - x)], each operation rounded in
    the dtype of [x]. *)
Definition passthrough_fl (dt : dtype) (x : Z) : Z :=
  round_int (prec dt) (x + round_int (prec dt) (where_fl dt x - x)).

(** Line 181 then [.float()] on one coordinate: [(q + 1) // 2] in the
    dtype of [x], converted to float32.  The result is an integer and is
    kept as such: rounding to 24 bits does not depend on the unit. *)
Definition bit_fl (dt : dtype) (q : Z) : Z :=
  round_int 24 (round_int (prec dt) (q + one dt) / (2 * one dt)).

(** Line 188 on one position: the float32 product with the powers of two
    (each term is exact), accumulated from the most significant bit with
    one rounding per addition, then [.long()].  The order of accumulation
    is the backend's; wherever every partial sum is exact it plays no
    role. *)
Definition decode_fl (dt : dtype) (q : list Z) : Z :=
  let powers := map (Z.pow 2) (arange_down (Z.of_nat (length q))) in
  fold_left (fun acc t => round_int 24 (acc + t))
    (zipWith Z.mul (map (bit_fl dt) q) powers) 0%Z.

(** ** Reference notions used by the statements *)

(** The index tensor a successful training call computes when indices are
    requested. *)
Definition indices_of (x : Tensor3) : list (list Z) :=
  decode_indices (passthrough x (map3 quantize x)).

Definition is_ok {A : Type} (r : result A) : bool :=
  match r with
  | Ok _ => true
  | Err _ => false
  end.

(** The value of [self.indices] after a history of calls with their
    results: the index tensor of the most recent training call that
    requested indices and returned, or the initial value when there is
    none. *)
Fixpoint stored_indices (init : option (list (list Z))) (calls : list Call)
  (results : list (result Output)) : option (list (list Z)) :=
  match calls, results with
  | c :: calls', r :: results' =>
      stored_indices
        (if call_training c && call_return_indices c && is_ok r
         then Some (indices_of (call_x c)) else init)
        calls' results'
  | _, _ => init
  end.

(** Whether some call of a history asked for indices. *)
Definition requested_indices (calls : list Call) : bool :=
  existsb call_return_indices calls.

(** What the estimators compute on one position (one row of the batch):
    its assignment distribution over the codewords of [book] and the
    entropy of that distribution. *)
Definition row_logits (temp : R) (book : Mat) (row : Vec) : Vec :=
  map (fun v => v / temp) (vecmat row book).

Definition row_probs (temp : R) (book : Mat) (row : Vec) : Vec :=
  softmax (row_logits temp book row).

Definition row_H (temp e : R) (book : Mat) (row : Vec) : R :=
  - vsum (zipWith Rmult (row_probs temp book row)
            (log_softmax (map (fun v => v + e) (row_logits temp book row)))).

(** The attributes fixed by the constructor. *)
Definition config (self : LFQ)
  : Z * Z * (Z * Z) * R * R * bool * R * R * Z :=
  (d self, k self, mode_delimiter self, temperature self, eps self,
   debug self, alpha self, beta self, x_split self).

(** The attributes written by the lazy initialisation. *)
Definition books (self : LFQ)
  : option LFQMode * option Mat * option Mat * option Z * option Z
    * option (list (Z * Z)) :=
  (mode self, book_t self, half_book self, subbook_size self,
   num_subbooks self, subbook_ranges self).

(** The same instance built with another reserved weight [beta]. *)
Definition set_beta (self : LFQ) (b : R) : LFQ :=
  mkLFQ (d self) (k self) (mode_delimiter self) (temperature self) (eps self)
    (indices self) (debug self) (alpha self) b (commit_loss self)
    (book_t self) (half_book self) (mode self) (subbook_size self)
    (num_subbooks self) (subbook_ranges self) (x_split self) (mean_probs self).

(** The same instance built with another chunk size [x_split]. *)
Definition set_x_split (self : LFQ) (xs : Z) : LFQ :=
  mkLFQ (d self) (k self) (mode_delimiter self) (temperature self) (eps self)
    (indices self) (debug self) (alpha self) (beta self) (commit_loss self)
    (book_t self) (half_book self) (mode self) (subbook_size self)
    (num_subbooks self) (subbook_ranges self) xs (mean_probs self).

(** The binary digits of [i] on [dd] bits, most significant first. *)
Definition bits_of (dd i : Z) : list Z :=
  map (fun sh => (Z.shiftr i sh mod 2)%Z) (arange_down dd).

(** Column [i] of a matrix stored by rows. *)
Definition column (i : nat) (m : Mat) : Vec :=
  map (fun mrow => nth i mrow 0) m.


(** The bit a code coordinate stands for: [(q + 1) // 2], so [+1] is bit 1
    and [-1] is bit 0. *)
Definition bit_of_code (q : R) : Z := Zfloor ((q + 1) / 2).

(** The unsigned integer with the given binary digits, most significant
    first. *)
Definition be_value (bits : list Z) : Z :=
  fold_left (fun acc b => (2 * acc + b)%Z) bits 0%Z.

(** The index of one position, read off the hard code of its row. *)
Definition index_of_row (row : Vec) : Z :=
  be_value (map bit_of_code (map quantize row)).

(** The direct entropy computation as the specification words it
    (section 4.3, Vanilla), with every sum written over its index range:
    the logit of codeword [i] is the dot product of the position with the
    bit expansion of [i] (most significant bit first, as [+1] and [-1])
    over the temperature; the softmax over the [2^d] codewords gives the
    assignment probabilities, the log-softmax of the logits shifted by
    the floor [e] the log-probabilities; the entropy of a position is
    [- sum p log p]; [entro_mean] is its mean over all positions of all
    samples, and [mean_entro] the entropy, with floor [e], of the mean
    assignment distribution.  The estimators of the code are compared
    with these. *)
Definition direct_logit (temp : R) (dd : Z) (row : list R) (i : nat) : R :=
  fold_right Rplus 0
    (map (fun j =>
            nth j row 0 *
            (if Z.testbit (Z.of_nat i) (dd - 1 - Z.of_nat j) then 1 else -1))
       (seq 0 (Z.to_nat dd))) / temp.

Definition direct_prob (temp : R) (dd : Z) (row : list R) (i : nat) : R :=
  exp (direct_logit temp dd row i) /
  fold_right Rplus 0
    (map (fun i' => exp (direct_logit temp dd row i'))
       (seq 0 (Z.to_nat (2 ^ dd)))).

Definition direct_log_prob (temp e : R) (dd : Z) (row : list R) (i : nat)
  : R :=
  direct_logit temp dd row i + e -
  ln (fold_right Rplus 0
        (map (fun i' => exp (direct_logit temp dd row i' + e))
           (seq 0 (Z.to_nat (2 ^ dd))))).

Definition direct_H (temp e : R) (dd : Z) (row : list R) : R :=
  - fold_right Rplus 0
      (map (fun i =>
              direct_prob temp dd row i * direct_log_prob temp e dd row i)
         (seq 0 (Z.to_nat (2 ^ dd)))).

Definition direct_entro_mean (temp e : R) (dd : Z)
  (x : list (list (list R))) : R :=
  fold_right Rplus 0 (map (direct_H temp e dd) (concat x)) /
  INR (length (concat x)).

Definition direct_mean_prob (temp : R) (dd : Z) (x : list (list (list R)))
  (i : nat) : R :=
  fold_right Rplus 0 (map (fun row => direct_prob temp dd row i) (concat x)) /
  INR (length (concat x)).

Definition direct_mean_entro (temp e : R) (dd : Z)
  (x : list (list (list R))) : R :=
  - fold_right Rplus 0
      (map (fun i =>
              direct_mean_prob temp dd x i *
              ln (direct_mean_prob temp dd x i + e))
         (seq 0 (Z.to_nat (2 ^ dd)))).

(** The entropy of the assignment of a position with the one coordinate
    [1] to the two codewords [-1] and [+1], at inverse temperature [a]. *)
Definition two_point_entropy (a : R) : R :=
  ln (exp (- a) + exp a) - a * (exp a - exp (- a)) / (exp (- a) + exp a).

(** The magnitudes for which line 177 is exact in dtype [dt]: at most
    [2 ^ prec dt]. *)
Definition in_range (dt : dtype) (v : R) : Prop :=
  Rabs v <= IZR (2 ^ prec dt).

(** * Properties *)

(** ** Integer ranges *)

Lemma arange_length (n : Z) : length (arange n) = Z.to_nat n.
Proof. unfold arange. now rewrite length_map, length_seq. Qed.

Lemma arange_In (n z : Z) : In z (arange n) <-> (0 <= z < n)%Z.
Proof.
  unfold arange. rewrite in_map_iff. split.
  - intros [i [<- Hi]]. apply in_seq in Hi. lia.
  - intros Hz. exists (Z.to_nat z). split; [lia|]. apply in_seq. lia.
Qed.

Lemma arange_nth (n : Z) (i : nat) (dflt : Z) :
  (i < Z.to_nat n)%nat -> nth i (arange n) dflt = Z.of_nat i.
Proof.
  intros Hi. unfold arange.
  rewrite (nth_indep _ dflt (Z.of_nat 0)) by now rewrite length_map, length_seq.
  rewrite map_nth, seq_nth; [reflexivity | assumption].
Qed.

Lemma make_ranges_In (size num : Z) (r : Z * Z) :
  In r (make_ranges size num) <->
  exists i, (0 <= i < num)%Z /\ r = (i * size, (i + 1) * size)%Z.
Proof.
  unfold make_ranges. rewrite in_map_iff. split.
  - intros [i [<- Hi]]. exists i. now rewrite <- arange_In.
  - intros [i [Hi ->]]. exists i. now rewrite arange_In.
Qed.

(** ** Rounding to a significand

    [round_int] on numbers of units: what it keeps, how far it moves a
    value, and the exactness of line 177 up to magnitude [2 ^ p]. *)

Section Rounding.

Local Open Scope Z_scope.

Lemma pow2_pos (e : Z) : 0 <= e -> 0 < 2 ^ e.
Proof. intros He. apply Z.pow_pos_nonneg; lia. Qed.

Lemma pow2_split (a b : Z) : 0 <= b <= a -> 2 ^ a = 2 ^ (a - b) * 2 ^ b.
Proof. intros H. rewrite <- Z.pow_add_r by lia. f_equal. lia. Qed.

Lemma round_int_small (p z : Z) : Z.abs z < 2 ^ p -> round_int p z = z.
Proof. intros H. unfold round_int. apply Z.ltb_lt in H. now rewrite H. Qed.

Lemma round_int_opp (p z : Z) : round_int p (- z) = - round_int p z.
Proof.
  unfold round_int. rewrite Z.abs_opp, Z.sgn_opp.
  destruct (Z.abs z <? 2 ^ p); [reflexivity|]. cbv zeta. ring.
Qed.

(** A positive multiple of the spacing at its own exponent is kept. *)
Lemma round_int_exact (p a c e : Z) :
  1 <= e -> 2 ^ p <= a -> 0 < a -> Z.log2 a - (p - 1) = e -> a = c * 2 ^ e ->
  round_int p a = a.
Proof.
  intros He Hp Ha Hl Hc. unfold round_int.
  rewrite Z.abs_eq by lia.
  assert (E : (a <? 2 ^ p) = false) by (apply Z.ltb_ge; lia).
  rewrite E. cbv zeta. rewrite Hl.
  assert (H2 : 0 < 2 ^ e) by (apply pow2_pos; lia).
  assert (Hh : 0 < 2 ^ (e - 1)) by (apply pow2_pos; lia).
  assert (Hq : a / 2 ^ e = c) by (rewrite Hc; apply Z.div_mul; lia).
  assert (Hr : a mod 2 ^ e = 0) by (rewrite Hc; apply Z.mod_mul; lia).
  rewrite Hq, Hr.
  assert (E2 : (0 <? 2 ^ (e - 1)) = true) by (apply Z.ltb_lt; lia).
  rewrite E2, Z.sgn_pos by lia. lia.
Qed.

Lemma round_int_multiple (p m e : Z) :
  1 <= p -> 0 <= e -> 0 <= m <= 2 ^ p ->
  round_int p (m * 2 ^ e) = m * 2 ^ e.
Proof.
  intros Hp He Hm.
  assert (H2 : 0 < 2 ^ e) by (apply pow2_pos; lia).
  assert (H2p : 0 < 2 ^ p) by (apply pow2_pos; lia).
  destruct (Z_lt_ge_dec (m * 2 ^ e) (2 ^ p)) as [Hs | Hb].
  - apply round_int_small. rewrite Z.abs_eq by nia. exact Hs.
  - assert (Ha : 0 < m * 2 ^ e) by lia.
    assert (HL : p <= Z.log2 (m * 2 ^ e)) by (apply Z.log2_le_pow2; lia).
    destruct (Z.eq_dec m (2 ^ p)) as [-> | Hne].
    + assert (HLe : Z.log2 (2 ^ p * 2 ^ e) = p + e).
      { rewrite <- Z.pow_add_r by lia. apply Z.log2_pow2. lia. }
      apply (round_int_exact p _ (2 ^ (p - 1)) (e + 1)); try lia.
      rewrite (pow2_split p (p - 1)) by lia.
      replace (p - (p - 1)) with 1 by lia.
      rewrite (Z.pow_add_r 2 e 1) by lia. ring.
    + assert (Hlt : m * 2 ^ e < 2 ^ (p + e)).
      { rewrite Z.pow_add_r by lia. nia. }
      apply Z.log2_lt_pow2 in Hlt; [|lia].
      set (L := Z.log2 (m * 2 ^ e)) in *.
      apply (round_int_exact p _ (m * 2 ^ (e - (L - (p - 1)))) (L - (p - 1)));
        try lia.
      rewrite (pow2_split e (L - (p - 1))) at 1 by lia. ring.
Qed.

(** A kept value is a multiple of the spacing of its binade. *)
Lemma round_int_fixed_multiple (p z k : Z) :
  1 <= p -> round_int p z = z -> 2 ^ k <= Z.abs z -> p - 1 <= k ->
  exists c, z = c * 2 ^ (k - p + 1).
Proof.
  intros Hp H Hk Hpk.
  assert (H2k : 0 < 2 ^ k) by (apply pow2_pos; lia).
  unfold round_int in H.
  destruct (Z.abs z <? 2 ^ p) eqn:E.
  - apply Z.ltb_lt in E.
    assert (k < p).
    { destruct (Z_lt_ge_dec k p) as [?|Hge]; [assumption|].
      assert (2 ^ p <= 2 ^ k) by (apply Z.pow_le_mono_r; lia). lia. }
    replace (k - p + 1) with 0 by lia. exists z. simpl. lia.
  - cbv zeta in H.
    assert (HL : k <= Z.log2 (Z.abs z)) by (apply Z.log2_le_pow2; lia).
    set (e := Z.log2 (Z.abs z) - (p - 1)) in *.
    match type of H with Z.sgn z * (?Q * _) = _ => set (q' := Q) in * end.
    exists (Z.sgn z * q' * 2 ^ (e - (k - p + 1))).
    etransitivity; [symmetry; exact H|].
    rewrite (pow2_split e (k - p + 1)) at 1 by lia. ring.
Qed.

(** The rounding of a positive value above the small range, from its
    quotient and remainder by the spacing. *)
Lemma round_int_eval (p a L q r : Z) :
  0 < a -> 2 ^ p <= a -> Z.log2 a = L ->
  0 <= r < 2 ^ (L - (p - 1)) -> a = 2 ^ (L - (p - 1)) * q + r ->
  round_int p a =
  (if r <? 2 ^ (L - (p - 1) - 1) then q
   else if 2 ^ (L - (p - 1) - 1) <? r then q + 1
   else if Z.even q then q else q + 1) * 2 ^ (L - (p - 1)).
Proof.
  intros Ha Hp HL Hr Hq. unfold round_int.
  rewrite Z.abs_eq by lia.
  assert (E : (a <? 2 ^ p) = false) by (apply Z.ltb_ge; lia).
  rewrite E. cbv zeta. rewrite HL.
  rewrite <- (Z.div_unique_pos a _ q r Hr Hq).
  rewrite <- (Z.mod_unique_pos a _ q r Hr Hq).
  rewrite Z.sgn_pos by lia. lia.
Qed.

(** One rounding moves a positive value by at most half the spacing. *)
Lemma round_int_error (p a : Z) :
  1 <= p -> 0 < a ->
  exists dl,
    round_int p a = a + dl /\
    (a < 2 ^ p -> dl = 0) /\
    (2 ^ p <= a -> Z.abs dl <= 2 ^ (Z.log2 a - p)).
Proof.
  intros Hp Ha.
  destruct (Z_lt_ge_dec a (2 ^ p)) as [Hs | Hb].
  - exists 0. split; [|split; [reflexivity | lia]].
    rewrite round_int_small; [lia | rewrite Z.abs_eq; lia].
  - assert (HL : p <= Z.log2 a) by (apply Z.log2_le_pow2; lia).
    set (L := Z.log2 a) in *.
    assert (H2 : 0 < 2 ^ (L - (p - 1))) by (apply pow2_pos; lia).
    assert (Hh : 2 ^ (L - (p - 1)) = 2 * 2 ^ (L - p)).
    { rewrite <- Z.pow_succ_r by lia. f_equal; lia. }
    pose proof (Z.mod_pos_bound a (2 ^ (L - (p - 1))) H2) as Hr.
    pose proof (Z.div_mod a (2 ^ (L - (p - 1))) ltac:(lia)) as Hq.
    rewrite (round_int_eval p a L _ _ Ha (Z.ge_le _ _ Hb) eq_refl Hr Hq).
    replace (L - (p - 1) - 1) with (L - p) by lia.
    set (q := a / 2 ^ (L - (p - 1))) in *.
    set (r := a mod 2 ^ (L - (p - 1))) in *.
    destruct (r <? 2 ^ (L - p)) eqn:E1.
    + apply Z.ltb_lt in E1. exists (- r).
      split; [lia | split; [lia | intros _; lia]].
    + apply Z.ltb_ge in E1.
      destruct (2 ^ (L - p) <? r) eqn:E2.
      * apply Z.ltb_lt in E2. exists (2 ^ (L - (p - 1)) - r).
        split; [lia | split; [lia | intros _; lia]].
      * apply Z.ltb_ge in E2. destruct (Z.even q).
        -- exists (- r). split; [lia | split; [lia | intros _; lia]].
        -- exists (2 ^ (L - (p - 1)) - r).
           split; [lia | split; [lia | intros _; lia]].
Qed.

(** Values within half a spacing of a power of two round to it. *)
Lemma round_int_near_pow2 (p u dl : Z) :
  1 <= p -> p < u -> Z.abs dl <= 2 ^ (u - p - 1) ->
  round_int p (2 ^ u + dl) = 2 ^ u.
Proof.
  intros Hp Hu Hd.
  assert (Hup : 2 ^ p < 2 ^ u) by (apply Z.pow_lt_mono_r; lia).
  assert (H2p : 0 < 2 ^ p) by (apply pow2_pos; lia).
  assert (Hs : 0 < 2 ^ (u - p - 1)) by (apply pow2_pos; lia).
  assert (Hs1 : 2 ^ (u - p) = 2 * 2 ^ (u - p - 1)).
  { rewrite <- Z.pow_succ_r by lia. f_equal; lia. }
  assert (Hs2 : 2 ^ (u - p + 1) = 2 * 2 ^ (u - p)).
  { rewrite <- Z.pow_succ_r by lia. f_equal; lia. }
  assert (Hu1 : 2 ^ u = 2 ^ (p - 1) * 2 ^ (u - p + 1)).
  { rewrite <- Z.pow_add_r by lia. f_equal. lia. }
  assert (Hu2 : 2 ^ u = 2 ^ p * 2 ^ (u - p)).
  { rewrite <- Z.pow_add_r by lia. f_equal. lia. }
  assert (Hu3 : 2 ^ u = 2 * 2 ^ (u - 1)).
  { rewrite <- Z.pow_succ_r by lia. f_equal; lia. }
  assert (Hp1 : 1 <= 2 ^ (p - 1)).
  { assert (0 < 2 ^ (p - 1)) by (apply pow2_pos; lia). lia. }
  assert (Hsu : 2 ^ (u - p) <= 2 ^ (u - 1))
    by (apply Z.pow_le_mono_r; lia).
  assert (Hpu : 2 ^ p <= 2 ^ (u - 1)) by (apply Z.pow_le_mono_r; lia).
  assert (Hodd : Z.even (2 ^ p - 1) = false).
  { rewrite Z.even_sub, Z.even_pow by lia. reflexivity. }
  destruct (Z.lt_trichotomy dl 0) as [Hneg | [-> | Hpos]].
  - (* below the power: spacing 2^(u-p), quotient 2^p - 1 *)
    assert (HL : Z.log2 (2 ^ u + dl) = u - 1).
    { apply Z.log2_unique; [lia|].
      replace (Z.succ (u - 1)) with u by lia. lia. }
    assert (He : u - 1 - (p - 1) = u - p) by lia.
    assert (Hr : 0 <= 2 ^ (u - p) + dl < 2 ^ (u - 1 - (p - 1)))
      by (rewrite He; lia).
    assert (Hq : 2 ^ u + dl =
                 2 ^ (u - 1 - (p - 1)) * (2 ^ p - 1) + (2 ^ (u - p) + dl))
      by (rewrite He, Hu2; ring).
    assert (Ha : 0 < 2 ^ u + dl) by lia.
    assert (Hap : 2 ^ p <= 2 ^ u + dl) by lia.
    rewrite (round_int_eval p _ (u - 1) _ _ Ha Hap HL Hr Hq).
    rewrite He.
    assert (E1 : (2 ^ (u - p) + dl <? 2 ^ (u - p - 1)) = false)
      by (apply Z.ltb_ge; lia).
    rewrite E1, Hodd.
    destruct (2 ^ (u - p - 1) <? 2 ^ (u - p) + dl); rewrite Hu2; ring.
  - rewrite Z.add_0_r. rewrite <- (Z.mul_1_l (2 ^ u)).
    apply round_int_multiple; lia.
  - assert (HL : Z.log2 (2 ^ u + dl) = u).
    { apply (Z.log2_unique' _ u dl); lia. }
    assert (He : u - (p - 1) = u - p + 1) by lia.
    assert (Hr : 0 <= dl < 2 ^ (u - (p - 1))) by (rewrite He; lia).
    assert (Hq : 2 ^ u + dl = 2 ^ (u - (p - 1)) * 2 ^ (p - 1) + dl)
      by (rewrite He, Hu1; ring).
    assert (Ha : 0 < 2 ^ u + dl) by lia.
    assert (Hap : 2 ^ p <= 2 ^ u + dl) by lia.
    rewrite (round_int_eval p _ u _ _ Ha Hap HL Hr Hq).
    rewrite He. replace (u - p + 1 - 1) with (u - p) by lia.
    assert (E1 : (dl <? 2 ^ (u - p)) = true) by (apply Z.ltb_lt; lia).
    rewrite E1, Hu1. ring.
Qed.

(** Line 177 at a positive coordinate of magnitude at most [2 ^ p]:
    [u] is the exponent of the unit, so [2 ^ u] units stand for 1. *)
Lemma passthrough_pos (p u x : Z) :
  1 <= p -> p < u -> 0 < x -> round_int p x = x -> x <= 2 ^ (p + u) ->
  round_int p (x + round_int p (2 ^ u - x)) = 2 ^ u.
Proof.
  intros Hp Hu Hx Hf Hmax.
  assert (H2u : 0 < 2 ^ u) by (apply pow2_pos; lia).
  assert (H2p : 0 < 2 ^ p) by (apply pow2_pos; lia).
  assert (Hone : round_int p (2 ^ u) = 2 ^ u).
  { rewrite <- (Z.mul_1_l (2 ^ u)). apply round_int_multiple; lia. }
  destruct (Z_lt_ge_dec x (2 ^ u)) as [Hlt | Hge].
  - destruct (round_int_error p (2 ^ u - x) Hp ltac:(lia))
      as (dl & Hr & Hsmall & Hbig).
    rewrite Hr. replace (x + (2 ^ u - x + dl)) with (2 ^ u + dl) by lia.
    apply round_int_near_pow2; try assumption.
    assert (0 < 2 ^ (u - p - 1)) by (apply pow2_pos; lia).
    destruct (Z_lt_ge_dec (2 ^ u - x) (2 ^ p)) as [Hs | Hb].
    + rewrite (Hsmall Hs). simpl. lia.
    + specialize (Hbig ltac:(lia)).
      assert (HL : Z.log2 (2 ^ u - x) < u) by (apply Z.log2_lt_pow2; lia).
      assert (2 ^ (Z.log2 (2 ^ u - x) - p) <= 2 ^ (u - p - 1))
        by (apply Z.pow_le_mono_r; lia).
      lia.
  - assert (Hexact : round_int p (x - 2 ^ u) = x - 2 ^ u).
    { pose proof (Z.log2_spec x Hx) as Hspec.
      assert (HuL : u <= Z.log2 x) by (apply Z.log2_le_pow2; lia).
      assert (HLmax : Z.log2 x <= p + u).
      { rewrite <- (Z.log2_pow2 (p + u)) by lia. now apply Z.log2_le_mono. }
      set (L := Z.log2 x) in *.
      replace (Z.succ L) with (L + 1) in Hspec by lia.
      destruct (round_int_fixed_multiple p x L Hp Hf) as [c Hc];
        [rewrite Z.abs_eq; lia | lia |].
      destruct (Z.eq_dec L (p + u)) as [HLe | HLne].
      - assert (Hxe : x = 2 ^ p * 2 ^ u).
        { rewrite <- Z.pow_add_r by lia. rewrite HLe in Hspec. lia. }
        rewrite Hxe.
        replace (2 ^ p * 2 ^ u - 2 ^ u) with ((2 ^ p - 1) * 2 ^ u) by ring.
        apply round_int_multiple; lia.
      - assert (He : 0 <= L - p + 1 <= u) by lia.
        assert (H2e : 0 < 2 ^ (L - p + 1)) by (apply pow2_pos; lia).
        assert (HL1 : 2 ^ (L + 1) = 2 ^ p * 2 ^ (L - p + 1)).
        { rewrite <- Z.pow_add_r by lia. f_equal; lia. }
        assert (Hx2 : x - 2 ^ u =
                      (c - 2 ^ (u - (L - p + 1))) * 2 ^ (L - p + 1)).
        { rewrite (pow2_split u (L - p + 1)) at 1 by lia.
          rewrite Hc at 1. ring. }
        rewrite Hx2. apply round_int_multiple; try lia.
        nia. }
    replace (2 ^ u - x) with (- (x - 2 ^ u)) by lia.
    rewrite round_int_opp, Hexact.
    replace (x + - (x - 2 ^ u)) with (2 ^ u) by lia. exact Hone.
Qed.

Lemma passthrough_units (p u x : Z) :
  1 <= p -> p < u -> round_int p x = x -> Z.abs x <= 2 ^ (p + u) ->
  round_int p (x + round_int p ((if 0 <? x then 2 ^ u else - 2 ^ u) - x)) =
  if 0 <? x then 2 ^ u else - 2 ^ u.
Proof.
  intros Hp Hu Hf Hmax.
  destruct (0 <? x) eqn:E.
  - apply Z.ltb_lt in E. apply passthrough_pos; try assumption. lia.
  - apply Z.ltb_ge in E.
    assert (H2u : 0 < 2 ^ u) by (apply pow2_pos; lia).
    assert (H2p : 0 < 2 ^ p) by (apply pow2_pos; lia).
    assert (Hone : round_int p (2 ^ u) = 2 ^ u).
    { rewrite <- (Z.mul_1_l (2 ^ u)). apply round_int_multiple; lia. }
    destruct (Z.eq_dec x 0) as [-> | Hne].
    + replace (- 2 ^ u - 0) with (- 2 ^ u) by lia.
      rewrite round_int_opp, Hone. simpl.
      now rewrite round_int_opp, Hone.
    + replace (- 2 ^ u - x) with (- (2 ^ u - - x)) by lia.
      rewrite round_int_opp.
      replace (x + - round_int p (2 ^ u - - x))
        with (- (- x + round_int p (2 ^ u - - x))) by lia.
      rewrite round_int_opp. f_equal.
      apply passthrough_pos; try lia.
      rewrite round_int_opp. lia.
Qed.

End Rounding.

(** ** Mode selection *)

Lemma block_size_divides (dd : Z) :
  (1 <= dd)%Z ->
  (2 ^ dd = 2 ^ (dd - (Z.min 21 dd - 1)) * 2 ^ (Z.min 21 dd - 1))%Z.
Proof.
  intros Hd. rewrite <- Z.pow_add_r by lia. f_equal. lia.
Qed.

Lemma block_num_subbooks (dd : Z) :
  (1 <= dd)%Z ->
  (2 ^ dd / 2 ^ (Z.min 21 dd - 1) = 2 ^ (dd - (Z.min 21 dd - 1)))%Z.
Proof.
  intros Hd. rewrite (block_size_divides dd Hd) at 1.
  apply Z.div_mul. apply Z.pow_nonzero; lia.
Qed.

(** C7. In BLOCK mode the partition has
    [subbook_size = 2^(min(21, d) - 1)], which divides [k], and
    [num_subbooks = k / subbook_size]; the ranges are the consecutive
    equal-size intervals [[i * size, (i + 1) * size)], pairwise disjoint,
    and cover [[0, k)] exactly.  For [d = 20] there are two subbooks of
    size [2^19]. *)
Theorem block_partition :
  forall (d0 : Z) (a b t e : R) (xs : Z) (dbg : bool) (t0 t1 : Z),
    (1 <= d0)%Z -> (t0 <= d0)%Z -> (t1 <= d0)%Z ->
    exists s size num ranges,
      init_books (LFQ_init d0 a b t e xs dbg (t0, t1)) = (s, Ok tt) /\
      mode s = Some BLOCK /\
      subbook_size s = Some size /\
      num_subbooks s = Some num /\
      subbook_ranges s = Some ranges /\
      size = (2 ^ (Z.min 21 d0 - 1))%Z /\
      num = (k s / size)%Z /\
      (num * size = k s)%Z /\ k s = (2 ^ d0)%Z /\
      length ranges = Z.to_nat num /\
      (forall i, (i < Z.to_nat num)%nat ->
         nth i ranges (0, 0)%Z =
           (Z.of_nat i * size, (Z.of_nat i + 1) * size)%Z) /\
      (forall r, In r ranges -> (snd r - fst r = size)%Z) /\
      (forall z, (0 <= z < k s)%Z <->
         exists r, In r ranges /\ (fst r <= z < snd r)%Z) /\
      (forall r1 r2 z, In r1 ranges -> In r2 ranges ->
         (fst r1 <= z < snd r1)%Z -> (fst r2 <= z < snd r2)%Z -> r1 = r2) /\
      (d0 = 20%Z ->
         size = (2 ^ 19)%Z /\
         ranges = [(0, 2 ^ 19); (2 ^ 19, 2 ^ 20)]%Z).
Proof.
  intros d0 a b t e xs dbg t0 t1 Hd H0 H1.
  set (size := (2 ^ (Z.min 21 d0 - 1))%Z).
  set (num := (2 ^ d0 / size)%Z).
  assert (Hsize : (0 < size)%Z) by (apply Z.pow_pos_nonneg; lia).
  assert (Hnum : (num = 2 ^ (d0 - (Z.min 21 d0 - 1)))%Z)
    by (apply block_num_subbooks; assumption).
  assert (Hmul : (num * size = 2 ^ d0)%Z)
    by (rewrite Hnum; symmetry; apply block_size_divides; assumption).
  assert (Hnum0 : (0 < num)%Z) by (rewrite Hnum; apply Z.pow_pos_nonneg; lia).
  exists (set_subbooks
            (set_mode (LFQ_init d0 a b t e xs dbg (t0, t1)) BLOCK)
            size num (make_ranges size num)).
  exists size, num, (make_ranges size num).
  split.
  { unfold init_books. simpl.
    assert (E0 : (d0 <? t0)%Z = false) by (apply Z.ltb_ge; lia).
    assert (E1 : (d0 <? t1)%Z = false) by (apply Z.ltb_ge; lia).
    assert (E2 : (Z.min 21 d0 - 1 <? 0)%Z = false) by (apply Z.ltb_ge; lia).
    rewrite E0, E1, E2. reflexivity. }
  simpl. repeat split; try reflexivity; try assumption.
  - unfold make_ranges. now rewrite length_map, arange_length.
  - intros i Hi. unfold make_ranges.
    set (f := fun j => (j * size, (j + 1) * size)%Z).
    transitivity (nth i (map f (arange num)) (f 0%Z)).
    { apply nth_indep. now rewrite length_map, arange_length. }
    rewrite map_nth. now rewrite arange_nth.
  - intros r Hr. apply make_ranges_In in Hr. destruct Hr as [i [_ ->]].
    simpl. lia.
  - intros Hz.
    exists ((z / size) * size, (z / size + 1) * size)%Z. split.
    + apply make_ranges_In. exists (z / size)%Z. split; [|reflexivity].
      split; [apply Z.div_pos; lia|].
      apply Z.div_lt_upper_bound; lia.
    + simpl. pose proof (Z.mul_div_le z size Hsize).
      pose proof (Z.mul_succ_div_gt z size Hsize). lia.
  - destruct H as [r [Hr Hz]]. apply make_ranges_In in Hr.
    destruct Hr as [i [Hi ->]]. simpl in Hz. nia.
  - destruct H as [r [Hr Hz]]. apply make_ranges_In in Hr.
    destruct Hr as [i [Hi ->]]. simpl in Hz. nia.
  - intros r1 r2 z Hr1 Hr2 Hz1 Hz2.
    apply make_ranges_In in Hr1. destruct Hr1 as [i [Hi ->]].
    apply make_ranges_In in Hr2. destruct Hr2 as [j [Hj ->]].
    simpl in Hz1, Hz2. assert (i = j) by nia. now subst.
  - subst d0. reflexivity.
  - subst d0. vm_compute. reflexivity.
Qed.

Lemma block_partition_witness :
  exists s, init_books (LFQ_init 20 1 1 1 1 16 false (10, 20)%Z) = (s, Ok tt)
            /\ subbook_ranges s = Some [(0, 2 ^ 19); (2 ^ 19, 2 ^ 20)]%Z.
Proof.
  destruct (block_partition 20 1 1 1 1 16 false 10 20
              ltac:(lia) ltac:(lia) ltac:(lia))
    as (s & size & num & ranges & Hi & _ & _ & _ & Hr & _ & _ & _ & _ & _
        & _ & _ & _ & _ & H20).
  exists s. split; [exact Hi|].
  destruct (H20 eq_refl) as [_ ->]. exact Hr.
Defined.

(** ** The orchestrator: state frame *)

Lemma init_books_frame (self s : LFQ) (r : result unit) :
  init_books self = (s, r) ->
  indices s = indices self /\ commit_loss s = commit_loss self /\
  mean_probs s = mean_probs self /\ d s = d self /\ k s = k self /\
  x_split s = x_split self /\ debug s = debug self /\ mode s <> None.
Proof.
  unfold init_books. intros H.
  destruct (d self <? fst (mode_delimiter self))%Z.
  { inversion H; subst; simpl; repeat split; discriminate. }
  destruct (d self <? snd (mode_delimiter self))%Z.
  { inversion H; subst; simpl; repeat split; discriminate. }
  destruct (Z.min 21 (d self) - 1 <? 0)%Z;
    inversion H; subst; simpl; repeat split; discriminate.
Qed.

Lemma init_books_ok (self : LFQ) :
  (1 <= d self)%Z -> snd (init_books self) = Ok tt.
Proof.
  intros Hd. unfold init_books.
  destruct (d self <? fst (mode_delimiter self))%Z; [reflexivity|].
  destruct (d self <? snd (mode_delimiter self))%Z; [reflexivity|].
  assert (E : (Z.min 21 (d self) - 1 <? 0)%Z = false) by (apply Z.ltb_ge; lia).
  now rewrite E.
Qed.

Lemma lazy_init_frame (self s : LFQ) (r : result unit) :
  lazy_init self = (s, r) ->
  indices s = indices self /\ commit_loss s = commit_loss self /\
  mean_probs s = mean_probs self /\ d s = d self /\ k s = k self /\
  x_split s = x_split self /\ debug s = debug self /\ mode s <> None.
Proof.
  unfold lazy_init. destruct (mode self) eqn:Hm.
  - intros H. inversion H; subst. rewrite Hm. repeat split. discriminate.
  - apply init_books_frame.
Qed.

Lemma lazy_init_ok (self : LFQ) :
  (1 <= d self)%Z -> snd (lazy_init self) = Ok tt.
Proof.
  intros Hd. unfold lazy_init. destruct (mode self); [reflexivity|].
  now apply init_books_ok.
Qed.

Lemma lazy_init_initialised (self : LFQ) (m : LFQMode) :
  mode self = Some m -> lazy_init self = (self, Ok tt).
Proof. unfold lazy_init. now intros ->. Qed.

Lemma calc_entro_by_batch_frame (self s : LFQ) (x : Tensor3)
  (r : result (R * R)) :
  calc_entro_by_batch self x = (s, r) ->
  indices s = indices self /\ commit_loss s = commit_loss self /\
  alpha s = alpha self.
Proof.
  unfold calc_entro_by_batch. intros H.
  destruct (check_split (size1 x) (x_split self)).
  2:{ inversion H; subst; auto. }
  destruct (book_t self),
    (seq 0 (Z.to_nat (Z.of_nat (size1 x) / x_split self)));
    try destruct (debug self); try destruct (mass_check _);
    inversion H; subst; simpl; auto.
Qed.

Lemma calc_entro_block_frame (self s : LFQ) (x : Tensor3)
  (r : result (R * R)) :
  calc_entro_block self x = (s, r) -> s = self.
Proof.
  unfold calc_entro_block. intros H.
  destruct (check_split (size1 x) (x_split self)).
  2:{ now inversion H. }
  destruct (subbook_size self), (subbook_ranges self); now inversion H.
Qed.

Lemma dispatch_frame (pt : R) (self s : LFQ) (x : Tensor3)
  (r : result (R * R)) :
  dispatch pt self x = (s, r) ->
  indices s = indices self /\ commit_loss s = commit_loss self /\
  alpha s = alpha self.
Proof.
  unfold dispatch. intros H. destruct (mode self) as [[| |]|].
  - unfold calc_entro_vanilla in H.
    destruct (book_t self); inversion H; subst; auto.
  - now apply calc_entro_by_batch_frame in H.
  - apply calc_entro_block_frame in H. subst; auto.
  - inversion H; subst; auto.
Qed.

(** What a training call that returns has done. *)
Lemma run_training_inv (pt : R) (self s : LFQ) (x : Tensor3) (ri : bool)
  (out : Output) :
  run pt self x ri true = (s, Ok out) ->
  exists s1 s2 em me,
    lazy_init self = (s1, Ok tt) /\
    dispatch pt s1 x = (s2, Ok (em, me)) /\
    let q' := passthrough x (map3 quantize x) in
    let s3 := set_commit_loss s2 (mse_none x q') in
    s = (if ri then set_indices s3 (decode_indices q') else s3) /\
    out = mkOutput q' em me (alpha s2 * em - alpha s2 * me)
            (slot_of_indices (indices s)) (mean3 (mse_none x q')).
Proof.
  unfold run. intros H.
  destruct (lazy_init self) as [s1 [[]|e]] eqn:Hinit; [|discriminate].
  simpl in H.
  destruct (dispatch pt s1 x) as [s2 [[em me]|e]] eqn:Hest; [|discriminate].
  inversion H; subst. exists s1, s2, em, me.
  split; [reflexivity|]. split; [assumption|]. cbv zeta. now split.
Qed.

Lemma run_inference (pt : R) (self : LFQ) (x : Tensor3) (ri : bool) :
  (1 <= d self)%Z ->
  run pt self x ri false =
    (fst (lazy_init self),
     Ok (mkOutput (map3 quantize x) 0 0 0 (SScalar 0) 0)).
Proof.
  intros Hd. unfold run. pose proof (lazy_init_ok self Hd) as H.
  destruct (lazy_init self) as [s1 r]. simpl in *. subst r. reflexivity.
Qed.

(** ** The quantization core *)

Lemma quantize_pm1 (v : R) : quantize v = 1 \/ quantize v = -1.
Proof. unfold quantize. destruct (Rlt_dec 0 v); auto. Qed.

Lemma quantize_pos_iff (v : R) : quantize v = 1 <-> 0 < v.
Proof.
  unfold quantize. destruct (Rlt_dec 0 v); split; intros H; try easy; lra.
Qed.

Lemma quantize_neg_iff (v : R) : quantize v = -1 <-> v <= 0.
Proof.
  unfold quantize. destruct (Rlt_dec 0 v); split; intros H; try easy; lra.
Qed.

Lemma zipWith_map_r {A B C : Type} (f : A -> B -> C) (g : A -> B)
  (l : list A) :
  zipWith f l (map g l) = map (fun a => f a (g a)) l.
Proof. induction l as [|a l IH]; simpl; [reflexivity | now rewrite IH]. Qed.

Lemma zip3_map3_r (f : R -> R -> R) (g : R -> R) (x : Tensor3) :
  zip3 f x (map3 g x) = map3 (fun v => f v (g v)) x.
Proof.
  unfold zip3, map3. rewrite zipWith_map_r. apply map_ext. intros m.
  rewrite zipWith_map_r. apply map_ext. intros r. apply zipWith_map_r.
Qed.

Lemma map3_ext (f g : R -> R) (x : Tensor3) :
  (forall v, f v = g v) -> map3 f x = map3 g x.
Proof.
  intros H. unfold map3. apply map_ext. intros m. apply map_ext. intros r.
  now apply map_ext.
Qed.

Lemma flatten3_map3 (f : R -> R) (x : Tensor3) :
  flatten3 (map3 f x) = map f (flatten3 x).
Proof.
  unfold flatten3, map3. now rewrite <- !concat_map.
Qed.

(** The forward value of the pass-through code is the hard code. *)
Lemma passthrough_quantize (x : Tensor3) :
  passthrough x (map3 quantize x) = map3 quantize x.
Proof.
  unfold passthrough. rewrite zip3_map3_r. apply map3_ext. intros v. ring.
Qed.

Lemma mse_none_quantize (x : Tensor3) :
  mse_none x (map3 quantize x) =
  map3 (fun v => (v - quantize v) * (v - quantize v)) x.
Proof. unfold mse_none. apply zip3_map3_r. Qed.




(** *** Line 177 in the dtype of the batch *)

Lemma prec_emin (dt : dtype) : (1 <= prec dt /\ prec dt < emin dt)%Z.
Proof. destruct dt; simpl; lia. Qed.

Lemma one_pos (dt : dtype) : (0 < one dt)%Z.
Proof.
  unfold one. apply Z.pow_pos_nonneg; [lia|].
  pose proof (prec_emin dt). lia.
Qed.

Lemma IZR_one_pos (dt : dtype) : 0 < IZR (one dt).
Proof. apply IZR_lt. apply one_pos. Qed.

Lemma float_value_scale (dt : dtype) (n : Z) :
  float_value dt (n * one dt) = IZR n.
Proof.
  unfold float_value. rewrite mult_IZR. field.
  pose proof (IZR_one_pos dt). lra.
Qed.

Lemma float_value_pos_iff (dt : dtype) (z : Z) :
  0 < float_value dt z <-> (0 < z)%Z.
Proof.
  unfold float_value. pose proof (IZR_one_pos dt) as H1. split.
  - intros H. apply lt_IZR.
    replace (IZR z) with (IZR z / IZR (one dt) * IZR (one dt))
      by (field; lra).
    apply Rmult_lt_0_compat; assumption.
  - intros H. apply IZR_lt in H. now apply Rdiv_lt_0_compat.
Qed.

(** The sign code in units stands for the sign code of the value. *)
Lemma where_fl_quantize (dt : dtype) (z : Z) :
  float_value dt (where_fl dt z) = quantize (float_value dt z).
Proof.
  unfold where_fl. destruct (0 <? z)%Z eqn:E.
  - apply Z.ltb_lt in E.
    rewrite (proj2 (quantize_pos_iff _) (proj2 (float_value_pos_iff dt z) E)).
    rewrite <- (Z.mul_1_l (one dt)). apply float_value_scale.
  - apply Z.ltb_ge in E.
    assert (Hn : float_value dt z <= 0).
    { destruct (Rle_or_lt (float_value dt z) 0) as [?|Hp]; [assumption|].
      apply float_value_pos_iff in Hp. lia. }
    rewrite (proj2 (quantize_neg_iff _) Hn).
    replace (- one dt)%Z with (-1 * one dt)%Z by lia.
    apply float_value_scale.
Qed.

Lemma in_range_units (dt : dtype) (z : Z) :
  in_range dt (float_value dt z) ->
  (Z.abs z <= 2 ^ (prec dt + emin dt))%Z.
Proof.
  unfold in_range, float_value. intros H.
  pose proof (IZR_one_pos dt) as H1. pose proof (prec_emin dt) as Hpe.
  rewrite Z.pow_add_r by lia. fold (one dt).
  apply le_IZR. rewrite abs_IZR, mult_IZR.
  unfold Rdiv in H. rewrite Rabs_mult, Rabs_inv in H.
  rewrite (Rabs_right (IZR (one dt))) in H by lra.
  apply (Rmult_le_compat_r (IZR (one dt))) in H; [|lra].
  replace (Rabs (IZR z) * / IZR (one dt) * IZR (one dt))
    with (Rabs (IZR z)) in H by (field; lra).
  exact H.
Qed.

(** Magnitudes up to 256 are in range for every dtype. *)
Lemma in_range_256 (dt : dtype) (v : R) : -256 <= v <= 256 -> in_range dt v.
Proof.
  intros Hv. unfold in_range.
  apply Rle_trans with 256; [apply Rabs_le; lra|].
  apply IZR_le. destruct dt; vm_compute; discriminate.
Qed.

(** Line 177 returns the sign code, exactly, on every value of the dtype
    whose magnitude is at most [2 ^ prec]. *)
Lemma passthrough_fl_exact (dt : dtype) (z : Z) :
  is_float dt z -> in_range dt (float_value dt z) ->
  passthrough_fl dt z = where_fl dt z.
Proof.
  intros Hf Hr. pose proof (prec_emin dt) as [Hp He].
  unfold passthrough_fl, where_fl, one.
  apply passthrough_units; try assumption.
  now apply in_range_units.
Qed.

(** Small integers are values of every dtype, in range. *)
Lemma small_int_is_float (dt : dtype) (n : Z) :
  (-256 <= n <= 256)%Z -> is_float dt (n * one dt).
Proof.
  intros Hn. unfold is_float, one.
  pose proof (prec_emin dt) as [Hp He].
  destruct (Z_le_gt_dec 0 n) as [H0 | H0].
  - apply round_int_multiple; try lia.
    assert ((2 ^ 8 <= 2 ^ prec dt)%Z)
      by (apply Z.pow_le_mono_r; destruct dt; simpl; lia).
    change (2 ^ 8)%Z with 256%Z in *. lia.
  - replace (n * 2 ^ emin dt)%Z with (- (- n * 2 ^ emin dt))%Z by ring.
    rewrite round_int_opp. f_equal.
    apply round_int_multiple; try lia.
    assert ((2 ^ 8 <= 2 ^ prec dt)%Z)
      by (apply Z.pow_le_mono_r; destruct dt; simpl; lia).
    change (2 ^ 8)%Z with 256%Z in *. lia.
Qed.

Lemma small_int_in_range (dt : dtype) (n : Z) :
  (-256 <= n <= 256)%Z -> in_range dt (float_value dt (n * one dt)).
Proof.
  intros Hn. rewrite float_value_scale. apply in_range_256.
  split; apply IZR_le; lia.
Qed.

(** X16. The hard code of line 157 is the input with the sign code
    applied to each coordinate on its own: [+1] or [-1], [+1] exactly
    when the coordinate is strictly positive, [0] mapping to [-1].  An
    inference call returns this code for every batch, and always
    returns.  A training call returns the pass-through value of line 177,
    computed in the dtype [dt] of the batch: it is this code when every
    coordinate has magnitude at most [2 ^ prec dt] ([2^24] in float32),
    the range on which line 177, with the rounding of the dtype, returns
    the sign code of every value of the dtype. *)
Theorem run_quantized_code :
  forall (pt : R) (self : LFQ) (x : Tensor3) (return_indices : bool),
    (forall v, (quantize v = 1 \/ quantize v = -1) /\
               (quantize v = 1 <-> 0 < v) /\
               (quantize v = -1 <-> v <= 0)) /\
    quantize 0 = -1 /\
    (forall s out,
       run pt self x return_indices false = (s, Ok out) ->
       out_q out = map (map (map quantize)) x) /\
    ((1 <= d self)%Z ->
       exists s out, run pt self x return_indices false = (s, Ok out)) /\
    (forall (dt : dtype) s out,
       Forall (in_range dt) (concat (concat x)) ->
       run pt self x return_indices true = (s, Ok out) ->
       out_q out = map (map (map quantize)) x) /\
    (forall (dt : dtype) (z : Z),
       is_float dt z -> in_range dt (float_value dt z) ->
       float_value dt (passthrough_fl dt z) = quantize (float_value dt z)).
Proof.
  intros pt self x ri. split; [|split; [|split; [|split; [|split]]]].
  - intros v. split; [apply quantize_pm1|].
    split; [apply quantize_pos_iff | apply quantize_neg_iff].
  - apply quantize_neg_iff. lra.
  - intros s out H. unfold run in H.
    destruct (lazy_init self) as [s1 [[]|e]]; simpl in H; inversion H;
      reflexivity.
  - intros Hd. eexists. eexists. now apply run_inference.
  - intros dt s out _ H. apply run_training_inv in H.
    destruct H as (s1 & s2 & em & me & _ & _ & _ & ->). simpl.
    apply passthrough_quantize.
  - intros dt z Hf Hr. rewrite (passthrough_fl_exact dt z Hf Hr).
    apply where_fl_quantize.
Qed.

Lemma run_quantized_code_witness :
  (exists s out,
     run 1 (LFQ_default 2) [[[1; -1]]] false true = (s, Ok out) /\
     out_q out = map (map (map quantize)) [[[1; -1]]]) /\
  float_value float32 (passthrough_fl float32 (3 * one float32)) =
    quantize (float_value float32 (3 * one float32)).
Proof.
  destruct (run_quantized_code 1 (LFQ_default 2) [[[1; -1]]] false)
    as (_ & _ & _ & _ & Htrain & Hfl).
  split.
  - eexists. eexists. split; [reflexivity|].
    eapply (Htrain float32); [|reflexivity].
    cbn [concat app].
    constructor; [apply in_range_256; lra|].
    constructor; [apply in_range_256; lra | constructor].
  - apply Hfl.
    + vm_compute. reflexivity.
    + rewrite float_value_scale. apply in_range_256. lra.
Defined.

(** C2.  On the training path the returned code is not always the sign
    code.  In float32, at the coordinate [16777220.0] (a float32 value,
    strictly positive, sign code [+1]) [1 - x] rounds to [-16777220] and
    line 177 returns [0.0]; at [16777218.0] it returns [2.0], and at
    [-16777220.0] it returns [0.0] too, while at [-1.0] it returns
    [-1.0].  The inference path returns the sign code at all of them. *)
Theorem passthrough_rounds_code_away :
  is_float float32 (16777220 * one float32) /\
  float_value float32 (16777220 * one float32) = 16777220 /\
  quantize 16777220 = 1 /\
  float_value float32 (passthrough_fl float32 (16777220 * one float32)) = 0 /\
  float_value float32 (passthrough_fl float32 (16777218 * one float32)) = 2 /\
  float_value float32 (passthrough_fl float32 (-16777220 * one float32)) = 0 /\
  float_value float32 (passthrough_fl float32 (-1 * one float32)) = -1 /\
  (exists s out,
     run 1 (LFQ_init 2 1 1 (5 / 1000) (1 / 10000000000) 1 false (0, 26)%Z)
       [[[16777220; -1]]] false false = (s, Ok out) /\
     out_q out = [[[1; -1]]]).
Proof.
  split; [vm_compute; reflexivity|].
  split; [apply float_value_scale|].
  split; [apply quantize_pos_iff; lra|].
  split; [|split; [|split; [|split]]].
  - replace (passthrough_fl float32 (16777220 * one float32))
      with (0 * one float32)%Z by (vm_compute; reflexivity).
    apply float_value_scale.
  - replace (passthrough_fl float32 (16777218 * one float32))
      with (2 * one float32)%Z by (vm_compute; reflexivity).
    apply float_value_scale.
  - replace (passthrough_fl float32 (-16777220 * one float32))
      with (0 * one float32)%Z by (vm_compute; reflexivity).
    apply float_value_scale.
  - replace (passthrough_fl float32 (-1 * one float32))
      with (-1 * one float32)%Z by (vm_compute; reflexivity).
    apply float_value_scale.
  - eexists. eexists. split; [reflexivity|].
    cbn [out_q]. unfold map3. cbn [map].
    rewrite (proj2 (quantize_pos_iff 16777220)) by lra.
    rewrite (proj2 (quantize_neg_iff (-1))) by lra.
    reflexivity.
Qed.

(** ** The divisibility precondition of the chunked estimators *)

Lemma check_split_indivisible (S : nat) (c : Z) :
  c <> 0%Z -> (Z.of_nat S mod c)%Z <> 0%Z ->
  check_split S c = Err AssertionError.
Proof.
  intros Hc Hm. unfold check_split.
  destruct (Z.eqb_spec c 0); [contradiction|].
  destruct (Z.eqb_spec (Z.of_nat S mod c) 0); [contradiction|reflexivity].
Qed.

(** C9 as the code has it. In X_BATCH and BLOCK modes a training call
    whose sequence length is not a multiple of the chunk size is detected:
    the assertion that opens the estimator fails and the call raises
    [AssertionError], before any entropy is computed and with the instance
    as the lazy initialisation left it. *)
Theorem run_rejects_indivisible_length :
  forall (pt : R) (self s1 : LFQ) (x : Tensor3) (return_indices : bool),
    lazy_init self = (s1, Ok tt) ->
    mode s1 = Some X_BATCH \/ mode s1 = Some BLOCK ->
    x_split self <> 0%Z ->
    (Z.of_nat (size1 x) mod x_split self)%Z <> 0%Z ->
    run pt self x return_indices true = (s1, Err AssertionError).
Proof.
  intros pt self s1 x ri Hinit Hmode Hc Hm.
  pose proof (lazy_init_frame _ _ _ Hinit) as (_ & _ & _ & _ & _ & Hx & _).
  unfold run. rewrite Hinit. simpl. unfold dispatch.
  destruct Hmode as [-> | ->].
  - unfold calc_entro_by_batch. rewrite Hx.
    now rewrite (check_split_indivisible _ _ Hc Hm).
  - unfold calc_entro_block. rewrite Hx.
    now rewrite (check_split_indivisible _ _ Hc Hm).
Qed.

Lemma run_rejects_indivisible_length_witness :
  run 1 (LFQ_init 2 1 1 1 1 2 false (0, 0)%Z)
      [[[1; 1]; [1; 1]; [1; 1]]] false true =
    (fst (init_books (LFQ_init 2 1 1 1 1 2 false (0, 0)%Z)),
     Err AssertionError).
Proof.
  apply run_rejects_indivisible_length.
  - reflexivity.
  - right. reflexivity.
  - simpl. lia.
  - vm_compute. discriminate.
Defined.

(** C9 as stated fails: the violation is detected and reported, in both
    modes (sequence length 3, chunk size 2). *)
Lemma indivisible_length_is_reported :
  snd (run 1 (LFQ_init 2 1 1 1 1 2 false (1, 5)%Z)
         [[[1; 1]; [1; 1]; [1; 1]]] false true) = Err AssertionError /\
  snd (run 1 (LFQ_init 2 1 1 1 1 2 false (0, 0)%Z)
         [[[1; 1]; [1; 1]; [1; 1]]] false true) = Err AssertionError.
Proof. split; reflexivity. Qed.

(** ** The indices attribute across calls *)

Lemma run_indices (pt : R) (self s : LFQ) (x : Tensor3) (ri tr : bool)
  (r : result Output) :
  run pt self x ri tr = (s, r) ->
  indices s =
    if tr && ri && is_ok r then Some (indices_of x) else indices self.
Proof.
  unfold run. intros H.
  destruct (lazy_init self) as [s1 r1] eqn:Hinit.
  pose proof (lazy_init_frame _ _ _ Hinit) as (Hi & _).
  destruct r1 as [[]|e].
  2:{ inversion H; subst. simpl. now rewrite !andb_false_r. }
  destruct tr; simpl in H.
  2:{ inversion H; subst. simpl. assumption. }
  destruct (dispatch pt s1 x) as [s2 r2] eqn:Hest.
  pose proof (dispatch_frame _ _ _ _ _ Hest) as (Hi2 & _).
  destruct r2 as [[em me]|e].
  2:{ inversion H; subst. simpl. rewrite andb_false_r. congruence. }
  inversion H; subst. destruct ri; simpl; [reflexivity | congruence].
Qed.

Lemma run_calls_indices (pt : R) (calls : list Call) :
  forall self s rs,
    run_calls pt self calls = (s, rs) ->
    indices s = stored_indices (indices self) calls rs.
Proof.
  induction calls as [|c calls IH]; intros self s rs H; simpl in H.
  - now inversion H.
  - destruct (run pt self (call_x c) (call_return_indices c) (call_training c))
      as [s1 r] eqn:Hrun.
    destruct (run_calls pt s1 calls) as [s2 rs'] eqn:Hrest.
    inversion H; subst. simpl.
    rewrite (IH _ _ _ Hrest). now rewrite (run_indices _ _ _ _ _ _ _ Hrun).
Qed.

Lemma stored_indices_not_requested (calls : list Call) :
  forall init rs,
    requested_indices calls = false -> stored_indices init calls rs = init.
Proof.
  induction calls as [|c calls IH]; intros init rs H; [reflexivity|].
  unfold requested_indices in H. simpl in H. apply orb_false_iff in H.
  destruct H as [Hc Hrest]. destruct rs as [|r rs]; [reflexivity|].
  simpl. rewrite Hc, andb_false_r. simpl. now apply IH.
Qed.

(** C10 as the code has it. [self.indices] is never cleared: a training
    call with the return-indices flag false returns the stored value and
    leaves it in place.  After any history of calls the stored value is
    the index tensor of the most recent training call that requested
    indices and returned, and the initial value when there is none; a
    request made in an inference call, or in a call that raised, stores
    nothing.  On an instance that starts with no indices, the slot is
    [None] when no earlier call requested them. *)
Theorem indices_slot_is_instance_state :
  forall (pt : R) (self s s' : LFQ) (calls : list Call)
         (rs : list (result Output)) (x : Tensor3) (out : Output),
    run_calls pt self calls = (s, rs) ->
    run pt s x false true = (s', Ok out) ->
    out_indices out = slot_of_indices (indices s) /\
    indices s' = indices s /\
    indices s = stored_indices (indices self) calls rs /\
    (indices self = None -> requested_indices calls = false ->
     out_indices out = SNone).
Proof.
  intros pt self s s' calls rs x out Hcalls Hrun.
  pose proof (run_indices _ _ _ _ _ _ _ Hrun) as Hs'. simpl in Hs'.
  pose proof (run_calls_indices _ _ _ _ _ Hcalls) as Hs.
  apply run_training_inv in Hrun.
  destruct Hrun as (s1 & s2 & em & me & _ & _ & _ & ->). simpl.
  rewrite Hs'. repeat split; try assumption.
  intros Hnone Hreq. rewrite Hs, Hnone.
  now rewrite stored_indices_not_requested.
Qed.

Lemma indices_slot_is_instance_state_witness :
  exists s s' rs out,
    run_calls 1 (LFQ_default 2) [mkCall [[[1; -1]]] true true] = (s, rs) /\
    run 1 s [[[1; -1]]] false true = (s', Ok out) /\
    out_indices out = SLong (indices_of [[[1; -1]]]).
Proof.
  eexists. eexists. eexists. eexists.
  split; [reflexivity|]. split; [reflexivity|].
  refine (proj1 (indices_slot_is_instance_state 1 (LFQ_default 2) _ _
                   [mkCall [[[1; -1]]] true true] _ [[[1; -1]]] _
                   eq_refl eq_refl)).
Defined.

(** ** Index decoding *)

Lemma quantize_bit (v : R) :
  bit_of_code (quantize v) = if Rlt_dec 0 v then 1%Z else 0%Z.
Proof.
  unfold bit_of_code, quantize. destruct (Rlt_dec 0 v).
  - replace ((1 + 1) / 2) with (IZR 1) by (simpl; lra). apply ZfloorZ.
  - replace ((-1 + 1) / 2) with (IZR 0) by (simpl; lra). apply ZfloorZ.
Qed.

Lemma quantize_bit_01 (v : R) :
  bit_of_code (quantize v) = 0%Z \/ bit_of_code (quantize v) = 1%Z.
Proof. rewrite quantize_bit. destruct (Rlt_dec 0 v); auto. Qed.

Lemma to_long_IZR (z : Z) : to_long (IZR z) = z.
Proof.
  unfold to_long. destruct (Rle_dec 0 (IZR z)).
  - apply ZfloorZ.
  - rewrite ZfloorNZ. lia.
Qed.

Lemma be_value_acc (bits : list Z) :
  forall acc,
    fold_left (fun a b => (2 * a + b)%Z) bits acc =
    (acc * 2 ^ Z.of_nat (length bits) + be_value bits)%Z.
Proof.
  unfold be_value. induction bits as [|b bits IH]; intros acc.
  - simpl. lia.
  - cbn [fold_left length]. rewrite IH, (IH (2 * 0 + b)%Z).
    rewrite Nat2Z.inj_succ, Z.pow_succ_r by lia. ring.
Qed.

Lemma be_value_cons (b : Z) (bits : list Z) :
  be_value (b :: bits) = (b * 2 ^ Z.of_nat (length bits) + be_value bits)%Z.
Proof.
  unfold be_value at 1. cbn [fold_left]. rewrite be_value_acc. ring.
Qed.

Lemma be_value_bound (bits : list Z) :
  Forall (fun b => b = 0 \/ b = 1)%Z bits ->
  (0 <= be_value bits < 2 ^ Z.of_nat (length bits))%Z.
Proof.
  induction 1 as [|b bits Hb _ IH].
  - unfold be_value. simpl. lia.
  - rewrite be_value_cons. cbn [length].
    rewrite Nat2Z.inj_succ, Z.pow_succ_r by lia.
    destruct Hb; subst; lia.
Qed.

Lemma arange_down_succ (n : nat) :
  arange_down (Z.of_nat (S n)) = Z.of_nat n :: arange_down (Z.of_nat n).
Proof.
  unfold arange_down, arange. rewrite !Nat2Z.id.
  rewrite seq_S, map_app, rev_app_distr. reflexivity.
Qed.

Lemma arange_down_In (n z : Z) : In z (arange_down n) <-> (0 <= z < n)%Z.
Proof. unfold arange_down. rewrite <- in_rev. apply arange_In. Qed.

Lemma powers_of_2_succ (n : nat) :
  powers_of_2 (S n) = 2 ^ n :: powers_of_2 n.
Proof.
  unfold powers_of_2. rewrite arange_down_succ. cbn [map].
  now rewrite Nat2Z.id.
Qed.

(** The weighted sum of the bits is their big-endian value. *)
Lemma dot_powers_of_2 (bits : list Z) :
  dot (map IZR bits) (powers_of_2 (length bits)) = IZR (be_value bits).
Proof.
  induction bits as [|b bits IH].
  - unfold be_value. reflexivity.
  - cbn [length map]. rewrite powers_of_2_succ, be_value_cons.
    unfold dot in *. cbn [zipWith vsum fold_right].
    fold (vsum (zipWith Rmult (map IZR bits) (powers_of_2 (length bits)))).
    rewrite IH, plus_IZR, mult_IZR. f_equal. f_equal.
    rewrite <- pow_IZR. reflexivity.
Qed.

Lemma shiftr_low_bits (b r len sh : Z) :
  (0 <= sh < len)%Z ->
  (Z.shiftr (b * 2 ^ len + r) sh mod 2 = Z.shiftr r sh mod 2)%Z.
Proof.
  intros Hsh. rewrite !Z.shiftr_div_pow2 by lia.
  replace (b * 2 ^ len + r)%Z
    with (r + (b * 2 ^ (len - sh - 1) * 2) * 2 ^ sh)%Z.
  - rewrite Z.div_add by (apply Z.pow_nonzero; lia).
    rewrite Z.mod_add by lia. reflexivity.
  - replace len with ((len - sh - 1) + 1 + sh)%Z at 2 by lia.
    rewrite !Z.pow_add_r by lia. ring.
Qed.

Lemma shiftr_top_bit (b r len : Z) :
  (0 <= len)%Z -> (0 <= r < 2 ^ len)%Z -> (b = 0 \/ b = 1)%Z ->
  (Z.shiftr (b * 2 ^ len + r) len mod 2 = b)%Z.
Proof.
  intros Hlen Hr Hb. rewrite Z.shiftr_div_pow2 by lia.
  rewrite Z.add_comm, Z.div_add by (apply Z.pow_nonzero; lia).
  rewrite Z.div_small by assumption. destruct Hb; subst; reflexivity.
Qed.

(** Re-expanding the big-endian value of a bit pattern gives the pattern
    back, with 0 written as -1. *)
Lemma codeword_be_value (bits : list Z) :
  Forall (fun b => b = 0 \/ b = 1)%Z bits ->
  codeword (Z.of_nat (length bits)) (be_value bits) =
  map (fun b => if (b =? 0)%Z then (-1)%Z else 1%Z) bits.
Proof.
  induction 1 as [|b bits Hb Hbits IH]; [reflexivity|].
  unfold codeword in *. cbn [length]. rewrite arange_down_succ.
  cbn [map]. rewrite be_value_cons. f_equal.
  - unfold pm_bit.
    rewrite shiftr_top_bit; [| lia | now apply be_value_bound | assumption].
    destruct Hb; subst; reflexivity.
  - rewrite <- IH. apply map_ext_in. intros sh Hsh.
    apply arange_down_In in Hsh. unfold pm_bit.
    now rewrite shiftr_low_bits.
Qed.

Lemma quantize_of_bit (v : R) :
  IZR (if (bit_of_code (quantize v) =? 0)%Z then (-1)%Z else 1%Z) =
  quantize v.
Proof.
  rewrite quantize_bit. unfold quantize. now destruct (Rlt_dec 0 v).
Qed.

Lemma codeword_index_of_row (row : Vec) :
  map IZR (codeword (Z.of_nat (length row)) (index_of_row row)) =
  map quantize row.
Proof.
  unfold index_of_row.
  replace (length row)
    with (length (map bit_of_code (map quantize row)))
    by now rewrite !length_map.
  rewrite codeword_be_value.
  - rewrite !map_map. apply map_ext. intros v. apply quantize_of_bit.
  - apply Forall_forall. intros b Hin. rewrite map_map in Hin.
    apply in_map_iff in Hin. destruct Hin as [v [<- _]].
    apply quantize_bit_01.
Qed.

Lemma shape3_row_length (B S n : nat) (x : Tensor3) :
  shape3 B S n x ->
  forall m row, In m x -> In row m -> length row = n /\ size2 x = n.
Proof.
  intros [_ Hx] m row Hm Hrow. rewrite Forall_forall in Hx.
  pose proof (Hx m Hm) as [Hlen Hrows]. rewrite Forall_forall in Hrows.
  split; [now apply Hrows|].
  destruct x as [|m0 x']; [contradiction|].
  pose proof (Hx m0 (or_introl eq_refl)) as [Hlen0 Hrows0].
  unfold size2. cbn [hd].
  destruct m0 as [|r0 m0'].
  - simpl in Hlen0. subst S. destruct m; [contradiction | discriminate].
  - cbn [hd]. rewrite Forall_forall in Hrows0. apply Hrows0. now left.
Qed.

Lemma size2_map3 (f : R -> R) (x : Tensor3) : size2 (map3 f x) = size2 x.
Proof.
  unfold size2, map3. destruct x as [|[|r0 m0] x']; try reflexivity.
  cbn [map hd]. apply length_map.
Qed.

Lemma map3_map3 (f g : R -> R) (x : Tensor3) :
  map3 g (map3 f x) = map3 (fun v => g (f v)) x.
Proof.
  unfold map3. rewrite map_map. apply map_ext. intros m.
  rewrite map_map. apply map_ext. intros r. apply map_map.
Qed.

(** What [decode_indices] computes on a hard code. *)
Lemma decode_indices_quantize (B S n : nat) (x : Tensor3) :
  shape3 B S n x ->
  decode_indices (map3 quantize x) = map (map index_of_row) x.
Proof.
  intros Hx. unfold decode_indices. cbv zeta.
  rewrite map3_map3, size2_map3. unfold map3. rewrite map_map.
  apply map_ext_in. intros m Hm. rewrite map_map.
  apply map_ext_in. intros row Hrow.
  destruct (shape3_row_length _ _ _ _ Hx m row Hm Hrow) as [Hlen Hsz].
  rewrite Hsz. unfold index_of_row. rewrite <- to_long_IZR. f_equal.
  rewrite <- dot_powers_of_2, !length_map, Hlen, !map_map. reflexivity.
Qed.

(** *** Lines 181-188 in floating point *)

Lemma bit_fl_where (dt : dtype) (z : Z) :
  bit_fl dt (where_fl dt z) = if (0 <? z)%Z then 1%Z else 0%Z.
Proof.
  unfold where_fl.
  destruct (0 <? z)%Z; destruct dt; vm_compute; reflexivity.
Qed.

(** Up to 24 bits every partial sum of the float32 product is an integer
    below [2^24], so no addition rounds. *)
Lemma decode_sum_exact (bits : list Z) :
  forall acc,
    Forall (fun b => b = 0 \/ b = 1)%Z bits ->
    (0 <= acc)%Z -> (acc + 2 ^ Z.of_nat (length bits) <= 2 ^ 24)%Z ->
    fold_left (fun a t => round_int 24 (a + t))
      (zipWith Z.mul bits
         (map (Z.pow 2) (arange_down (Z.of_nat (length bits))))) acc =
    (acc + be_value bits)%Z.
Proof.
  induction bits as [|b bits IH]; intros acc Hb Hacc Hmax.
  - unfold be_value. simpl. lia.
  - inversion Hb as [|b' bits' Hb0 Hbits]; subst.
    cbn [length] in *. rewrite arange_down_succ.
    cbn [map zipWith fold_left].
    rewrite Nat2Z.inj_succ, Z.pow_succ_r in Hmax by lia.
    assert (Hp : (0 < 2 ^ Z.of_nat (length bits))%Z)
      by (apply Z.pow_pos_nonneg; lia).
    rewrite round_int_small by (rewrite Z.abs_eq; destruct Hb0; subst; lia).
    rewrite IH; try assumption.
    + rewrite be_value_cons. ring.
    + destruct Hb0; subst; lia.
    + destruct Hb0; subst; lia.
Qed.

Lemma sign_bit_float_value (dt : dtype) (z : Z) :
  bit_of_code (quantize (float_value dt z)) =
  if (0 <? z)%Z then 1%Z else 0%Z.
Proof.
  rewrite quantize_bit.
  destruct (Rlt_dec 0 (float_value dt z)) as [Hp | Hn].
  - apply float_value_pos_iff in Hp. apply Z.ltb_lt in Hp. now rewrite Hp.
  - destruct (0 <? z)%Z eqn:E; [|reflexivity].
    apply Z.ltb_lt in E. apply (float_value_pos_iff dt) in E. contradiction.
Qed.

(** Lines 177-188, with the rounding of the dtype and of the float32
    product, on a position of at most 24 coordinates of magnitude at most
    [2 ^ prec]: the decoded index is the big-endian value of the sign
    bits. *)
Lemma decode_fl_exact (dt : dtype) (zs : list Z) :
  (length zs <= 24)%nat ->
  Forall (is_float dt) zs ->
  Forall (fun z => in_range dt (float_value dt z)) zs ->
  decode_fl dt (map (passthrough_fl dt) zs) =
  index_of_row (map (float_value dt) zs).
Proof.
  intros Hlen Hf Hr.
  assert (Hpass : map (passthrough_fl dt) zs = map (where_fl dt) zs).
  { apply map_ext_in. intros z Hz. rewrite Forall_forall in Hf, Hr.
    apply passthrough_fl_exact; [now apply Hf | now apply Hr]. }
  rewrite Hpass. unfold decode_fl, index_of_row. cbv zeta.
  rewrite !map_map, length_map.
  rewrite (map_ext (fun z => bit_fl dt (where_fl dt z))
             (fun z => if (0 <? z)%Z then 1%Z else 0%Z))
    by (intros z; apply bit_fl_where).
  rewrite (map_ext (fun z => bit_of_code (quantize (float_value dt z)))
             (fun z => if (0 <? z)%Z then 1%Z else 0%Z))
    by (intros z; apply sign_bit_float_value).
  set (bits := map (fun z => if (0 <? z)%Z then 1%Z else 0%Z) zs).
  replace (length zs) with (length bits) by (unfold bits; apply length_map).
  rewrite decode_sum_exact; [lia | | lia |].
  - apply Forall_forall. intros b Hb. unfold bits in Hb.
    apply in_map_iff in Hb. destruct Hb as [z [<- _]].
    destruct (0 <? z)%Z; auto.
  - assert (Hl : (length bits <= 24)%nat)
      by (unfold bits; now rewrite length_map).
    assert ((2 ^ Z.of_nat (length bits) <= 2 ^ 24)%Z)
      by (apply Z.pow_le_mono_r; lia).
    lia.
Qed.

(** The result of a float32 addition is never [2^25 - 1]. *)
Lemma round_int_not_odd (z : Z) : round_int 24 z <> 33554431%Z.
Proof.
  unfold round_int. destruct (Z.abs z <? 2 ^ 24)%Z eqn:E.
  - apply Z.ltb_lt in E. change (2 ^ 24)%Z with 16777216%Z in E. lia.
  - apply Z.ltb_ge in E. cbv zeta.
    assert (Ha : (0 < Z.abs z)%Z)
      by (change (2 ^ 24)%Z with 16777216%Z in E; lia).
    assert (HL : (24 <= Z.log2 (Z.abs z))%Z)
      by (apply Z.log2_le_pow2; assumption).
    set (e := (Z.log2 (Z.abs z) - (24 - 1))%Z).
    assert (He : (2 ^ e = 2 * 2 ^ (e - 1))%Z).
    { rewrite <- Z.pow_succ_r by (unfold e; lia). f_equal; lia. }
    rewrite He.
    match goal with
    | |- (Z.sgn z * (?Q * _))%Z <> _ => generalize Q
    end.
    intros q' H.
    assert (Hev : Z.even 33554431 = true).
    { rewrite <- H.
      replace (Z.sgn z * (q' * (2 * 2 ^ (e - 1))))%Z
        with (2 * (Z.sgn z * q' * 2 ^ (e - 1)))%Z by ring.
      apply Z.even_mul. }
    discriminate.
Qed.

(** X19.  When a training call is asked for indices,
    line 181 reads the pass-through value of line 177 (the variable [q]
    has been reassigned), and line 188 weighs the bits in float32.  For a
    batch of dtype [dt] with at most 24 coordinates per position, each of
    magnitude at most [2 ^ prec dt], the pass-through value is the hard
    code and the index of each position is the big-endian unsigned
    integer of the bits of its hard code ([+1] is bit 1, [-1] is bit 0);
    expanding that index back into bits, most significant first and 0
    written as -1, gives the quantized pattern of the position again.
    On such a position the two lines, evaluated with the rounding of the
    dtype and of the float32 product, return that same integer.  The mode
    plays no part, so this holds in VANILLA and X_BATCH (and in BLOCK). *)
Theorem decoded_indices_roundtrip :
  forall (pt : R) (self s : LFQ) (x : Tensor3) (out : Output) (B S n : nat)
         (dt : dtype),
    shape3 B S n x -> (n <= 24)%nat ->
    Forall (in_range dt) (concat (concat x)) ->
    run pt self x true true = (s, Ok out) ->
    out_q out = map (map (map quantize)) x /\
    out_indices out = SLong (map (map index_of_row) x) /\
    indices s = Some (map (map index_of_row) x) /\
    (forall m row, In m x -> In row m ->
       (0 <= index_of_row row < 2 ^ Z.of_nat n)%Z /\
       map IZR (codeword (Z.of_nat n) (index_of_row row)) =
         map quantize row) /\
    (forall zs : list Z,
       (length zs <= 24)%nat -> Forall (is_float dt) zs ->
       Forall (fun z => in_range dt (float_value dt z)) zs ->
       decode_fl dt (map (passthrough_fl dt) zs) =
       index_of_row (map (float_value dt) zs)).
Proof.
  intros pt self s x out B S n dt Hx Hn Hrange Hrun.
  apply run_training_inv in Hrun.
  destruct Hrun as (s1 & s2 & em & me & _ & _ & Hs & Hout).
  cbv zeta in Hs. rewrite passthrough_quantize in *.
  assert (Hi : indices s = Some (map (map index_of_row) x)).
  { subst s. simpl. now rewrite (decode_indices_quantize B S n). }
  split; [subst out; reflexivity|].
  split; [subst out; simpl; now rewrite Hi|].
  split; [exact Hi|]. split; [|intros zs; apply decode_fl_exact].
  intros m row Hm Hrow.
  destruct (shape3_row_length _ _ _ _ Hx m row Hm Hrow) as [Hlen _].
  subst n. split; [|apply codeword_index_of_row].
  unfold index_of_row.
  replace (length row)
    with (length (map bit_of_code (map quantize row)))
    by now rewrite !length_map.
  apply be_value_bound. apply Forall_forall. intros b Hin.
  rewrite map_map in Hin. apply in_map_iff in Hin.
  destruct Hin as [v [<- _]]. apply quantize_bit_01.
Qed.

Lemma index_of_row_pos_neg : index_of_row [1; -1] = 2%Z.
Proof.
  unfold index_of_row. cbn [map]. rewrite !quantize_bit.
  destruct (Rlt_dec 0 1); [|lra]. destruct (Rlt_dec 0 (-1)); [lra|].
  reflexivity.
Qed.

Lemma index_of_row_neg_pos : index_of_row [-1; 1] = 1%Z.
Proof.
  unfold index_of_row. cbn [map]. rewrite !quantize_bit.
  destruct (Rlt_dec 0 1); [|lra]. destruct (Rlt_dec 0 (-1)); [lra|].
  reflexivity.
Qed.

Lemma shape3_one_row (row : Vec) : shape3 1 1 (length row) [[row]].
Proof. repeat constructor. Qed.

Lemma range_pos_neg (dt : dtype) :
  Forall (in_range dt) (concat (concat [[[1; -1]]])).
Proof.
  cbn [concat app].
  constructor; [apply in_range_256; lra|].
  constructor; [apply in_range_256; lra | constructor].
Qed.

Lemma decoded_indices_roundtrip_witness :
  (exists s out,
     run 1 (LFQ_default 2) [[[1; -1]]] true true = (s, Ok out) /\
     out_indices out = SLong [[2%Z]]) /\
  decode_fl float32
    (map (passthrough_fl float32) [1 * one float32; -1 * one float32])%Z =
  index_of_row
    (map (float_value float32) [1 * one float32; -1 * one float32])%Z.
Proof.
  destruct (decoded_indices_roundtrip 1 (LFQ_default 2) _ [[[1; -1]]] _
              1 1 2 float32 (shape3_one_row [1; -1]) ltac:(lia)
              (range_pos_neg float32) eq_refl) as (_ & H & _ & _ & Hfl).
  split.
  - eexists. eexists. split; [reflexivity|].
    transitivity (SLong (map (map index_of_row) [[[1; -1]]])); [exact H|].
    cbn [map]. now rewrite index_of_row_pos_neg.
  - apply Hfl.
    + simpl. lia.
    + repeat (constructor; [apply small_int_is_float; lia|]). constructor.
    + repeat (constructor; [apply small_int_in_range; lia|]). constructor.
Defined.

Lemma indices_of_pos_neg : indices_of [[[1; -1]]] = [[2%Z]].
Proof.
  unfold indices_of.
  rewrite passthrough_quantize, (decode_indices_quantize 1 1 2)
    by apply (shape3_one_row [1; -1]).
  cbn [map]. now rewrite index_of_row_pos_neg.
Qed.

Lemma indices_of_neg_pos : indices_of [[[-1; 1]]] = [[1%Z]].
Proof.
  unfold indices_of.
  rewrite passthrough_quantize, (decode_indices_quantize 1 1 2)
    by apply (shape3_one_row [-1; 1]).
  cbn [map]. now rewrite index_of_row_neg_pos.
Qed.

(** C10 as stated fails.  After an inference call that requested indices,
    a training call without the flag returns [None], not an index tensor
    of the requesting call; and when a training call that requested
    indices (index 2) is followed by an inference call that requested
    them on another input (index 1), the slot still holds the tensor of
    the former, not of the most recent requesting call. *)
Lemma request_in_inference_stores_nothing :
  (exists s rs s' out,
     run_calls 1 (LFQ_default 2) [mkCall [[[1; -1]]] true false] = (s, rs) /\
     requested_indices [mkCall [[[1; -1]]] true false] = true /\
     run 1 s [[[1; -1]]] false true = (s', Ok out) /\
     out_indices out = SNone) /\
  (exists s rs s' out,
     run_calls 1 (LFQ_default 2)
       [mkCall [[[1; -1]]] true true; mkCall [[[-1; 1]]] true false]
       = (s, rs) /\
     run 1 s [[[1; -1]]] false true = (s', Ok out) /\
     out_indices out = SLong [[2%Z]] /\
     indices_of [[[-1; 1]]] = [[1%Z]]).
Proof.
  split.
  - eexists. eexists. eexists. eexists.
    split; [reflexivity|]. split; [reflexivity|]. split; reflexivity.
  - eexists. eexists. eexists. eexists.
    split; [reflexivity|]. split; [reflexivity|].
    split; [|apply indices_of_neg_pos].
    transitivity (SLong (indices_of [[[1; -1]]])); [reflexivity|].
    now rewrite indices_of_pos_neg.
Qed.

(** ** Commit loss *)

Lemma vsum_map_const {A : Type} (c : R) (l : list A) (g : A -> R) :
  Forall (fun v => g v = c) l -> vsum (map g l) = INR (length l) * c.
Proof.
  induction 1 as [|v l Hv _ IH].
  - simpl. ring.
  - cbn [map length]. rewrite S_INR. unfold vsum in *. cbn [fold_right].
    rewrite IH, Hv. ring.
Qed.

Lemma vmean_map_const {A : Type} (c : R) (l : list A) (g : A -> R) :
  l <> [] -> Forall (fun v => g v = c) l -> vmean (map g l) = c.
Proof.
  intros Hne Hall. unfold vmean. rewrite (vsum_map_const c) by assumption.
  rewrite length_map. field.
  destruct l; [contradiction|]. apply not_0_INR. discriminate.
Qed.

(** C6. A training call returns as commit loss the mean squared error
    between the input and its hard code: the stored [self.commit_loss]
    holds, coordinate by coordinate, the squared difference between the
    input coordinate and its sign code, and the returned scalar is the
    sum of these squares over every coordinate of every position of every
    sample, divided by the number of coordinates (for a batch with at
    least one coordinate).  When every coordinate of such a batch is
    [0.5], the returned code is all [+1] and the commit loss is exactly
    [0.25]. *)
Theorem commit_loss_is_mse :
  forall (pt : R) (self s : LFQ) (x : Tensor3) (return_indices : bool)
         (out : Output),
    run pt self x return_indices true = (s, Ok out) ->
    let code := fun v : R => if Rlt_dec 0 v then 1 else -1 in
    let sq := fun v : R => (v - code v) * (v - code v) in
    let coords := concat (concat x) in
    commit_loss s = Some (map (map (map sq)) x) /\
    (coords <> [] ->
       out_commit_loss out =
         fold_right Rplus 0 (map sq coords) / INR (length coords)) /\
    (Forall (fun v => v = 1 / 2) coords -> coords <> [] ->
       Forall (fun q => q = 1) (concat (concat (out_q out))) /\
       out_commit_loss out = 1 / 4).
Proof.
  intros pt self s x ri out Hrun code sq coords.
  apply run_training_inv in Hrun.
  destruct Hrun as (s1 & s2 & em & me & _ & _ & Hs & Hout).
  cbv zeta in Hs. rewrite passthrough_quantize, mse_none_quantize in *.
  assert (Hloss : out_commit_loss out =
                  fold_right Rplus 0 (map sq coords) / INR (length coords)).
  { subst out. cbn [out_commit_loss]. unfold mean3, vmean, vsum.
    rewrite flatten3_map3, length_map. reflexivity. }
  split; [subst s; destruct ri; reflexivity|].
  split; [intros _; exact Hloss|].
  intros Hhalf Hne. split.
  - subst out. cbn [out_q]. fold (flatten3 (map3 quantize x)).
    rewrite flatten3_map3.
    apply Forall_forall. intros q Hin. apply in_map_iff in Hin.
    destruct Hin as [v [<- Hv]]. rewrite Forall_forall in Hhalf.
    rewrite (Hhalf v Hv). apply quantize_pos_iff. lra.
  - rewrite Hloss.
    pose proof (vmean_map_const (1 / 4) coords sq Hne) as Hm.
    unfold vmean, vsum in Hm. rewrite length_map in Hm. apply Hm.
    apply Forall_forall. intros v Hv. rewrite Forall_forall in Hhalf.
    rewrite (Hhalf v Hv). unfold sq, code.
    destruct (Rlt_dec 0 (1 / 2)) as [_ | Hn]; [lra | exfalso; apply Hn; lra].
Qed.

Lemma commit_loss_is_mse_witness :
  exists s out,
    run 1 (LFQ_default 2) [[[1 / 2; 1 / 2]]] false true = (s, Ok out) /\
    out_commit_loss out = 1 / 4.
Proof.
  eexists. eexists. split; [reflexivity|].
  destruct (commit_loss_is_mse 1 (LFQ_default 2) _ [[[1 / 2; 1 / 2]]] false _
              eq_refl) as (_ & _ & H).
  apply H.
  - repeat constructor.
  - discriminate.
Defined.

(** ** Sums over lists and vectors *)

Lemma vsum_cons (a : R) (l : Vec) : vsum (a :: l) = a + vsum l.
Proof. reflexivity. Qed.

Lemma vsum_app (a b : Vec) : vsum (a ++ b) = vsum a + vsum b.
Proof.
  unfold vsum. induction a as [|v a IH]; simpl; [ring | rewrite IH; ring].
Qed.

Lemma vsum_concat (l : list Vec) : vsum (concat l) = vsum (map vsum l).
Proof.
  induction l as [|v l IH]; [reflexivity|].
  cbn [concat map]. rewrite vsum_app, IH. reflexivity.
Qed.

Lemma vsum_map_plus {A : Type} (f g : A -> R) (l : list A) :
  vsum (map (fun a => f a + g a) l) = vsum (map f l) + vsum (map g l).
Proof.
  unfold vsum. induction l as [|a l IH]; simpl; [ring | rewrite IH; ring].
Qed.

Lemma vsum_map_div {A : Type} (f : A -> R) (c : R) (l : list A) :
  vsum (map (fun a => f a / c) l) = vsum (map f l) / c.
Proof.
  unfold vsum, Rdiv.
  induction l as [|a l IH]; simpl; [ring | rewrite IH; ring].
Qed.

Lemma vsum_vdiv (v : Vec) (c : R) : vsum (vdiv v c) = vsum v / c.
Proof.
  unfold vdiv. rewrite <- (map_id v) at 2. apply (vsum_map_div (fun a => a)).
Qed.

Lemma vsum_map_ext_in {A : Type} (f g : A -> R) (l : list A) :
  (forall a, In a l -> f a = g a) -> vsum (map f l) = vsum (map g l).
Proof. intros H. f_equal. now apply map_ext_in. Qed.

Lemma vsum_zeros (n : nat) : vsum (zeros n) = 0.
Proof.
  unfold vsum, zeros. induction n as [|n IH]; simpl; [reflexivity|].
  rewrite IH. ring.
Qed.

Lemma vsum_const {A : Type} (c : R) (l : list A) :
  vsum (map (fun _ => c) l) = INR (length l) * c.
Proof.
  unfold vsum. induction l as [|a l IH]; [simpl; ring|].
  cbn [map fold_right length]. rewrite IH, S_INR. ring.
Qed.

Lemma zipWith_map_map {A B C D : Type} (f : B -> C -> D) (g : A -> B)
  (h : A -> C) (l : list A) :
  zipWith f (map g l) (map h l) = map (fun a => f (g a) (h a)) l.
Proof. induction l as [|a l IH]; simpl; [reflexivity | now rewrite IH]. Qed.

Lemma zipWith_length {A B C : Type} (f : A -> B -> C) (a : list A) :
  forall b, length a = length b -> length (zipWith f a b) = length a.
Proof.
  induction a as [|u a IH]; intros [|v b] H; simpl in *; try easy.
  now rewrite IH by lia.
Qed.

Lemma vadd_length (a b : Vec) :
  length a = length b -> length (vadd a b) = length a.
Proof. apply zipWith_length. Qed.

Lemma vsum_vadd (a : Vec) :
  forall b, length a = length b -> vsum (vadd a b) = vsum a + vsum b.
Proof.
  unfold vsum, vadd.
  induction a as [|u a IH]; intros [|v b] H; simpl in *; try easy; [ring|].
  rewrite IH by lia. ring.
Qed.

Lemma nth_vadd (a : Vec) :
  forall b j, length a = length b ->
    nth j (vadd a b) 0 = nth j a 0 + nth j b 0.
Proof.
  unfold vadd.
  induction a as [|u a IH]; intros [|v b] j H; simpl in *; try easy.
  - destruct j; ring.
  - destruct j; [reflexivity|]. apply IH. lia.
Qed.

Lemma nth_vdiv (v : Vec) (c : R) (j : nat) :
  nth j (vdiv v c) 0 = nth j v 0 / c.
Proof.
  unfold vdiv. replace 0 with (0 / c) at 1 by (unfold Rdiv; ring).
  apply (map_nth (fun a => a / c)).
Qed.

Lemma vdiv_length (v : Vec) (c : R) : length (vdiv v c) = length v.
Proof. apply length_map. Qed.

Lemma zeros_length (n : nat) : length (zeros n) = n.
Proof. apply repeat_length. Qed.

Lemma nth_zeros (n j : nat) : nth j (zeros n) 0 = 0.
Proof.
  unfold zeros. revert j. induction n as [|n IH]; intros [|j]; simpl; auto.
Qed.

Lemma zeros_map {A : Type} (l : list A) :
  zeros (length l) = map (fun _ => 0) l.
Proof. unfold zeros. induction l; simpl; congruence. Qed.

(** Column sums of a list of rows of one length. *)
Lemma colsum_spec (K : nat) (rows : Mat) :
  Forall (fun r => length r = K) rows ->
  length (colsum K rows) = K /\
  vsum (colsum K rows) = vsum (map vsum rows) /\
  forall j, nth j (colsum K rows) 0 = vsum (map (fun r => nth j r 0) rows).
Proof.
  induction 1 as [|r rows Hr _ (IHl & IHs & IHn)].
  - simpl. split; [apply zeros_length|].
    split; [apply vsum_zeros | apply nth_zeros].
  - cbn [colsum fold_right map]. fold (colsum K rows).
    split; [rewrite vadd_length; congruence|].
    split.
    + rewrite vsum_vadd by congruence. rewrite IHs. reflexivity.
    + intros j. rewrite nth_vadd by congruence. rewrite IHn. reflexivity.
Qed.

(** Folding vector additions. *)
Lemma fold_vadd_spec (K : nat) (v : nat -> Vec) (l : list nat) :
  (forall i, In i l -> length (v i) = K) ->
  forall V0, length V0 = K ->
    let V := fold_left (fun V i => vadd V (v i)) l V0 in
    length V = K /\
    vsum V = vsum V0 + vsum (map (fun i => vsum (v i)) l) /\
    forall j, nth j V 0 = nth j V0 0 + vsum (map (fun i => nth j (v i) 0) l).
Proof.
  induction l as [|i l IH]; intros Hl V0 HV0; cbv zeta.
  - simpl. split; [assumption|]. split; [ring | intros; ring].
  - cbn [fold_left map].
    assert (Hi : length (v i) = K) by (apply Hl; now left).
    destruct (IH (fun i' H' => Hl i' (or_intror H')) (vadd V0 (v i)))
      as (IHl & IHs & IHn).
    { rewrite vadd_length; congruence. }
    split; [exact IHl|]. split.
    + rewrite IHs, vsum_vadd, vsum_cons by congruence. ring.
    + intros j. rewrite IHn, nth_vadd, vsum_cons by congruence. ring.
Qed.

(** Adding one vector to every row of a matrix of equal rows. *)
Lemma fold_broadcast (v : nat -> Vec) (B : nat) (l : list nat) :
  forall V0,
    fold_left (fun M i => map (fun row => vadd row (v i)) M) l (repeat V0 B) =
    repeat (fold_left (fun V i => vadd V (v i)) l V0) B.
Proof.
  induction l as [|i l IH]; intros V0; [reflexivity|].
  cbn [fold_left]. rewrite map_repeat. apply IH.
Qed.

Lemma fold_left_pair {A B I : Type} (f1 : A -> I -> A) (f2 : B -> I -> B)
  (l : list I) :
  forall a b,
    fold_left (fun acc i => (f1 (fst acc) i, f2 (snd acc) i)) l (a, b) =
    (fold_left f1 l a, fold_left f2 l b).
Proof. induction l as [|i l IH]; intros a b; [reflexivity | apply IH]. Qed.

Lemma fold_left_ext_in {A I : Type} (f g : A -> I -> A) (l : list I) :
  (forall a i, In i l -> f a i = g a i) ->
  forall a, fold_left f l a = fold_left g l a.
Proof.
  induction l as [|i l IH]; intros H a; [reflexivity|].
  cbn [fold_left]. rewrite H by now left.
  apply IH. intros a' i' Hi'. apply H. now right.
Qed.

(** ** Chunks of the sequence dimension *)

Lemma firstn_plus {A : Type} (a b : nat) :
  forall l : list A, firstn (a + b) l = firstn a l ++ firstn b (skipn a l).
Proof.
  induction a as [|a IH]; intros l; [reflexivity|].
  destruct l as [|u l]; simpl.
  - now rewrite firstn_nil.
  - now rewrite IH.
Qed.

Lemma slice_chunk {A : Type} (i c : nat) (l : list A) :
  slice (i * c) ((i + 1) * c) l = firstn c (skipn (i * c) l).
Proof. unfold slice. f_equal. lia. Qed.

Lemma slice_length {A : Type} (i c N : nat) (l : list A) :
  length l = (N * c)%nat -> (i < N)%nat ->
  length (slice (i * c) ((i + 1) * c) l) = c.
Proof.
  intros Hl Hi. rewrite slice_chunk, length_firstn, length_skipn. nia.
Qed.

(** A prefix of [j + 1] chunks is the prefix of [j] chunks followed by
    chunk [j]. *)
Lemma prefix_step (f : Vec -> R) (j c : nat) (m : Mat) :
  vsum (map f (firstn (j * c) m)) +
  vsum (map f (slice (j * c) ((j + 1) * c) m)) =
  vsum (map f (firstn (S j * c) m)).
Proof.
  rewrite slice_chunk. replace (S j * c)%nat with (j * c + c)%nat by lia.
  now rewrite firstn_plus, map_app, vsum_app.
Qed.

(** Summing a per-position quantity chunk by chunk, over all samples,
    gives its sum over all positions. *)
Lemma chunk_sum (f : Vec -> R) (x : Tensor3) (c N : nat) :
  Forall (fun m => length m = (N * c)%nat) x ->
  vsum (map (fun i =>
         vsum (map (fun m => vsum (map f (slice (i * c) ((i + 1) * c) m))) x))
       (seq 0 N)) =
  vsum (map (fun m => vsum (map f m)) x).
Proof.
  intros Hx.
  assert (Hj : forall j,
    vsum (map (fun i =>
           vsum (map (fun m => vsum (map f (slice (i * c) ((i + 1) * c) m))) x))
         (seq 0 j)) =
    vsum (map (fun m => vsum (map f (firstn (j * c) m))) x)).
  { induction j as [|j IH].
    - change (0 = vsum (map (fun _ : Mat => 0) x)).
      rewrite vsum_const. ring.
    - rewrite seq_S, map_app, vsum_app, IH. cbn [map Nat.add].
      rewrite vsum_cons. change (vsum []) with 0. rewrite Rplus_0_r.
      rewrite <- vsum_map_plus. apply vsum_map_ext_in. intros m _.
      apply prefix_step. }
  rewrite Hj. apply vsum_map_ext_in. intros m Hm.
  rewrite Forall_forall in Hx. rewrite <- (Hx m Hm). now rewrite firstn_all.
Qed.

(** ** Softmax and the per-position quantities *)

Lemma expsum_nonneg (l : Vec) : 0 <= expsum l.
Proof.
  unfold expsum. induction l as [|v l IH]; [simpl; lra|].
  cbn [map]. rewrite vsum_cons. pose proof (exp_pos v). lra.
Qed.

Lemma expsum_pos (l : Vec) : l <> [] -> 0 < expsum l.
Proof.
  destruct l as [|v l]; [easy|]. intros _. unfold expsum. cbn [map].
  rewrite vsum_cons. pose proof (exp_pos v).
  pose proof (expsum_nonneg l) as Hl. unfold expsum in Hl. lra.
Qed.

Lemma softmax_length (l : Vec) : length (softmax l) = length l.
Proof. apply length_map. Qed.

(** A softmax row is a probability distribution. *)
Lemma softmax_sum (l : Vec) : l <> [] -> vsum (softmax l) = 1.
Proof.
  intros Hl. unfold softmax. rewrite (vsum_map_div exp (expsum l) l).
  fold (expsum l). pose proof (expsum_pos l Hl). field. lra.
Qed.

Lemma vecmat_length (row : Vec) (book : Mat) :
  length (vecmat row book) = ncols book.
Proof. unfold vecmat. now rewrite length_map, length_seq. Qed.

Lemma row_probs_length (temp : R) (book : Mat) (row : Vec) :
  length (row_probs temp book row) = ncols book.
Proof.
  unfold row_probs, row_logits.
  now rewrite softmax_length, length_map, vecmat_length.
Qed.

Lemma row_probs_sum (temp : R) (book : Mat) (row : Vec) :
  (0 < ncols book)%nat -> vsum (row_probs temp book row) = 1.
Proof.
  intros HK. unfold row_probs. apply softmax_sum. intros Hnil.
  apply (f_equal (@length R)) in Hnil. unfold row_logits in Hnil.
  rewrite length_map, vecmat_length in Hnil. simpl in Hnil. lia.
Qed.

Lemma map2_map2 {A B C : Type} (f : A -> B) (g : B -> C)
  (x : list (list A)) :
  map (map g) (map (map f) x) = map (map (fun a => g (f a))) x.
Proof.
  rewrite map_map. apply map_ext. intros m. apply map_map.
Qed.

Lemma scaled_logits_rows (temp : R) (book : Mat) (x : Tensor3) :
  scaled_logits temp book x = map (map (row_logits temp book)) x.
Proof.
  unfold scaled_logits, map3, matmul3. rewrite map2_map2. reflexivity.
Qed.

Lemma probs_of_rows (temp : R) (book : Mat) (x : Tensor3) :
  probs_of (scaled_logits temp book x) = map (map (row_probs temp book)) x.
Proof.
  rewrite scaled_logits_rows. unfold probs_of. rewrite map2_map2.
  reflexivity.
Qed.

Lemma entropy_of_rows (temp e : R) (book : Mat) (x : Tensor3) :
  entropy_of (probs_of (scaled_logits temp book x))
    (log_probs_of e (scaled_logits temp book x)) =
  map (map (row_H temp e book)) x.
Proof.
  rewrite probs_of_rows, scaled_logits_rows.
  unfold log_probs_of, map3, entropy_of. rewrite !map2_map2.
  rewrite zipWith_map_map. apply map_ext. intros m.
  now rewrite zipWith_map_map.
Qed.

Lemma length_concat_const {A B : Type} (f : A -> list B) (L : nat)
  (l : list A) :
  (forall a, In a l -> length (f a) = L) ->
  length (concat (map f l)) = (length l * L)%nat.
Proof.
  induction l as [|a l IH]; intros H; [reflexivity|].
  cbn [map concat length]. rewrite length_app, H by now left.
  rewrite IH; [lia|]. intros a' Ha'. apply H. now right.
Qed.

(** The mean over samples and positions of the distributions of selected
    positions: its length, its mass and its entries. *)
Lemma mean01_rows (P : Vec -> Vec) (K L B : nat) (sel : Mat -> Mat)
  (x : Tensor3) :
  (forall row, length (P row) = K) ->
  (forall row, vsum (P row) = 1) ->
  length x = B -> (0 < B)%nat -> (0 < L)%nat ->
  (forall m, In m x -> length (sel m) = L) ->
  let mp := mean01 (map (fun m => map P (sel m)) x) in
  length mp = K /\
  vsum mp = 1 /\
  forall j,
    nth j mp 0 =
    vsum (map (fun m => vsum (map (fun row => nth j (P row) 0) (sel m))) x)
    / INR (B * L).
Proof.
  intros HP Hmass HB HB0 HL Hsel mp.
  assert (Hsize : size2 (map (fun m => map P (sel m)) x) = K).
  { unfold size2. destruct x as [|m0 x']; [simpl in HB; lia|].
    cbn [map hd]. pose proof (Hsel m0 (or_introl eq_refl)) as Hm0.
    destruct (sel m0) as [|r0 rest]; [simpl in Hm0; lia|]. apply HP. }
  assert (Hlen :
    length (concat (map (fun m => map P (sel m)) x)) = (B * L)%nat).
  { rewrite (length_concat_const _ L), HB; [reflexivity|].
    intros m Hm. rewrite length_map. now apply Hsel. }
  assert (Hrows : Forall (fun r => length r = K)
                    (concat (map (fun m => map P (sel m)) x))).
  { apply Forall_forall. intros r Hr. apply in_concat in Hr.
    destruct Hr as [rows [Hrows Hr]]. apply in_map_iff in Hrows.
    destruct Hrows as [m [<- _]]. apply in_map_iff in Hr.
    destruct Hr as [row [<- _]]. apply HP. }
  destruct (colsum_spec K _ Hrows) as (Cl & Cs & Cn).
  unfold mp, mean01. rewrite Hsize, Hlen.
  split; [now rewrite vdiv_length|]. split.
  - rewrite vsum_vdiv, Cs.
    rewrite (vsum_map_ext_in vsum (fun _ => 1)).
    + rewrite vsum_const, Hlen. field. apply not_0_INR. nia.
    + intros r Hr. apply in_concat in Hr.
      destruct Hr as [rows [Hrows' Hr]]. apply in_map_iff in Hrows'.
      destruct Hrows' as [m [<- _]]. apply in_map_iff in Hr.
      destruct Hr as [row [<- _]]. apply Hmass.
  - intros j. rewrite nth_vdiv, Cn. f_equal.
    rewrite concat_map, vsum_concat, !map_map. apply vsum_map_ext_in.
    intros m _. now rewrite map_map.
Qed.

(** ** Shapes *)

Lemma shape3_size0 (x : Tensor3) (B S n : nat) :
  shape3 B S n x -> size0 x = B.
Proof. intros Hshape. exact (proj1 Hshape). Qed.

Lemma shape3_rows (x : Tensor3) (B S n : nat) :
  shape3 B S n x -> Forall (fun m => length m = S) x.
Proof.
  intros [_ Hx]. eapply Forall_impl; [|exact Hx].
  intros m Hm. exact (proj1 Hm).
Qed.

Lemma shape3_size1 (x : Tensor3) (B S n : nat) :
  shape3 B S n x -> (0 < B)%nat -> size1 x = S.
Proof.
  intros Hshape HB. pose proof (shape3_rows x B S n Hshape) as Hr.
  pose proof (shape3_size0 x B S n Hshape) as H0.
  unfold size1, size0 in *. destruct x as [|m0 x']; [simpl in H0; lia|].
  cbn [hd]. now inversion Hr.
Qed.

(** A positive chunk size that divides the length splits it exactly. *)
Lemma split_exact (S : nat) (xs : Z) :
  (0 < S)%nat -> (0 < xs)%Z -> (Z.of_nat S mod xs = 0)%Z ->
  S = (Z.to_nat (Z.of_nat S / xs) * Z.to_nat xs)%nat /\
  (0 < Z.to_nat xs)%nat /\ (0 < Z.to_nat (Z.of_nat S / xs))%nat.
Proof.
  intros HS Hxs Hdiv.
  assert (Hex : (Z.of_nat S = xs * (Z.of_nat S / xs))%Z)
    by (apply Z.div_exact; lia).
  assert (Hq : (0 < Z.of_nat S / xs)%Z) by nia.
  split; [|lia].
  rewrite <- Z2Nat.inj_mul by lia.
  rewrite Z.mul_comm, <- Hex. now rewrite Nat2Z.id.
Qed.

(** ** The chunked-batch estimator in closed form *)

Section ChunkedBatch.

Variables (self : LFQ) (book : Mat) (x : Tensor3) (B S n : nat).
Hypothesis Hshape : shape3 B S n x.
Hypothesis HB : (0 < B)%nat.
Hypothesis HS : (0 < S)%nat.
Hypothesis Hsplit : (0 < x_split self)%Z.
Hypothesis Hdiv : (Z.of_nat S mod x_split self = 0)%Z.
Hypothesis Hcols : ncols book = Z.to_nat (k self).
Hypothesis HK : (0 < ncols book)%nat.

Let c := Z.to_nat (x_split self).
Let N := Z.to_nat (Z.of_nat S / x_split self).
Let P := row_probs (temperature self) book.
Let H := row_H (temperature self) (eps self) book.

Lemma split_rows : Forall (fun m => length m = (N * c)%nat) x.
Proof.
  destruct (split_exact S (x_split self) HS Hsplit Hdiv) as [HSN _].
  fold N c in HSN. rewrite <- HSN. exact (shape3_rows x B S n Hshape).
Qed.

Lemma num_splits_INR : IZR (Z.of_nat S / x_split self) = INR N.
Proof.
  unfold N. rewrite INR_IZR_INZ, Z2Nat.id; [reflexivity|].
  apply Z.div_pos; lia.
Qed.

Lemma by_batch_step_rows (acc : Vec * Mat) (i : nat) :
  by_batch_step self book x acc i =
  (vadd (fst acc)
     (map (fun m => vsum (map H (slice (i * c) ((i + 1) * c) m)) / INR S) x),
   map (fun row =>
          vadd row
            (mean01 (map (fun m => map P (slice (i * c) ((i + 1) * c) m)) x)))
     (snd acc)).
Proof.
  unfold by_batch_step.
  rewrite entropy_of_rows, probs_of_rows, (shape3_size1 x B S n Hshape HB).
  unfold chunk. rewrite !map_map. reflexivity.
Qed.

Lemma entro_fold (j : nat) :
  fold_left
    (fun a i =>
       vadd a
         (map (fun m => vsum (map H (slice (i * c) ((i + 1) * c) m)) / INR S)
            x))
    (seq 0 j) (zeros B) =
  map (fun m => vsum (map H (firstn (j * c) m)) / INR S) x.
Proof.
  induction j as [|j IH].
  - cbn [seq fold_left]. rewrite <- (shape3_size0 x B S n Hshape). unfold size0.
    rewrite zeros_map. apply map_ext. intros m.
    change (vsum (map H (firstn (0 * c) m))) with 0. unfold Rdiv. ring.
  - rewrite seq_S, fold_left_app, IH. cbn [fold_left Nat.add].
    unfold vadd. rewrite zipWith_map_map. apply map_ext. intros m.
    rewrite <- prefix_step. unfold Rdiv. ring.
Qed.

Lemma chunk_mean_spec (i : nat) :
  In i (seq 0 N) ->
  let mp := mean01 (map (fun m => map P (slice (i * c) ((i + 1) * c) m)) x) in
  length mp = ncols book /\
  vsum mp = 1 /\
  forall j,
    nth j mp 0 =
    vsum (map (fun m =>
            vsum (map (fun row => nth j (P row) 0)
                    (slice (i * c) ((i + 1) * c) m))) x)
    / INR (B * c).
Proof.
  intros Hi. apply in_seq in Hi.
  destruct (split_exact S (x_split self) HS Hsplit Hdiv) as (HSN & Hc & HN).
  fold N c in HSN, Hc, HN.
  apply mean01_rows; try assumption.
  - intros row. apply row_probs_length.
  - intros row. now apply row_probs_sum.
  - exact (shape3_size0 x B S n Hshape).
  - intros m Hm. apply (slice_length i c N); [|lia].
    pose proof split_rows as Hr. rewrite Forall_forall in Hr. now apply Hr.
Qed.

Lemma whole_mean_spec :
  let mp := mean01 (map (map P) x) in
  length mp = ncols book /\
  vsum mp = 1 /\
  forall j,
    nth j mp 0 =
    vsum (map (fun m => vsum (map (fun row => nth j (P row) 0) m)) x)
    / INR (B * S).
Proof.
  apply (mean01_rows P (ncols book) S B (fun m => m) x); try assumption.
  - intros row. apply row_probs_length.
  - intros row. now apply row_probs_sum.
  - exact (shape3_size0 x B S n Hshape).
  - pose proof (shape3_rows x B S n Hshape) as Hr.
    rewrite Forall_forall in Hr. exact Hr.
Qed.

(** The accumulated mean-probability vector, divided by the number of
    chunks, is the mean over all samples and positions. *)
Lemma mean_probs_fold :
  vdiv
    (fold_left
       (fun V i =>
          vadd V
            (mean01
               (map (fun m => map P (slice (i * c) ((i + 1) * c) m)) x)))
       (seq 0 N) (zeros (ncols book)))
    (INR N) =
  mean01 (map (map P) x).
Proof.
  destruct (split_exact S (x_split self) HS Hsplit Hdiv) as (HSN & Hc & HN).
  fold N c in HSN, Hc, HN.
  destruct whole_mean_spec as (Wl & _ & Wn).
  destruct (fold_vadd_spec (ncols book)
              (fun i => mean01
                 (map (fun m => map P (slice (i * c) ((i + 1) * c) m)) x))
              (seq 0 N)
              (fun i Hi => proj1 (chunk_mean_spec i Hi))
              (zeros (ncols book)) (zeros_length _)) as (Fl & _ & Fn).
  apply (nth_ext _ _ 0 0).
  - rewrite vdiv_length, Fl, Wl. reflexivity.
  - intros j _. rewrite nth_vdiv, Fn, Wn, nth_zeros, Rplus_0_l.
    rewrite (vsum_map_ext_in _
      (fun i => vsum (map (fun m =>
                  vsum (map (fun row => nth j (P row) 0)
                          (slice (i * c) ((i + 1) * c) m))) x)
                / INR (B * c))).
    2:{ intros i Hi. apply (proj2 (proj2 (chunk_mean_spec i Hi))). }
    rewrite vsum_map_div, chunk_sum by exact split_rows.
    assert (HR : INR S = INR N * INR c)
      by (rewrite <- mult_INR; f_equal; exact HSN).
    rewrite !mult_INR, HR. field.
    repeat split; apply not_0_INR; lia.
Qed.

Lemma by_batch_totals_closed :
  by_batch_totals self book x =
  (map (fun m => vsum (map H m) / INR S) x,
   repeat (mean01 (map (map P) x)) B).
Proof.
  unfold by_batch_totals. cbv zeta.
  rewrite (fold_left_ext_in _
    (fun acc i =>
       (vadd (fst acc)
          (map (fun m => vsum (map H (slice (i * c) ((i + 1) * c) m)) / INR S)
             x),
        map (fun row =>
               vadd row
                 (mean01
                    (map (fun m => map P (slice (i * c) ((i + 1) * c) m)) x)))
          (snd acc))))
    by (intros; apply by_batch_step_rows).
  rewrite (fold_left_pair
    (fun a i =>
       vadd a
         (map (fun m => vsum (map H (slice (i * c) ((i + 1) * c) m)) / INR S)
            x))
    (fun M i =>
       map (fun row =>
              vadd row
                (mean01
                   (map (fun m => map P (slice (i * c) ((i + 1) * c) m)) x)))
         M)).
  cbn [fst snd].
  rewrite (shape3_size0 x B S n Hshape), (shape3_size1 x B S n Hshape HB).
  fold N. f_equal.
  - rewrite entro_fold. apply map_ext_in. intros m Hm.
    pose proof split_rows as Hr. rewrite Forall_forall in Hr.
    rewrite <- (Hr m Hm). now rewrite firstn_all.
  - unfold zeros2. rewrite <- Hcols, fold_broadcast, map_repeat.
    rewrite num_splits_INR. now rewrite mean_probs_fold.
Qed.

End ChunkedBatch.

Lemma check_split_ok (S : nat) (c : Z) :
  (0 < c)%Z -> (Z.of_nat S mod c = 0)%Z -> check_split S c = Ok tt.
Proof.
  intros Hc Hm. unfold check_split.
  destruct (Z.eqb_spec c 0); [lia|]. now rewrite Hm.
Qed.

Lemma vmean_repeat (f : Vec -> R) (v : Vec) (B : nat) :
  (0 < B)%nat -> vmean (map f (repeat v B)) = f v.
Proof.
  intros HB. apply vmean_map_const.
  - destruct B; [lia | discriminate].
  - apply Forall_forall. intros u Hu. apply repeat_spec in Hu. now subst.
Qed.

Lemma mass_check_unit (mp : Vec) (B : nat) :
  (0 < B)%nat -> vsum mp = 1 -> mass_check (repeat mp B) = Ok tt.
Proof.
  intros HB Hm. destruct B; [lia|]. cbn [repeat mass_check]. rewrite Hm.
  destruct (Rlt_dec (Rabs 1) (11 / 10)) as [_|Hn]; [reflexivity|].
  exfalso. apply Hn. rewrite Rabs_R1. lra.
Qed.

(** What [calc_entro_by_batch] returns and stores on a well-shaped batch
    whose length the chunk size divides. *)
Lemma calc_entro_by_batch_closed (self : LFQ) (book : Mat) (x : Tensor3)
  (B S n : nat) :
  shape3 B S n x -> (0 < B)%nat -> (0 < S)%nat ->
  (0 < x_split self)%Z -> (Z.of_nat S mod x_split self = 0)%Z ->
  book_t self = Some book ->
  ncols book = Z.to_nat (k self) -> (0 < ncols book)%nat ->
  let P := row_probs (temperature self) book in
  let H := row_H (temperature self) (eps self) book in
  calc_entro_by_batch self x =
  (set_mean_probs self (repeat (mean01 (map (map P) x)) B),
   Ok (vmean (map (fun m => vsum (map H m) / INR S) x),
       row_entropy (eps self) (mean01 (map (map P) x)))).
Proof.
  intros Hshape HB HS Hsplit Hdiv Hbook Hcols HK P H. subst P H.
  unfold calc_entro_by_batch.
  rewrite (shape3_size1 x B S n Hshape HB).
  rewrite (check_split_ok _ _ Hsplit Hdiv), Hbook.
  assert (Htot := by_batch_totals_closed self book x B S n
                    Hshape HB HS Hsplit Hdiv Hcols HK).
  assert (Hmass :
    vsum (mean01 (map (map (row_probs (temperature self) book)) x)) = 1).
  { apply (whole_mean_spec self book x B S n Hshape HB HS HK). }
  cbv zeta.
  assert (Hgoal :
    (let acc := by_batch_totals self book x in
     let mp := snd acc in
     let self1 := set_mean_probs self mp in
     let finish :=
       (self1, Ok (vmean (fst acc), vmean (map (row_entropy (eps self)) mp))) in
     if debug self then
       match mass_check mp with
       | Err e => (self1, Err e)
       | Ok _ => finish
       end
     else finish) =
    (set_mean_probs self
       (repeat (mean01 (map (map (row_probs (temperature self) book)) x)) B),
     Ok (vmean
           (map (fun m =>
                   vsum (map (row_H (temperature self) (eps self) book) m)
                   / INR S) x),
         row_entropy (eps self)
           (mean01 (map (map (row_probs (temperature self) book)) x))))).
  { cbv zeta. rewrite Htot. cbn [fst snd].
    rewrite (mass_check_unit _ B HB Hmass).
    rewrite (vmean_repeat (row_entropy (eps self)) _ B HB).
    now destruct (debug self). }
  destruct (seq 0 (Z.to_nat (Z.of_nat S / x_split self))); exact Hgoal.
Qed.

(** The direct estimator in closed form. *)
Lemma book_entropy_closed (pt : R) (book : Mat) (e : R) (x : Tensor3)
  (B S n : nat) :
  shape3 B S n x -> (0 < B)%nat -> (0 < S)%nat ->
  book_entropy pt x book e =
  (vmean (map (fun m => vsum (map (row_H pt e book) m) / INR S) x),
   row_entropy e (mean01 (map (map (row_probs pt book)) x))).
Proof.
  intros Hshape HB HS. unfold book_entropy. cbv zeta.
  rewrite entropy_of_rows, probs_of_rows. f_equal.
  unfold vmean. rewrite vsum_concat, map_map, length_map.
  rewrite (length_concat_const _ S).
  2:{ intros m Hm. rewrite length_map.
      pose proof (shape3_rows x B S n Hshape) as Hr.
      rewrite Forall_forall in Hr. now apply Hr. }
  rewrite (vsum_map_div (fun m => vsum (map (row_H pt e book) m))).
  destruct Hshape as [HBl _]. unfold Tensor3, Mat, Vec in *.
  rewrite HBl, mult_INR. field.
  split; apply not_0_INR; lia.
Qed.

Lemma full_book_t_ncols (dd kk : Z) :
  (1 <= dd)%Z -> ncols (full_book_t dd kk) = Z.to_nat kk.
Proof.
  intros Hd. unfold ncols, full_book_t, transpose.
  destruct (Z.to_nat dd) as [|n'] eqn:Hn; [lia|].
  cbn [seq map hd]. unfold make_book.
  now rewrite !length_map, arange_length.
Qed.

(** ** The block estimator: mass of the accumulated probabilities *)






Section BlockMass.

Variables (self : LFQ) (x : Tensor3) (B S n nr : nat) (size : Z).
Hypothesis Hshape : shape3 B S n x.
Hypothesis HB : (0 < B)%nat.
Hypothesis HS : (0 < S)%nat.
Hypothesis Hsplit : (0 < x_split self)%Z.
Hypothesis Hdiv : (Z.of_nat S mod x_split self = 0)%Z.
Hypothesis Hd : (1 <= d self)%Z.
Hypothesis Hsize : (0 < size)%Z.

Let c := Z.to_nat (x_split self).
Let N := Z.to_nat (Z.of_nat S / x_split self).
Let K := Z.to_nat size.




End BlockMass.

(** ** The debug probability-mass check *)



Lemma make_ranges_length (size num : Z) :
  length (make_ranges size num) = Z.to_nat num.
Proof. unfold make_ranges. now rewrite length_map, arange_length. Qed.




(** * Further properties of the code *)

(** ** What a call leaves untouched *)

Lemma init_books_config (self : LFQ) :
  config (fst (init_books self)) = config self.
Proof.
  unfold init_books.
  destruct (d self <? fst (mode_delimiter self))%Z; [reflexivity|].
  destruct (d self <? snd (mode_delimiter self))%Z; [reflexivity|].
  destruct (Z.min 21 (d self) - 1 <? 0)%Z; reflexivity.
Qed.

Lemma lazy_init_config (self : LFQ) :
  config (fst (lazy_init self)) = config self.
Proof.
  unfold lazy_init. destruct (mode self); [reflexivity|].
  apply init_books_config.
Qed.

Lemma calc_entro_by_batch_keeps (self : LFQ) (x : Tensor3) :
  config (fst (calc_entro_by_batch self x)) = config self /\
  books (fst (calc_entro_by_batch self x)) = books self.
Proof.
  unfold calc_entro_by_batch.
  destruct (check_split (size1 x) (x_split self)); [|now split].
  destruct (book_t self),
    (seq 0 (Z.to_nat (Z.of_nat (size1 x) / x_split self)));
    cbv zeta; try destruct (debug self); try destruct (mass_check _);
    now split.
Qed.

Lemma dispatch_keeps (pt : R) (self : LFQ) (x : Tensor3) :
  config (fst (dispatch pt self x)) = config self /\
  books (fst (dispatch pt self x)) = books self.
Proof.
  unfold dispatch. destruct (mode self) as [[| |]|].
  - unfold calc_entro_vanilla. destruct (book_t self); now split.
  - apply calc_entro_by_batch_keeps.
  - destruct (calc_entro_block self x) as [s r] eqn:H.
    apply calc_entro_block_frame in H. subst. now split.
  - now split.
Qed.

Lemma run_keeps (pt : R) (self : LFQ) (x : Tensor3) (ri tr : bool) :
  config (fst (run pt self x ri tr)) = config self /\
  books (fst (run pt self x ri tr)) = books (fst (lazy_init self)).
Proof.
  unfold run. pose proof (lazy_init_config self) as Hc.
  destruct (lazy_init self) as [s1 [[]|e]]; cbn [fst] in *; [|now split].
  destruct tr; cbn [negb]; [|now split].
  pose proof (dispatch_keeps pt s1 x) as [Hdc Hdb].
  destruct (dispatch pt s1 x) as [s2 [[em me]|e]]; cbn [fst] in *.
  - destruct ri; split; cbn; try congruence;
      unfold config, books in *; cbn; congruence.
  - split; congruence.
Qed.

Lemma lazy_init_settled (self : LFQ) :
  lazy_init (fst (lazy_init self)) = (fst (lazy_init self), Ok tt).
Proof.
  destruct (lazy_init self) as [s r] eqn:H.
  apply lazy_init_frame in H. cbn [fst].
  destruct H as (_ & _ & _ & _ & _ & _ & _ & Hm).
  unfold lazy_init. destruct (mode s); [reflexivity | contradiction].
Qed.

Lemma lazy_init_books (s1 s2 : LFQ) :
  books s1 = books s2 -> mode s2 <> None ->
  books (fst (lazy_init s1)) = books s2.
Proof.
  intros Hb Hm. unfold lazy_init.
  assert (Hmode : mode s1 = mode s2) by (unfold books in Hb; congruence).
  rewrite Hmode. destruct (mode s2); [exact Hb | contradiction].
Qed.

(** X1. No call ever changes what the constructor fixed: bit-width,
    codebook size, thresholds, temperature, eps, debug flag, weights and
    chunk size are the same after any sequence of calls, whether the calls
    return or raise. *)
Theorem run_calls_keep_config :
  forall (pt : R) (calls : list Call) (self : LFQ),
    config (fst (run_calls pt self calls)) = config self.
Proof.
  intros pt calls. induction calls as [|c calls IH]; intros self.
  - reflexivity.
  - cbn [run_calls].
    pose proof (run_keeps pt self (call_x c) (call_return_indices c)
                  (call_training c)) as [Hc _].
    destruct (run pt self (call_x c) (call_return_indices c) (call_training c))
      as [s1 r].
    specialize (IH s1). destruct (run_calls pt s1 calls) as [s2 rs].
    cbn [fst] in *. congruence.
Qed.

(** X2. The mode and the codebook state are written once: after any
    non-empty sequence of calls they are what the lazy initialisation of
    the first call made them (on an instance whose mode is already set,
    what they were), however many calls follow and whatever their inputs
    and flags. *)
Theorem mode_is_selected_once :
  forall (pt : R) (calls : list Call) (self : LFQ),
    calls <> [] ->
    books (fst (run_calls pt self calls)) = books (fst (lazy_init self)) /\
    mode (fst (run_calls pt self calls)) <> None.
Proof.
  intros pt calls.
  assert (Hgen : forall calls self s0,
            books self = books s0 -> mode s0 <> None ->
            books (fst (run_calls pt self calls)) = books s0).
  { clear calls. induction calls as [|c calls IH]; intros self s0 Hb Hm.
    - exact Hb.
    - cbn [run_calls].
      pose proof (run_keeps pt self (call_x c) (call_return_indices c)
                    (call_training c)) as [_ Hk].
      destruct (run pt self (call_x c) (call_return_indices c)
                  (call_training c)) as [s1 r].
      pose proof (IH s1 s0) as IH1.
      destruct (run_calls pt s1 calls) as [s2 rs]. cbn [fst] in *.
      apply IH1; [|exact Hm]. rewrite Hk. now apply lazy_init_books. }
  intros self Hne. destruct calls as [|c calls]; [contradiction|].
  assert (Hm : mode (fst (lazy_init self)) <> None).
  { destruct (lazy_init self) as [s r] eqn:H. apply lazy_init_frame in H.
    cbn [fst]. apply H. }
  assert (Hb : books (fst (run_calls pt self (c :: calls))) =
               books (fst (lazy_init self))).
  { cbn [run_calls].
    pose proof (run_keeps pt self (call_x c) (call_return_indices c)
                  (call_training c)) as [_ Hk].
    destruct (run pt self (call_x c) (call_return_indices c)
                (call_training c)) as [s1 r].
    pose proof (Hgen calls s1 (fst (lazy_init self))) as H1.
    destruct (run_calls pt s1 calls) as [s2 rs]. cbn [fst] in *.
    now apply H1. }
  split; [exact Hb|].
  unfold books in Hb. congruence.
Qed.

Lemma mode_is_selected_once_witness :
  books (fst (run_calls 1 (LFQ_default 2)
                [mkCall [[[1; -1]]] true true; mkCall [[[1; -1]]] false false]))
  = books (fst (lazy_init (LFQ_default 2))).
Proof.
  apply (mode_is_selected_once 1
           [mkCall [[[1; -1]]] true true; mkCall [[[1; -1]]] false false]
           (LFQ_default 2)).
  discriminate.
Defined.

(** ** Errors of the initialisation and of the dispatch *)

(** X3. For a non-negative bit-width, [init_books] raises only in one
    case: [d = 0] with both thresholds at or below 0, where BLOCK is
    selected and the exponent [min(21, d) - 1] is negative; it then raises
    [TypeError] after the mode has been set to BLOCK and before any range
    is stored.  The failed initialisation is not retried: a later
    inference call on that instance returns. *)
Theorem init_books_error :
  forall (pt : R) (self : LFQ),
    (0 <= d self)%Z ->
    (snd (init_books self) = Err TypeError <->
     (d self = 0 /\ fst (mode_delimiter self) <= 0 /\
      snd (mode_delimiter self) <= 0)%Z) /\
    (snd (init_books self) <> Err TypeError ->
     snd (init_books self) = Ok tt) /\
    (snd (init_books self) = Err TypeError ->
     mode (fst (init_books self)) = Some BLOCK /\
     subbook_ranges (fst (init_books self)) = subbook_ranges self /\
     forall x ri,
       run pt (fst (init_books self)) x ri false =
       (fst (init_books self),
        Ok (mkOutput (map3 quantize x) 0 0 0 (SScalar 0) 0))).
Proof.
  intros pt self Hd. unfold init_books.
  destruct (Z.ltb_spec (d self) (fst (mode_delimiter self))) as [H0|H0].
  { cbn [fst snd]. split; [|split].
    - split; [discriminate | intros (Hz & Ht & _); lia].
    - reflexivity.
    - discriminate. }
  destruct (Z.ltb_spec (d self) (snd (mode_delimiter self))) as [H1|H1].
  { cbn [fst snd]. split; [|split].
    - split; [discriminate | intros (Hz & _ & Ht); lia].
    - reflexivity.
    - discriminate. }
  destruct (Z.ltb_spec (Z.min 21 (d self) - 1) 0) as [H2|H2].
  - cbn [fst snd]. split; [|split].
    + split; [intros _; lia | reflexivity].
    + intros H. now contradiction H.
    + intros _. split; [reflexivity|]. split; [reflexivity|].
      intros x ri. reflexivity.
  - cbn [fst snd]. split; [|split].
    + split; [discriminate | intros (Hz & _); lia].
    + reflexivity.
    + discriminate.
Qed.

Lemma init_books_error_witness :
  snd (init_books (LFQ_init 0 1 1 1 1 16 false (0, 0)%Z)) = Err TypeError /\
  run 1 (fst (init_books (LFQ_init 0 1 1 1 1 16 false (0, 0)%Z)))
    [[[]]] true false =
  (fst (init_books (LFQ_init 0 1 1 1 1 16 false (0, 0)%Z)),
   Ok (mkOutput (map3 quantize [[[]]]) 0 0 0 (SScalar 0) 0)).
Proof.
  destruct (init_books_error 1 (LFQ_init 0 1 1 1 1 16 false (0, 0)%Z))
    as (Hiff & _ & Hlater).
  - simpl. lia.
  - assert (He : snd (init_books (LFQ_init 0 1 1 1 1 16 false (0, 0)%Z))
                 = Err TypeError)
      by (apply Hiff; simpl; lia).
    split; [exact He|]. apply (Hlater He).
Defined.

Lemma check_split_zero (S : nat) : check_split S 0 = Err ZeroDivisionError.
Proof. reflexivity. Qed.

(** X4. With the chunk size 0, every training call in X_BATCH or BLOCK
    mode raises [ZeroDivisionError], whatever the batch, before any
    entropy is computed and with the instance as the lazy initialisation
    left it. *)
Theorem run_zero_chunk_size :
  forall (pt : R) (self s1 : LFQ) (x : Tensor3) (return_indices : bool),
    lazy_init self = (s1, Ok tt) ->
    mode s1 = Some X_BATCH \/ mode s1 = Some BLOCK ->
    x_split self = 0%Z ->
    run pt self x return_indices true = (s1, Err ZeroDivisionError).
Proof.
  intros pt self s1 x ri Hinit Hmode Hc.
  pose proof (lazy_init_frame _ _ _ Hinit) as (_ & _ & _ & _ & _ & Hx & _).
  unfold run. rewrite Hinit. simpl. unfold dispatch.
  destruct Hmode as [-> | ->].
  - unfold calc_entro_by_batch. now rewrite Hx, Hc, check_split_zero.
  - unfold calc_entro_block. now rewrite Hx, Hc, check_split_zero.
Qed.

Lemma run_zero_chunk_size_witness :
  run 1 (LFQ_init 2 1 1 1 1 0 false (1, 5)%Z) [[[1; 1]]] false true =
  (fst (init_books (LFQ_init 2 1 1 1 1 0 false (1, 5)%Z)),
   Err ZeroDivisionError).
Proof.
  apply run_zero_chunk_size.
  - reflexivity.
  - left. reflexivity.
  - reflexivity.
Defined.

Lemma init_books_errors (self : LFQ) (e : pyerror) :
  snd (init_books self) = Err e -> e = TypeError.
Proof.
  unfold init_books.
  destruct (d self <? fst (mode_delimiter self))%Z; [discriminate|].
  destruct (d self <? snd (mode_delimiter self))%Z; [discriminate|].
  destruct (Z.min 21 (d self) - 1 <? 0)%Z; [|discriminate].
  cbn [snd]. congruence.
Qed.

Lemma check_split_errors (S : nat) (c : Z) (e : pyerror) :
  check_split S c = Err e -> e <> ValueError.
Proof.
  unfold check_split. destruct (c =? 0)%Z; [intros [= <-]; discriminate|].
  destruct (Z.of_nat S mod c =? 0)%Z; [discriminate|].
  intros [= <-]; discriminate.
Qed.

Lemma mass_check_errors (mp : Mat) (e : pyerror) :
  mass_check mp = Err e -> e <> ValueError.
Proof.
  unfold mass_check. destruct mp as [|row0 rest].
  - intros [= <-]; discriminate.
  - destruct (Rlt_dec _ _); [discriminate|]. intros [= <-]; discriminate.
Qed.

(** X5. [run] never raises [ValueError]: the "Wrong LFQMode" branch of
    the dispatch cannot be reached, because the lazy initialisation sets
    the mode on every path, the failing one included. *)
Theorem run_never_wrong_mode :
  forall (pt : R) (self : LFQ) (x : Tensor3) (return_indices training : bool),
    snd (run pt self x return_indices training) <> Err ValueError.
Proof.
  intros pt self x ri tr. unfold run.
  destruct (lazy_init self) as [s1 r1] eqn:Hinit.
  pose proof (lazy_init_frame _ _ _ Hinit) as (_ & _ & _ & _ & _ & _ & _ & Hm).
  destruct r1 as [[]|e].
  2:{ cbn [snd]. intros [= ->]. unfold lazy_init in Hinit.
      destruct (mode self); [discriminate|].
      pose proof (init_books_errors self ValueError) as He.
      rewrite Hinit in He. discriminate (He eq_refl). }
  destruct tr; cbn [negb]; [|discriminate].
  unfold dispatch. destruct (mode s1) as [[| |]|]; [| | |contradiction].
  - unfold calc_entro_vanilla. destruct (book_t s1); discriminate.
  - unfold calc_entro_by_batch.
    destruct (check_split (size1 x) (x_split s1)) as [[]|e] eqn:Hck.
    2:{ cbn [snd]. intros [= ->]. now apply check_split_errors in Hck. }
    destruct (book_t s1),
      (seq 0 (Z.to_nat (Z.of_nat (size1 x) / x_split s1)));
      cbv zeta; try discriminate;
      destruct (debug s1); try discriminate;
      destruct (mass_check _) as [[]|e] eqn:Hmc; try discriminate;
      cbn [snd]; intros [= ->]; now apply mass_check_errors in Hmc.
  - unfold calc_entro_block.
    destruct (check_split (size1 x) (x_split s1)) as [[]|e] eqn:Hck.
    2:{ cbn [snd]. intros [= ->]. now apply check_split_errors in Hck. }
    destruct (subbook_size s1), (subbook_ranges s1); discriminate.
Qed.

(** X6. Block mode never works on a single subbook: for [d >= 1] the
    initialisation makes exactly two subbooks of half the codebook each
    when [d <= 21], and [2^(d - 20)] subbooks of [2^20] codewords each
    when [d > 21]. *)
Theorem block_subbook_count :
  forall (d0 : Z) (a b t e : R) (xs : Z) (dbg : bool) (t0 t1 : Z),
    (1 <= d0)%Z -> (t0 <= d0)%Z -> (t1 <= d0)%Z ->
    let self := fst (init_books (LFQ_init d0 a b t e xs dbg (t0, t1))) in
    exists size num,
      subbook_size self = Some size /\ num_subbooks self = Some num /\
      (2 <= num)%Z /\
      ((d0 <= 21)%Z -> num = 2%Z /\ (2 * size = 2 ^ d0)%Z) /\
      ((21 < d0)%Z -> num = (2 ^ (d0 - 20))%Z /\ size = (2 ^ 20)%Z).
Proof.
  intros d0 a b t e xs dbg t0 t1 Hd H0 H1 self.
  exists (2 ^ (Z.min 21 d0 - 1))%Z, (2 ^ d0 / 2 ^ (Z.min 21 d0 - 1))%Z.
  assert (Hself : subbook_size self = Some (2 ^ (Z.min 21 d0 - 1))%Z /\
                  num_subbooks self =
                    Some (2 ^ d0 / 2 ^ (Z.min 21 d0 - 1))%Z).
  { unfold self, init_books. cbn [d mode_delimiter fst snd LFQ_init k].
    assert (E0 : (d0 <? t0)%Z = false) by (apply Z.ltb_ge; lia).
    assert (E1 : (d0 <? t1)%Z = false) by (apply Z.ltb_ge; lia).
    assert (E2 : (Z.min 21 d0 - 1 <? 0)%Z = false) by (apply Z.ltb_ge; lia).
    rewrite E0, E1, E2. now split. }
  destruct Hself as [Hs Hn]. split; [exact Hs|]. split; [exact Hn|].
  rewrite block_num_subbooks by assumption.
  split; [|split].
  - replace 2%Z with (2 ^ 1)%Z at 1 by reflexivity.
    apply Z.pow_le_mono_r; lia.
  - intros Hle. rewrite Z.min_r by lia.
    replace (d0 - (d0 - 1))%Z with 1%Z by lia. split; [reflexivity|].
    replace d0 with (Z.succ (d0 - 1)) at 2 by lia.
    rewrite Z.pow_succ_r by lia. reflexivity.
  - intros Hgt. rewrite Z.min_l by lia. split; [f_equal; lia | reflexivity].
Qed.

Lemma block_subbook_count_witness :
  exists size num,
    subbook_size (fst (init_books (LFQ_default 26))) = Some size /\
    num_subbooks (fst (init_books (LFQ_default 26))) = Some num /\
    num = (2 ^ 6)%Z /\ size = (2 ^ 20)%Z.
Proof.
  destruct (block_subbook_count 26 1 1 (5 / 1000) (1 / 10000000000) 16 false
              19 26 ltac:(lia) ltac:(lia) ltac:(lia))
    as (size & num & Hs & Hn & _ & _ & Hbig).
  exists size, num. split; [exact Hs|]. split; [exact Hn|].
  destruct (Hbig ltac:(lia)) as [-> ->]. split; reflexivity.
Defined.

(** ** The reserved weight [beta] *)

Lemma init_books_beta (self : LFQ) (b : R) :
  init_books (set_beta self b) =
  (set_beta (fst (init_books self)) b, snd (init_books self)).
Proof.
  destruct self. unfold init_books, set_beta.
  cbn [d k mode_delimiter fst snd].
  destruct (_ <? fst _)%Z; [reflexivity|].
  destruct (_ <? snd _)%Z; [reflexivity|].
  destruct (_ <? 0)%Z; reflexivity.
Qed.

Lemma lazy_init_beta (self : LFQ) (b : R) :
  lazy_init (set_beta self b) =
  (set_beta (fst (lazy_init self)) b, snd (lazy_init self)).
Proof.
  unfold lazy_init. change (mode (set_beta self b)) with (mode self).
  destruct (mode self); [reflexivity | apply init_books_beta].
Qed.

Lemma by_batch_totals_beta (self : LFQ) (b : R) (book : Mat) (x : Tensor3) :
  by_batch_totals (set_beta self b) book x = by_batch_totals self book x.
Proof. reflexivity. Qed.

Lemma calc_entro_by_batch_beta (self : LFQ) (b : R) (x : Tensor3) :
  calc_entro_by_batch (set_beta self b) x =
  (set_beta (fst (calc_entro_by_batch self x)) b,
   snd (calc_entro_by_batch self x)).
Proof.
  unfold calc_entro_by_batch.
  change (x_split (set_beta self b)) with (x_split self).
  change (book_t (set_beta self b)) with (book_t self).
  change (debug (set_beta self b)) with (debug self).
  change (eps (set_beta self b)) with (eps self).
  change (k (set_beta self b)) with (k self).
  destruct (check_split (size1 x) (x_split self)); [|reflexivity].
  destruct (book_t self),
    (seq 0 (Z.to_nat (Z.of_nat (size1 x) / x_split self)));
    cbv zeta; rewrite ?by_batch_totals_beta;
    try destruct (debug self); try destruct (mass_check _); reflexivity.
Qed.

Lemma calc_entro_block_beta (self : LFQ) (b : R) (x : Tensor3) :
  calc_entro_block (set_beta self b) x =
  (set_beta (fst (calc_entro_block self x)) b,
   snd (calc_entro_block self x)).
Proof.
  unfold calc_entro_block.
  change (x_split (set_beta self b)) with (x_split self).
  change (subbook_size (set_beta self b)) with (subbook_size self).
  change (subbook_ranges (set_beta self b)) with (subbook_ranges self).
  destruct (check_split (size1 x) (x_split self)); [|reflexivity].
  destruct (subbook_size self), (subbook_ranges self); reflexivity.
Qed.

Lemma dispatch_beta (pt : R) (self : LFQ) (b : R) (x : Tensor3) :
  dispatch pt (set_beta self b) x =
  (set_beta (fst (dispatch pt self x)) b, snd (dispatch pt self x)).
Proof.
  unfold dispatch. change (mode (set_beta self b)) with (mode self).
  destruct (mode self) as [[| |]|].
  - unfold calc_entro_vanilla.
    change (book_t (set_beta self b)) with (book_t self).
    destruct (book_t self); reflexivity.
  - apply calc_entro_by_batch_beta.
  - apply calc_entro_block_beta.
  - reflexivity.
Qed.

(** X7. The reserved weight [beta] is inert: building the instance with
    another [beta] changes no output slot, no raised error and no other
    attribute of any call. *)
Theorem beta_is_inert :
  forall (pt : R) (self : LFQ) (b : R) (x : Tensor3)
         (return_indices training : bool),
    run pt (set_beta self b) x return_indices training =
    (set_beta (fst (run pt self x return_indices training)) b,
     snd (run pt self x return_indices training)).
Proof.
  intros pt self b x ri tr. unfold run. rewrite lazy_init_beta.
  destruct (lazy_init self) as [s1 [[]|e]]; cbn [fst snd]; [|reflexivity].
  destruct tr; cbn [negb]; [|reflexivity].
  rewrite dispatch_beta.
  destruct (dispatch pt s1 x) as [s2 [[em me]|e]]; cbn [fst snd];
    [|reflexivity].
  destruct ri; reflexivity.
Qed.

(** ** The materialised codebook *)

Lemma codeword_length (dd i : Z) : length (codeword dd i) = Z.to_nat dd.
Proof.
  unfold codeword, arange_down.
  now rewrite length_map, length_rev, arange_length.
Qed.

Lemma map_nth_seq (l : Vec) :
  map (fun j => nth j l 0) (seq 0 (length l)) = l.
Proof.
  induction l as [|a l IH]; [reflexivity|].
  cbn [length seq map nth]. f_equal.
  rewrite <- seq_shift, map_map. exact IH.
Qed.

Lemma nth_map_rows (j n : nat) (M : Mat) :
  nth n (map (fun row => nth j row 0) M) 0 = nth j (nth n M []) 0.
Proof.
  replace 0 with ((fun row : Vec => nth j row 0) []) at 1
    by (destruct j; reflexivity).
  apply (map_nth (fun row : Vec => nth j row 0)).
Qed.

Lemma nth_map_arange (f : Z -> Vec) (kk i : Z) :
  (0 <= i < kk)%Z ->
  nth (Z.to_nat i) (map f (arange kk)) [] = f i.
Proof.
  intros Hi. rewrite (nth_indep _ [] (f 0%Z))
    by (rewrite length_map, arange_length; lia).
  rewrite map_nth, arange_nth by lia. f_equal. lia.
Qed.

(** Column [i] of the stored codebook is the codeword of [i]. *)
Lemma column_full_book_t (dd kk i : Z) :
  (0 <= i < kk)%Z ->
  column (Z.to_nat i) (full_book_t dd kk) = map IZR (codeword dd i).
Proof.
  intros Hi. unfold column, full_book_t, transpose, make_book.
  rewrite !map_map.
  rewrite (map_ext _ (fun j => nth j (map IZR (codeword dd i)) 0)).
  - rewrite <- (codeword_length dd i), <- (length_map IZR).
    apply map_nth_seq.
  - intros j. rewrite nth_map_rows. f_equal.
    apply (nth_map_arange (fun i0 => map IZR (codeword dd i0))). exact Hi.
Qed.





Lemma bits_of_length (dd i : Z) : length (bits_of dd i) = Z.to_nat dd.
Proof.
  unfold bits_of, arange_down.
  now rewrite length_map, length_rev, arange_length.
Qed.







(** ** Mode selection and what it stores *)

Lemma pm_bit_testbit (i sh : Z) :
  (0 <= sh)%Z -> pm_bit i sh = if Z.testbit i sh then 1%Z else (-1)%Z.
Proof.
  intros Hsh. unfold pm_bit.
  rewrite Z.shiftr_div_pow2, <- Z.testbit_spec' by assumption.
  now destruct (Z.testbit i sh).
Qed.

Lemma arange_down_nth (n : Z) (r : nat) (dflt : Z) :
  (r < Z.to_nat n)%nat ->
  nth r (arange_down n) dflt = (n - 1 - Z.of_nat r)%Z.
Proof.
  intros Hr. unfold arange_down.
  rewrite rev_nth by (rewrite arange_length; exact Hr).
  rewrite arange_length, arange_nth by lia. lia.
Qed.

Lemma codeword_nth (dd i : Z) (r : nat) :
  (r < Z.to_nat dd)%nat ->
  nth r (codeword dd i) 0%Z =
  if Z.testbit i (dd - 1 - Z.of_nat r) then 1%Z else (-1)%Z.
Proof.
  intros Hr. unfold codeword.
  rewrite (nth_indep _ 0%Z (pm_bit i 0%Z))
    by (rewrite length_map; unfold arange_down;
        now rewrite length_rev, arange_length).
  rewrite map_nth, arange_down_nth by exact Hr.
  apply pm_bit_testbit. lia.
Qed.

(** Entry [(r, i)] of the stored codebook: bit [d - 1 - r] of [i]. *)
Lemma full_book_t_entry (dd i r : Z) :
  (0 <= i < 2 ^ dd)%Z -> (0 <= r < dd)%Z ->
  nth (Z.to_nat i) (nth (Z.to_nat r) (full_book_t dd (2 ^ dd)) []) 0 =
  if Z.testbit i (dd - 1 - r) then 1 else -1.
Proof.
  intros Hi Hr.
  transitivity (nth (Z.to_nat r)
                  (column (Z.to_nat i) (full_book_t dd (2 ^ dd))) 0).
  - symmetry. unfold column. apply nth_map_rows.
  - rewrite (column_full_book_t dd (2 ^ dd) i Hi).
    replace 0 with (IZR 0) at 1 by reflexivity.
    rewrite map_nth, codeword_nth by lia.
    rewrite Z2Nat.id by lia.
    now destruct (Z.testbit i (dd - 1 - r)).
Qed.

Lemma full_book_t_rows (dd kk : Z) (row : Vec) :
  In row (full_book_t dd kk) -> length row = Z.to_nat kk.
Proof.
  unfold full_book_t, transpose, make_book. intros Hin.
  apply in_map_iff in Hin. destruct Hin as [j [<- _]].
  now rewrite !length_map, arange_length.
Qed.

Lemma make_ranges_nth (size num i : Z) :
  (0 <= i < num)%Z ->
  nth (Z.to_nat i) (make_ranges size num) (0, 0)%Z =
  (i * size, (i + 1) * size)%Z.
Proof.
  intros Hi. unfold make_ranges.
  set (f := fun j => (j * size, (j + 1) * size)%Z).
  transitivity (nth (Z.to_nat i) (map f (arange num)) (f 0%Z)).
  - apply nth_indep. rewrite length_map, arange_length. lia.
  - rewrite map_nth, arange_nth by lia. unfold f.
    now rewrite Z2Nat.id by lia.
Qed.

(** X17. For a bit-width [d >= 0] and ordered thresholds, initialisation
    sets exactly one mode by two chained strict comparisons: VANILLA when
    [d < t0], X_BATCH (chunked batch) when [t0 <= d < t1], BLOCK when
    [d >= t1].  VANILLA and X_BATCH store one and the same full codebook,
    whatever the thresholds: transposed, it has [d] rows of [2^d] entries,
    and entry [(r, i)] is [+1] when bit [d - 1 - r] of [i] is set and
    [-1] otherwise (codeword [i] is the bit expansion of [i], most
    significant bit first); no partition is stored.  BLOCK stores no
    codebook, and for [d >= 1] it returns with the partition:
    [subbook_size = 2^(min(21, d) - 1)], [num_subbooks = 2^d / subbook_size],
    and range [i] is [(i * subbook_size, (i + 1) * subbook_size)]. *)
Theorem init_books_selects_mode :
  forall (d0 : Z) (a b t e : R) (xs : Z) (dbg : bool),
    (0 <= d0)%Z ->
    exists book : list (list R),
      (length book = Z.to_nat d0 /\
       (forall row, In row book -> length row = Z.to_nat (2 ^ d0)) /\
       (forall i r, (0 <= i < 2 ^ d0)%Z -> (0 <= r < d0)%Z ->
          nth (Z.to_nat i) (nth (Z.to_nat r) book []) 0 =
          if Z.testbit i (d0 - 1 - r) then 1 else -1)) /\
      forall t0 t1 : Z, (t0 <= t1)%Z ->
        let self := LFQ_init d0 a b t e xs dbg (t0, t1) in
        ((d0 < t0)%Z ->
           exists s, init_books self = (s, Ok tt) /\
             mode s = Some VANILLA /\ book_t s = Some book /\
             subbook_size s = None /\ num_subbooks s = None /\
             subbook_ranges s = None) /\
        ((t0 <= d0 < t1)%Z ->
           exists s, init_books self = (s, Ok tt) /\
             mode s = Some X_BATCH /\ book_t s = Some book /\
             subbook_size s = None /\ num_subbooks s = None /\
             subbook_ranges s = None) /\
        ((t1 <= d0)%Z ->
           exists s r, init_books self = (s, r) /\
             mode s = Some BLOCK /\ book_t s = None /\
             ((1 <= d0)%Z ->
                r = Ok tt /\
                exists ranges : list (Z * Z),
                  subbook_size s = Some (2 ^ (Z.min 21 d0 - 1))%Z /\
                  num_subbooks s =
                    Some (2 ^ d0 / 2 ^ (Z.min 21 d0 - 1))%Z /\
                  subbook_ranges s = Some ranges /\
                  length ranges =
                    Z.to_nat (2 ^ d0 / 2 ^ (Z.min 21 d0 - 1)) /\
                  forall i, (0 <= i < 2 ^ d0 / 2 ^ (Z.min 21 d0 - 1))%Z ->
                    nth (Z.to_nat i) ranges (0, 0)%Z =
                    (i * 2 ^ (Z.min 21 d0 - 1),
                     (i + 1) * 2 ^ (Z.min 21 d0 - 1))%Z)).
Proof.
  intros d0 a b t e xs dbg Hd.
  exists (full_book_t d0 (2 ^ d0)). split.
  - split; [|split].
    + unfold full_book_t, transpose. now rewrite length_map, length_seq.
    + intros row. apply full_book_t_rows.
    + intros i r. apply full_book_t_entry.
  - intros t0 t1 Ht self. split; [|split].
    + intros Hlt. eexists. unfold self, init_books.
      cbn [d mode_delimiter fst snd LFQ_init k].
      apply Z.ltb_lt in Hlt. rewrite Hlt. now repeat split.
    + intros [Hge Hlt]. eexists. unfold self, init_books.
      cbn [d mode_delimiter fst snd LFQ_init k].
      assert (H0 : (d0 <? t0)%Z = false) by (apply Z.ltb_ge; lia).
      apply Z.ltb_lt in Hlt. rewrite H0, Hlt. now repeat split.
    + intros Hge.
      assert (H0 : (d0 <? t0)%Z = false) by (apply Z.ltb_ge; lia).
      assert (H2 : (d0 <? t1)%Z = false) by (apply Z.ltb_ge; lia).
      unfold self, init_books. cbn [d mode_delimiter fst snd LFQ_init k].
      rewrite H0, H2. cbv zeta.
      destruct (Z.min 21 d0 - 1 <? 0)%Z eqn:E.
      * do 2 eexists. split; [reflexivity|].
        split; [reflexivity|]. split; [reflexivity|].
        intros H1. apply Z.ltb_lt in E. lia.
      * do 2 eexists. split; [reflexivity|].
        split; [reflexivity|]. split; [reflexivity|].
        intros H1. split; [reflexivity|].
        eexists. split; [reflexivity|]. split; [reflexivity|].
        split; [reflexivity|]. split.
        -- apply make_ranges_length.
        -- intros i Hi. now apply make_ranges_nth.
Qed.

Lemma init_books_selects_mode_witness :
  exists s,
    init_books (LFQ_default 20) = (s, Ok tt) /\ mode s = Some X_BATCH.
Proof.
  destruct (init_books_selects_mode 20 1 1 (5 / 1000) (1 / 10000000000)
              16 false ltac:(lia)) as (book & _ & H).
  destruct (H 19%Z 26%Z ltac:(lia)) as (_ & HX & _).
  destruct (HX ltac:(lia)) as (s & Hs & Hm & _).
  exists s. split; assumption.
Defined.

(** C3.  At [d = 0] with both thresholds at 0 (ordered, and [d >= t1])
    the initialisation selects BLOCK and stores no codebook, but it does
    not compute the partition: [2 ** (min(21, d) - 1)] is then the float
    [0.5], [range(num_subbooks)] raises [TypeError], and no range is
    stored. *)
Theorem block_mode_without_partition :
  exists s,
    init_books (LFQ_init 0 1 1 (5 / 1000) (1 / 10000000000) 16 false (0, 0)%Z)
      = (s, Err TypeError) /\
    mode s = Some BLOCK /\ book_t s = None /\ subbook_ranges s = None.
Proof. eexists. repeat split. Qed.

(** ** Sign of the per-position entropy *)

Lemma exp_le_expsum (l : Vec) (v : R) : In v l -> exp v <= expsum l.
Proof.
  unfold expsum. induction l as [|a l IH]; [easy|].
  cbn [map]. rewrite vsum_cons. intros [-> | Hin].
  - pose proof (expsum_nonneg l) as Hl. unfold expsum in Hl. lra.
  - specialize (IH Hin). pose proof (exp_pos a). lra.
Qed.

Lemma log_softmax_nonpos (l : Vec) :
  Forall (fun v => v <= 0) (log_softmax l).
Proof.
  apply Forall_forall. intros u Hu. unfold log_softmax in Hu.
  apply in_map_iff in Hu. destruct Hu as [v [<- Hv]].
  pose proof (exp_le_expsum l v Hv) as Hle. pose proof (exp_pos v) as Hp.
  destruct Hle as [Hlt | Heq].
  - pose proof (ln_increasing _ _ Hp Hlt) as H. rewrite ln_exp in H. lra.
  - rewrite <- Heq, ln_exp. lra.
Qed.

Lemma softmax_nonneg (l : Vec) : Forall (fun v => 0 <= v) (softmax l).
Proof.
  apply Forall_forall. intros u Hu. unfold softmax in Hu.
  apply in_map_iff in Hu. destruct Hu as [v [<- Hv]].
  assert (Hl : l <> []) by (intros ->; contradiction).
  pose proof (expsum_pos l Hl). pose proof (exp_pos v).
  left. now apply Rdiv_lt_0_compat.
Qed.

Lemma vsum_prod_nonpos (a : Vec) :
  forall b, Forall (fun v => 0 <= v) a -> Forall (fun v => v <= 0) b ->
    vsum (zipWith Rmult a b) <= 0.
Proof.
  induction a as [|u a IH]; intros [|v b] Ha Hb; simpl; try lra.
  inversion Ha; inversion Hb; subst. fold (vsum (zipWith Rmult a b)).
  specialize (IH b H2 H6). nra.
Qed.

Lemma row_H_nonneg (temp e : R) (book : Mat) (row : Vec) :
  0 <= row_H temp e book row.
Proof.
  unfold row_H, row_probs.
  pose proof (vsum_prod_nonpos _ _ (softmax_nonneg (row_logits temp book row))
                (log_softmax_nonpos
                   (map (fun v => v + e) (row_logits temp book row)))).
  lra.
Qed.

Lemma vsum_nonneg (l : Vec) : Forall (fun v => 0 <= v) l -> 0 <= vsum l.
Proof.
  induction 1 as [|v l Hv _ IH]; [simpl; lra|]. rewrite vsum_cons. lra.
Qed.

Lemma div_INR_nonneg (a : R) (n : nat) : 0 <= a -> 0 <= a / INR n.
Proof.
  intros Ha. destruct n as [|n].
  - unfold Rdiv. simpl. rewrite Rinv_0. lra.
  - apply Rmult_le_pos; [exact Ha|]. left. apply Rinv_0_lt_compat.
    apply lt_0_INR. lia.
Qed.

Lemma vmean_nonneg (l : Vec) : Forall (fun v => 0 <= v) l -> 0 <= vmean l.
Proof.
  intros H. unfold vmean. apply div_INR_nonneg. now apply vsum_nonneg.
Qed.

Lemma vadd_nonneg (a : Vec) :
  forall b, Forall (fun v => 0 <= v) a -> Forall (fun v => 0 <= v) b ->
    Forall (fun v => 0 <= v) (vadd a b).
Proof.
  unfold vadd. induction a as [|u a IH]; intros [|v b] Ha Hb; simpl;
    try constructor.
  - inversion Ha; inversion Hb; subst. lra.
  - inversion Ha; inversion Hb; subst. now apply IH.
Qed.

Lemma zeros_nonneg (n : nat) : Forall (fun v => 0 <= v) (zeros n).
Proof.
  apply Forall_forall. intros v Hv. apply repeat_spec in Hv. subst. lra.
Qed.

Lemma entropy_sums_nonneg (temp e : R) (book : Mat) (x : Tensor3) (n : nat) :
  Forall (fun v => 0 <= v)
    (map (fun row => vsum row / INR n)
       (entropy_of (probs_of (scaled_logits temp book x))
          (log_probs_of e (scaled_logits temp book x)))).
Proof.
  rewrite entropy_of_rows, map_map. apply Forall_forall. intros v Hv.
  apply in_map_iff in Hv. destruct Hv as [m [<- _]].
  apply div_INR_nonneg, vsum_nonneg. apply Forall_forall. intros h Hh.
  apply in_map_iff in Hh. destruct Hh as [row [<- _]]. apply row_H_nonneg.
Qed.

Lemma fold_left_invariant {A I : Type} (P : A -> Prop) (step : A -> I -> A)
  (l : list I) :
  (forall acc i, P acc -> P (step acc i)) ->
  forall acc, P acc -> P (fold_left step l acc).
Proof.
  intros Hstep. induction l as [|i l IH]; intros acc Hacc; [exact Hacc|].
  cbn [fold_left]. apply IH. now apply Hstep.
Qed.

Lemma by_batch_totals_nonneg (self : LFQ) (book : Mat) (x : Tensor3) :
  Forall (fun v => 0 <= v) (fst (by_batch_totals self book x)).
Proof.
  unfold by_batch_totals. cbv zeta. cbn [fst].
  apply (fold_left_invariant
           (fun acc : Vec * Mat => Forall (fun v => 0 <= v) (fst acc))).
  - intros acc i Hacc. unfold by_batch_step. cbn [fst].
    apply vadd_nonneg; [exact Hacc | apply entropy_sums_nonneg].
  - apply zeros_nonneg.
Qed.

Lemma block_totals_nonneg (self : LFQ) (size : Z) (ranges : list (Z * Z))
  (x : Tensor3) :
  Forall (fun v => 0 <= v) (fst (block_totals self size ranges x)).
Proof.
  unfold block_totals.
  apply (fold_left_invariant
           (fun acc : Vec * Mat => Forall (fun v => 0 <= v) (fst acc))).
  - intros acc range Hacc. unfold block_subbook.
    apply (fold_left_invariant
             (fun acc : Vec * Mat => Forall (fun v => 0 <= v) (fst acc)));
      [|exact Hacc].
    intros acc' i Hacc'. unfold _block. cbn [fst].
    apply vadd_nonneg; [exact Hacc'|].
    apply entropy_sums_nonneg.
  - apply zeros_nonneg.
Qed.

(** X9. In X_BATCH and BLOCK modes the [entro_mean] returned by a
    training call is never negative (for a non-zero temperature and a
    non-empty batch, where the program's means and quotients are
    numbers): every per-position entropy [-sum p * log_softmax] is
    non-negative and the estimators only add and average them. *)
Theorem entro_mean_nonneg :
  forall (pt : R) (self s : LFQ) (x : Tensor3) (return_indices : bool)
         (out : Output),
    temperature self <> 0 -> x <> [] ->
    run pt self x return_indices true = (s, Ok out) ->
    mode s = Some X_BATCH \/ mode s = Some BLOCK ->
    0 <= out_entro_mean out.
Proof.
  intros pt self s x ri out _ _ Hrun Hmode.
  apply run_training_inv in Hrun.
  destruct Hrun as (s1 & s2 & em & me & _ & Hest & Hs & ->).
  cbv zeta in Hs. cbn [out_entro_mean].
  assert (Hm2 : mode s = mode s2) by (subst s; now destruct ri).
  assert (Hm1 : mode s2 = mode s1).
  { pose proof (dispatch_keeps pt s1 x) as [_ Hb]. rewrite Hest in Hb.
    unfold books in Hb. cbn [fst] in Hb. congruence. }
  rewrite Hm2, Hm1 in Hmode. unfold dispatch in Hest.
  destruct Hmode as [Hmode | Hmode]; rewrite Hmode in Hest.
  - unfold calc_entro_by_batch in Hest.
    destruct (check_split (size1 x) (x_split s1)); [|discriminate].
    destruct (book_t s1) as [book|],
      (seq 0 (Z.to_nat (Z.of_nat (size1 x) / x_split s1)));
      cbv zeta in Hest; try discriminate;
      destruct (debug s1); try destruct (mass_check _);
      try discriminate; inversion Hest; subst;
      apply vmean_nonneg, by_batch_totals_nonneg.
  - unfold calc_entro_block in Hest.
    destruct (check_split (size1 x) (x_split s1)); [|discriminate].
    destruct (subbook_size s1), (subbook_ranges s1); try discriminate.
    inversion Hest; subst. apply vmean_nonneg, block_totals_nonneg.
Qed.

Lemma entro_mean_nonneg_witness :
  exists s out,
    run 1 (LFQ_init 1 1 1 1 1 1 false (0, 5)%Z) [[[1]; [-1]]] false true
      = (s, Ok out) /\
    0 <= out_entro_mean out.
Proof.
  eexists. eexists. split; [reflexivity|].
  eapply (entro_mean_nonneg 1 (LFQ_init 1 1 1 1 1 1 false (0, 5)%Z) _
            [[[1]; [-1]]] false _).
  - simpl. lra.
  - discriminate.
  - reflexivity.
  - left. reflexivity.
Defined.

(** ** Commit loss and codeword corners *)





(** ** Indices as labels of sign patterns *)

Lemma quantize_eq_iff (a b : R) :
  quantize a = quantize b <-> (0 < a <-> 0 < b).
Proof.
  unfold quantize. destruct (Rlt_dec 0 a), (Rlt_dec 0 b); split;
    intros H; try reflexivity; try tauto; try lra.
Qed.

Lemma map_quantize_eq_iff (r1 : Vec) :
  forall r2,
    map quantize r1 = map quantize r2 <->
    Forall2 (fun a b => 0 < a <-> 0 < b) r1 r2.
Proof.
  induction r1 as [|a r1 IH]; intros [|b r2]; cbn [map]; split; intros H;
    try discriminate; try constructor; try (now inversion H).
  - injection H as Hab _. now apply quantize_eq_iff.
  - injection H as _ Hrest. now apply IH.
  - inversion H; subst. f_equal; [now apply quantize_eq_iff | now apply IH].
Qed.

Lemma index_of_row_eq_iff (r1 r2 : Vec) :
  length r1 = length r2 ->
  (index_of_row r1 = index_of_row r2 <->
   Forall2 (fun a b => 0 < a <-> 0 < b) r1 r2).
Proof.
  intros Hlen. rewrite <- map_quantize_eq_iff. split; intros H.
  - rewrite <- (codeword_index_of_row r1), <- (codeword_index_of_row r2).
    now rewrite H, Hlen.
  - unfold index_of_row. now rewrite H.
Qed.

Lemma Forall2_float_value (dt : dtype) (zs1 : list Z) :
  forall zs2,
    Forall2 (fun a b => 0 < a <-> 0 < b)
      (map (float_value dt) zs1) (map (float_value dt) zs2) <->
    Forall2 (fun a b => (0 < a)%Z <-> (0 < b)%Z) zs1 zs2.
Proof.
  induction zs1 as [|a zs1 IH]; intros [|b zs2]; cbn [map]; split;
    intros H; try constructor; try (now inversion H).
  - inversion H; subst. now rewrite <- !(float_value_pos_iff dt).
  - inversion H; subst. now apply IH.
  - inversion H; subst. now rewrite !(float_value_pos_iff dt).
  - inversion H; subst. now apply IH.
Qed.

(** X11. Decoded indices label sign patterns one-to-one: for two
    positions of a batch of dtype [dt] with at most 24 coordinates each,
    of magnitude at most [2 ^ prec dt], the indices are equal exactly
    when the coordinates have the same signs (strictly positive or not),
    coordinate by coordinate; and so are the indices that lines 177-188
    return with the rounding of the dtype and of the float32 product. *)
Theorem index_labels_sign_pattern :
  forall (dt : dtype),
    (forall (r1 r2 : Vec),
       length r1 = length r2 -> (length r1 <= 24)%nat ->
       Forall (in_range dt) r1 -> Forall (in_range dt) r2 ->
       exists i1 i2,
         indices_of [[r1; r2]] = [[i1; i2]] /\
         (i1 = i2 <-> Forall2 (fun a b => 0 < a <-> 0 < b) r1 r2)) /\
    (forall (zs1 zs2 : list Z),
       length zs1 = length zs2 -> (length zs1 <= 24)%nat ->
       Forall (is_float dt) zs1 -> Forall (is_float dt) zs2 ->
       Forall (fun z => in_range dt (float_value dt z)) zs1 ->
       Forall (fun z => in_range dt (float_value dt z)) zs2 ->
       (decode_fl dt (map (passthrough_fl dt) zs1) =
        decode_fl dt (map (passthrough_fl dt) zs2) <->
        Forall2 (fun a b => (0 < a)%Z <-> (0 < b)%Z) zs1 zs2)).
Proof.
  intros dt. split.
  - intros r1 r2 Hlen _ _ _.
    exists (index_of_row r1), (index_of_row r2). split.
    + unfold indices_of.
      rewrite passthrough_quantize,
        (decode_indices_quantize 1 2 (length r1)); [reflexivity|].
      split; [reflexivity|]. constructor; [|constructor].
      split; [reflexivity|]. repeat constructor. now symmetry.
    + now apply index_of_row_eq_iff.
  - intros zs1 zs2 Hlen H24 Hf1 Hf2 Hr1 Hr2.
    rewrite !decode_fl_exact by (assumption || lia).
    rewrite index_of_row_eq_iff by now rewrite !length_map.
    apply Forall2_float_value.
Qed.

Lemma index_labels_sign_pattern_witness :
  (exists i1 i2,
     indices_of [[[3; -2]; [1 / 2; 0]]] = [[i1; i2]] /\ i1 = i2) /\
  decode_fl float32
    (map (passthrough_fl float32) [3 * one float32; -2 * one float32])%Z =
  decode_fl float32
    (map (passthrough_fl float32) [7 * one float32; 0 * one float32])%Z.
Proof.
  split.
  - destruct (proj1 (index_labels_sign_pattern float32)
                [3; -2] [1 / 2; 0] eq_refl)
      as (i1 & i2 & Hi & Hiff).
    + simpl. lia.
    + repeat (constructor; [apply in_range_256; lra|]). constructor.
    + repeat (constructor; [apply in_range_256; lra|]). constructor.
    + exists i1, i2. split; [exact Hi|]. apply Hiff.
      repeat constructor; intros; lra.
  - assert (Hf : forall a b : Z, (-256 <= a <= 256)%Z ->
                (-256 <= b <= 256)%Z ->
                Forall (is_float float32) [a * one float32; b * one float32]%Z)
      by (intros a b Ha Hb;
          repeat (constructor; [apply small_int_is_float; lia|]);
          constructor).
    assert (Hr : forall a b : Z, (-256 <= a <= 256)%Z ->
                (-256 <= b <= 256)%Z ->
                Forall (fun z => in_range float32 (float_value float32 z))
                  [a * one float32; b * one float32]%Z)
      by (intros a b Ha Hb;
          repeat (constructor; [apply small_int_in_range; lia|]);
          constructor).
    pose proof (one_pos float32) as H1.
    apply (proj2 (index_labels_sign_pattern float32)
             [3 * one float32; -2 * one float32]%Z
             [7 * one float32; 0 * one float32]%Z
             eq_refl ltac:(simpl; lia)
             (Hf 3 (-2) ltac:(lia) ltac:(lia))%Z
             (Hf 7 0 ltac:(lia) ltac:(lia))%Z
             (Hr 3 (-2) ltac:(lia) ltac:(lia))%Z
             (Hr 7 0 ltac:(lia) ltac:(lia))%Z).
    constructor; [nia|]. constructor; [nia | constructor].
Defined.

(** ** Quantizing a quantized batch *)

Lemma quantize_idem (v : R) : quantize (quantize v) = quantize v.
Proof.
  destruct (quantize_pm1 v) as [H | H]; rewrite H.
  - apply quantize_pos_iff. lra.
  - apply quantize_neg_iff. lra.
Qed.

Lemma where_fl_is_float (dt : dtype) (z : Z) : is_float dt (where_fl dt z).
Proof.
  unfold is_float, where_fl.
  destruct (0 <? z)%Z; destruct dt; vm_compute; reflexivity.
Qed.

Lemma where_fl_in_range (dt : dtype) (z : Z) :
  in_range dt (float_value dt (where_fl dt z)).
Proof.
  rewrite where_fl_quantize. apply in_range_256.
  destruct (quantize_pm1 (float_value dt z)) as [-> | ->]; lra.
Qed.

Lemma index_of_row_quantize (row : Vec) :
  index_of_row (map quantize row) = index_of_row row.
Proof.
  unfold index_of_row. rewrite !map_map. f_equal.
  apply map_ext. intros v. now rewrite quantize_idem.
Qed.

(** X12. The quantizer is idempotent: a training call on an already
    quantized batch returns that batch as its code, with commit loss 0
    when the batch is non-empty; and when the original batch, of dtype
    [dt], has at most 24 coordinates per position, of magnitude at most
    [2 ^ prec dt], the indices decoded for the quantized batch are those
    decoded for the original batch, also when lines 177-188 are evaluated
    with the rounding of the dtype and of the float32 product. *)
Theorem run_on_quantized_batch :
  forall (pt : R) (self s : LFQ) (x : Tensor3) (return_indices : bool)
         (out : Output),
    run pt self (map3 quantize x) return_indices true = (s, Ok out) ->
    out_q out = map3 quantize x /\
    (flatten3 x <> [] -> out_commit_loss out = 0) /\
    (forall (dt : dtype) (B S n : nat),
       shape3 B S n x -> (n <= 24)%nat ->
       Forall (in_range dt) (flatten3 x) ->
       indices_of (map3 quantize x) = indices_of x) /\
    (forall (dt : dtype) (zs : list Z),
       (length zs <= 24)%nat -> Forall (is_float dt) zs ->
       Forall (fun z => in_range dt (float_value dt z)) zs ->
       decode_fl dt (map (passthrough_fl dt) (map (where_fl dt) zs)) =
       decode_fl dt (map (passthrough_fl dt) zs)).
Proof.
  intros pt self s x ri out Hrun.
  apply run_training_inv in Hrun.
  destruct Hrun as (s1 & s2 & em & me & _ & _ & _ & ->).
  cbn [out_q out_commit_loss].
  assert (Hqq : map3 quantize (map3 quantize x) = map3 quantize x).
  { rewrite map3_map3. apply map3_ext. apply quantize_idem. }
  rewrite passthrough_quantize. split; [exact Hqq|]. split; [|split].
  - intros Hne. rewrite mse_none_quantize.
    unfold mean3. rewrite !flatten3_map3, map_map.
    apply vmean_map_const; [assumption|].
    apply Forall_forall. intros v _. rewrite quantize_idem. ring.
  - intros dt B S n _ _ _.
    unfold indices_of. now rewrite !passthrough_quantize, Hqq.
  - intros dt zs H24 Hf Hr.
    rewrite (decode_fl_exact dt zs H24 Hf Hr).
    rewrite decode_fl_exact.
    + rewrite map_map.
      rewrite (map_ext (fun z => float_value dt (where_fl dt z))
                 (fun z => quantize (float_value dt z)))
        by (intros z; apply where_fl_quantize).
      rewrite <- (map_map (float_value dt) quantize).
      apply index_of_row_quantize.
    + now rewrite length_map.
    + apply Forall_forall. intros w Hw. apply in_map_iff in Hw.
      destruct Hw as [z [<- _]]. apply where_fl_is_float.
    + apply Forall_forall. intros w Hw. apply in_map_iff in Hw.
      destruct Hw as [z [<- _]]. apply where_fl_in_range.
Qed.

Lemma run_on_quantized_batch_witness :
  exists s out,
    run 1 (LFQ_default 2) (map3 quantize [[[3; -2]]]) false true
      = (s, Ok out) /\
    out_q out = map3 quantize [[[3; -2]]] /\
    indices_of (map3 quantize [[[3; -2]]]) = indices_of [[[3; -2]]].
Proof.
  eexists. eexists. split; [reflexivity|].
  destruct (run_on_quantized_batch 1 (LFQ_default 2) _ [[[3; -2]]] false _
              eq_refl) as (Hq & _ & Hi & _).
  split; [exact Hq|].
  apply (Hi float32 1%nat 1%nat 2%nat (shape3_one_row [3; -2])).
  - lia.
  - unfold flatten3. cbn [concat app].
    repeat (constructor; [apply in_range_256; lra|]). constructor.
Defined.

(** ** The chunked-batch estimator on an initialised instance *)

Lemma init_books_with_book (d0 : Z) (a b t e : R) (xs : Z) (dbg : bool)
  (t0 t1 : Z) :
  (1 <= d0)%Z -> (d0 < t1)%Z ->
  let self := fst (init_books (LFQ_init d0 a b t e xs dbg (t0, t1))) in
  book_t self = Some (full_book_t d0 (2 ^ d0)) /\
  k self = (2 ^ d0)%Z /\ x_split self = xs /\
  temperature self = t /\ eps self = e.
Proof.
  intros Hd Ht self. unfold self, init_books.
  cbn [d mode_delimiter fst snd LFQ_init k].
  destruct (d0 <? t0)%Z; [now repeat split|].
  assert (E : (d0 <? t1)%Z = true) by (apply Z.ltb_lt; lia).
  rewrite E. now repeat split.
Qed.

Lemma calc_entro_by_batch_initialised (d0 : Z) (a b t e : R) (xs : Z)
  (dbg : bool) (t0 t1 : Z) (x : Tensor3) (B S n : nat) :
  (1 <= d0)%Z -> (d0 < t1)%Z ->
  shape3 B S n x -> (0 < B)%nat -> (0 < S)%nat ->
  (0 < xs)%Z -> (Z.of_nat S mod xs = 0)%Z ->
  let self := fst (init_books (LFQ_init d0 a b t e xs dbg (t0, t1))) in
  let book := full_book_t d0 (2 ^ d0) in
  snd (calc_entro_by_batch self x) =
    Ok (vmean (map (fun m => vsum (map (row_H t e book) m) / INR S) x),
        row_entropy e (mean01 (map (map (row_probs t book)) x))) /\
  mean_probs (fst (calc_entro_by_batch self x)) =
    Some (repeat (mean01 (map (map (row_probs t book)) x)) B).
Proof.
  intros Hd Ht Hshape HB HS Hxs Hdiv self book.
  destruct (init_books_with_book d0 a b t e xs dbg t0 t1 Hd Ht)
    as (Hbook & Hk & Hx & Htemp & He).
  fold self in Hbook, Hk, Hx, Htemp, He. clearbody self.
  assert (Hpos : (0 < 2 ^ d0)%Z) by (apply Z.pow_pos_nonneg; lia).
  assert (Hcols : ncols book = Z.to_nat (k self))
    by (rewrite Hk; apply full_book_t_ncols; lia).
  assert (HK : (0 < ncols book)%nat)
    by (unfold book; rewrite full_book_t_ncols by lia; lia).
  pose proof (calc_entro_by_batch_closed self book x B S n Hshape HB HS
                ltac:(rewrite Hx; exact Hxs) ltac:(rewrite Hx; exact Hdiv)
                Hbook Hcols HK) as Hc.
  cbv zeta in Hc. rewrite Htemp, He in Hc. rewrite Hc. now split.
Qed.

(** ** Who writes [self.mean_probs] *)

(** X14. Only the chunked-batch estimator writes [self.mean_probs]: a
    call that leaves the instance in VANILLA or BLOCK mode, training or
    not, returning or raising, leaves that attribute as it was. *)
Theorem mean_probs_written_in_x_batch_only :
  forall (pt : R) (self : LFQ) (x : Tensor3) (return_indices training : bool),
    mode (fst (run pt self x return_indices training)) <> Some X_BATCH ->
    mean_probs (fst (run pt self x return_indices training)) =
    mean_probs self.
Proof.
  intros pt self x ri tr. unfold run.
  destruct (lazy_init self) as [s1 r1] eqn:Hinit.
  pose proof (lazy_init_frame _ _ _ Hinit) as (_ & _ & Hmp & _).
  destruct r1 as [[]|e]; cbn [fst]; [|intros _; exact Hmp].
  destruct tr; cbn [negb fst]; [|intros _; exact Hmp].
  pose proof (dispatch_keeps pt s1 x) as [_ Hb].
  unfold dispatch in *.
  destruct (mode s1) as [[| |]|] eqn:Hm.
  - unfold calc_entro_vanilla in *.
    destruct (book_t s1); cbn [fst]; try (intros _; exact Hmp).
    destruct ri; intros _; exact Hmp.
  - intros Hne. exfalso. apply Hne.
    destruct (calc_entro_by_batch s1 x) as [s2 [[em me]|e]]; cbn [fst] in *;
      unfold books in Hb; try destruct ri; cbn; congruence.
  - destruct (calc_entro_block s1 x) as [s2 r2] eqn:Hblk.
    apply calc_entro_block_frame in Hblk. subst s2.
    destruct r2 as [[em me]|e]; cbn [fst]; try (intros _; exact Hmp).
    destruct ri; intros _; exact Hmp.
  - intros _. exact Hmp.
Qed.

Lemma mean_probs_written_in_x_batch_only_witness :
  mean_probs (fst (run 1 (LFQ_default 2) [[[1; -1]]] true true)) = None.
Proof.
  apply (mean_probs_written_in_x_batch_only 1 (LFQ_default 2) [[[1; -1]]]
           true true).
  discriminate.
Defined.

(** ** Extreme indices *)

Lemma be_value_zeros (n : nat) : be_value (repeat 0%Z n) = 0%Z.
Proof.
  induction n as [|n IH]; [reflexivity|].
  cbn [repeat]. rewrite be_value_cons, IH. lia.
Qed.

Lemma be_value_ones (n : nat) :
  be_value (repeat 1%Z n) = (2 ^ Z.of_nat n - 1)%Z.
Proof.
  induction n as [|n IH]; [reflexivity|].
  cbn [repeat]. rewrite be_value_cons, IH, repeat_length.
  rewrite Nat2Z.inj_succ, Z.pow_succ_r by lia. lia.
Qed.

Lemma map_const_repeat {A B : Type} (f : A -> B) (c : B) (l : list A) :
  Forall (fun a => f a = c) l -> map f l = repeat c (length l).
Proof.
  induction 1 as [|a l Ha _ IH]; [reflexivity|].
  cbn [map length repeat]. now rewrite Ha, IH.
Qed.

Lemma index_of_row_nonpos (row : Vec) :
  Forall (fun v => v <= 0) row -> index_of_row row = 0%Z.
Proof.
  intros H. unfold index_of_row. rewrite map_map.
  rewrite (map_const_repeat _ 0%Z), be_value_zeros; [reflexivity|].
  eapply Forall_impl; [|exact H]. intros v Hv. cbv beta.
  rewrite quantize_bit. destruct (Rlt_dec 0 v); [lra | reflexivity].
Qed.

Lemma index_of_row_pos (row : Vec) :
  Forall (fun v => 0 < v) row ->
  index_of_row row = (2 ^ Z.of_nat (length row) - 1)%Z.
Proof.
  intros H. unfold index_of_row. rewrite map_map.
  rewrite (map_const_repeat _ 1%Z), be_value_ones; [reflexivity|].
  eapply Forall_impl; [|exact H]. intros v Hv. cbv beta.
  rewrite quantize_bit. destruct (Rlt_dec 0 v); [reflexivity | lra].
Qed.

(** X15. For a position of dtype [dt] with at most 24 coordinates, of
    magnitude at most [2 ^ prec dt], the decoded index is 0 when none of
    the coordinates is strictly positive, and [2^d - 1], the last
    codeword, when all of them are; lines 177-188 return these values
    with the rounding of the dtype and of the float32 product too. *)
Theorem extreme_indices :
  forall (dt : dtype),
    (forall (row : Vec),
       (length row <= 24)%nat -> Forall (in_range dt) row ->
       (Forall (fun v => v <= 0) row ->
        indices_of [[row]] = [[0%Z]]) /\
       (Forall (fun v => 0 < v) row ->
        indices_of [[row]] = [[(2 ^ Z.of_nat (length row) - 1)%Z]])) /\
    (forall (zs : list Z),
       (length zs <= 24)%nat -> Forall (is_float dt) zs ->
       Forall (fun z => in_range dt (float_value dt z)) zs ->
       (Forall (fun z => z <= 0)%Z zs ->
        decode_fl dt (map (passthrough_fl dt) zs) = 0%Z) /\
       (Forall (fun z => 0 < z)%Z zs ->
        decode_fl dt (map (passthrough_fl dt) zs) =
        (2 ^ Z.of_nat (length zs) - 1)%Z)).
Proof.
  intros dt. split.
  - intros row _ _.
    assert (Hidx : indices_of [[row]] = [[index_of_row row]]).
    { unfold indices_of.
      rewrite passthrough_quantize,
        (decode_indices_quantize 1 1 (length row));
        [reflexivity | apply shape3_one_row]. }
    rewrite Hidx. split; intros H.
    + now rewrite index_of_row_nonpos.
    + now rewrite index_of_row_pos.
  - intros zs H24 Hf Hr. rewrite decode_fl_exact by assumption.
    split; intros H.
    + apply index_of_row_nonpos. apply Forall_forall. intros v Hv.
      apply in_map_iff in Hv. destruct Hv as [z [<- Hz]].
      rewrite Forall_forall in H. specialize (H z Hz).
      destruct (Rle_or_lt (float_value dt z) 0) as [?|Hp]; [assumption|].
      apply float_value_pos_iff in Hp. lia.
    + rewrite index_of_row_pos, length_map; [reflexivity|].
      apply Forall_forall. intros v Hv.
      apply in_map_iff in Hv. destruct Hv as [z [<- Hz]].
      rewrite Forall_forall in H. apply float_value_pos_iff. now apply H.
Qed.

Lemma extreme_indices_witness :
  indices_of [[[0; -3]]] = [[0%Z]] /\ indices_of [[[2; 5]]] = [[3%Z]] /\
  decode_fl float32
    (map (passthrough_fl float32) [2 * one float32; 5 * one float32])%Z = 3%Z.
Proof.
  split; [|split].
  - apply (proj1 (proj1 (extreme_indices float32) [0; -3]
                    ltac:(simpl; lia)
                    ltac:(repeat (constructor;
                                  [apply in_range_256; lra|]);
                          constructor))).
    repeat constructor; lra.
  - apply (proj2 (proj1 (extreme_indices float32) [2; 5]
                    ltac:(simpl; lia)
                    ltac:(repeat (constructor;
                                  [apply in_range_256; lra|]);
                          constructor))).
    repeat constructor; lra.
  - apply (proj2 (proj2 (extreme_indices float32)
                    [2 * one float32; 5 * one float32]%Z
                    ltac:(simpl; lia)
                    ltac:(repeat (constructor;
                                  [apply small_int_is_float; lia|]);
                          constructor)
                    ltac:(repeat (constructor;
                                  [apply small_int_in_range; lia|]);
                          constructor))).
    repeat constructor; apply Z.mul_pos_pos; (lia || apply one_pos).
Defined.

(** ** Index decoding out of range *)

(** C4.  The decoded index is not always the big-endian value of the hard
    pattern.  With 25 coordinates, all [1.0], the pattern is all [+1] and
    its big-endian value is [2^25 - 1]; the float32 sum of line 188
    cannot hold that integer (no float32 addition returns it) and,
    accumulated from the most significant bit, gives [2^25 = k], outside
    the codebook and expanding to the all [-1] pattern.  With one
    coordinate [16777220.0], strictly positive, the index is read from
    the rounded pass-through value [0.0] and is 0, not 1. *)
Theorem decoded_index_misses_pattern :
  index_of_row (repeat 1 25) = 33554431%Z /\
  decode_fl float32 (map (passthrough_fl float32) (repeat (one float32) 25))
    = 33554432%Z /\
  (forall z, round_int 24 z <> 33554431%Z) /\
  codeword 25 33554432 = repeat (-1)%Z 25 /\
  index_of_row [16777220] = 1%Z /\
  decode_fl float32 [passthrough_fl float32 (16777220 * one float32)] = 0%Z.
Proof.
  split; [|split; [|split; [|split; [|split]]]].
  - unfold index_of_row. rewrite map_map.
    rewrite (map_const_repeat _ 1%Z), be_value_ones.
    + rewrite repeat_length. reflexivity.
    + apply Forall_forall. intros v Hv. apply repeat_spec in Hv. subst v.
      rewrite quantize_bit. destruct (Rlt_dec 0 1); [reflexivity | lra].
  - vm_compute. reflexivity.
  - apply round_int_not_odd.
  - vm_compute. reflexivity.
  - unfold index_of_row. cbn [map]. rewrite quantize_bit.
    destruct (Rlt_dec 0 16777220); [reflexivity | lra].
  - vm_compute. reflexivity.
Qed.

(** ** The direct and the chunked-batch estimator *)

Lemma dot_nth (a : Vec) :
  forall b, length a = length b ->
    dot a b = vsum (map (fun j => nth j a 0 * nth j b 0) (seq 0 (length a))).
Proof.
  induction a as [|u a IH]; intros [|v b] Hlen; try discriminate;
    [reflexivity|].
  cbn [length] in *. injection Hlen as Hlen.
  unfold dot in *. cbn [zipWith seq map nth]. rewrite !vsum_cons.
  rewrite (IH b Hlen), <- seq_shift, map_map. reflexivity.
Qed.

Lemma codeword_nth_IZR (dd i : Z) (j : nat) :
  (j < Z.to_nat dd)%nat ->
  nth j (map IZR (codeword dd i)) 0 =
  if Z.testbit i (dd - 1 - Z.of_nat j) then 1 else -1.
Proof.
  intros Hj. replace 0 with (IZR 0) at 1 by reflexivity.
  rewrite map_nth, codeword_nth by exact Hj.
  now destruct (Z.testbit i (dd - 1 - Z.of_nat j)).
Qed.

(** The logits of the code against the stored codebook are the direct
    logits. *)
Lemma row_logits_direct (temp : R) (dd : Z) (row : Vec) :
  (1 <= dd)%Z -> length row = Z.to_nat dd ->
  row_logits temp (full_book_t dd (2 ^ dd)) row =
  map (direct_logit temp dd row) (seq 0 (Z.to_nat (2 ^ dd))).
Proof.
  intros Hd Hrow. unfold row_logits, vecmat.
  rewrite full_book_t_ncols by assumption. rewrite map_map.
  apply map_ext_in. intros i Hi. apply in_seq in Hi.
  assert (Hk : (0 < 2 ^ dd)%Z) by (apply Z.pow_pos_nonneg; lia).
  unfold direct_logit. f_equal.
  pose proof (column_full_book_t dd (2 ^ dd) (Z.of_nat i) ltac:(lia)) as Hc.
  rewrite Nat2Z.id in Hc. unfold column in Hc. rewrite Hc.
  rewrite dot_nth by (now rewrite length_map, codeword_length).
  rewrite Hrow. apply vsum_map_ext_in. intros j Hj. apply in_seq in Hj.
  f_equal. apply codeword_nth_IZR. lia.
Qed.

Lemma row_probs_direct (temp : R) (dd : Z) (row : Vec) :
  (1 <= dd)%Z -> length row = Z.to_nat dd ->
  row_probs temp (full_book_t dd (2 ^ dd)) row =
  map (direct_prob temp dd row) (seq 0 (Z.to_nat (2 ^ dd))).
Proof.
  intros Hd Hrow. unfold row_probs.
  rewrite row_logits_direct by assumption.
  unfold softmax, expsum. rewrite map_map.
  apply map_ext. intros i. unfold direct_prob. f_equal.
  unfold vsum. f_equal. apply map_map.
Qed.

Lemma row_H_direct (temp e : R) (dd : Z) (row : Vec) :
  (1 <= dd)%Z -> length row = Z.to_nat dd ->
  row_H temp e (full_book_t dd (2 ^ dd)) row = direct_H temp e dd row.
Proof.
  intros Hd Hrow. unfold row_H.
  rewrite row_probs_direct, row_logits_direct by assumption.
  unfold log_softmax, expsum. rewrite !map_map, zipWith_map_map.
  unfold direct_H, direct_log_prob, vsum. reflexivity.
Qed.

Lemma shape3_rows_in (x : Tensor3) (B S n : nat) :
  shape3 B S n x ->
  forall m row, In m x -> In row m -> length m = S /\ length row = n.
Proof.
  intros [_ Hx] m row Hm Hrow. rewrite Forall_forall in Hx.
  destruct (Hx m Hm) as [Hlen Hrows]. rewrite Forall_forall in Hrows.
  split; [exact Hlen | now apply Hrows].
Qed.

Lemma shape3_length_concat (x : Tensor3) (B S n : nat) :
  shape3 B S n x -> length (concat x) = (B * S)%nat.
Proof.
  intros Hshape. rewrite <- (map_id x) at 1.
  rewrite (length_concat_const (fun m : Mat => m) S).
  - now rewrite (proj1 Hshape).
  - intros m Hm. pose proof (shape3_rows x B S n Hshape) as Hr.
    rewrite Forall_forall in Hr. now apply Hr.
Qed.

Lemma vsum_map_concat (f : Vec -> R) (x : Tensor3) :
  vsum (map f (concat x)) = vsum (map (fun m => vsum (map f m)) x).
Proof. now rewrite concat_map, vsum_concat, map_map. Qed.

(** The two closed forms of the estimators are the direct quantities. *)
Lemma closed_entro_mean_direct (temp e : R) (dd : Z) (x : Tensor3)
  (B S : nat) :
  (1 <= dd)%Z -> shape3 B S (Z.to_nat dd) x -> (0 < B)%nat -> (0 < S)%nat ->
  vmean (map (fun m =>
                vsum (map (row_H temp e (full_book_t dd (2 ^ dd))) m) / INR S)
           x) =
  direct_entro_mean temp e dd x.
Proof.
  intros Hd Hshape HB HS. unfold direct_entro_mean.
  fold (vsum (map (direct_H temp e dd) (concat x))).
  pose proof (shape3_length_concat x B S _ Hshape) as HL.
  unfold Tensor3, Mat, Vec in HL. rewrite vsum_map_concat, HL.
  unfold vmean. rewrite length_map.
  rewrite (vsum_map_div
             (fun m => vsum (map (row_H temp e (full_book_t dd (2 ^ dd))) m))).
  rewrite (vsum_map_ext_in
             (fun m => vsum (map (row_H temp e (full_book_t dd (2 ^ dd))) m))
             (fun m => vsum (map (direct_H temp e dd) m))).
  - destruct Hshape as [HBl _]. unfold Tensor3, Mat, Vec in *.
    rewrite HBl, mult_INR. field. split; apply not_0_INR; lia.
  - intros m Hm. apply vsum_map_ext_in. intros row Hrow.
    apply row_H_direct; [assumption|].
    now destruct (shape3_rows_in x B S _ Hshape m row Hm Hrow).
Qed.

Lemma nth_map_seq {A : Type} (f : nat -> A) (n j : nat) (dflt : A) :
  (j < n)%nat -> nth j (map f (seq 0 n)) dflt = f j.
Proof.
  intros Hj. transitivity (nth j (map f (seq 0 n)) (f 0%nat)).
  - apply nth_indep. now rewrite length_map, length_seq.
  - rewrite map_nth, seq_nth by assumption. reflexivity.
Qed.

Lemma closed_mean_entro_direct (temp e : R) (dd : Z) (x : Tensor3)
  (B S : nat) :
  (1 <= dd)%Z -> shape3 B S (Z.to_nat dd) x -> (0 < B)%nat -> (0 < S)%nat ->
  row_entropy e
    (mean01 (map (map (row_probs temp (full_book_t dd (2 ^ dd)))) x)) =
  direct_mean_entro temp e dd x.
Proof.
  intros Hd Hshape HB HS.
  set (book := full_book_t dd (2 ^ dd)).
  set (K := Z.to_nat (2 ^ dd)).
  assert (Hk : (0 < 2 ^ dd)%Z) by (apply Z.pow_pos_nonneg; lia).
  assert (Hcols : ncols book = K) by (apply full_book_t_ncols; lia).
  assert (HK : (0 < ncols book)%nat) by (rewrite Hcols; unfold K; lia).
  pose proof (mean01_rows (row_probs temp book) K S B (fun m => m) x
                ltac:(intros row; rewrite row_probs_length; exact Hcols)
                ltac:(intros row; now apply row_probs_sum)
                (proj1 Hshape) HB HS) as Hmp.
  cbv zeta in Hmp.
  destruct Hmp as (Hlen & _ & Hnth).
  { intros m Hm. pose proof (shape3_rows x B S _ Hshape) as Hr.
    rewrite Forall_forall in Hr. now apply Hr. }
  change (map (fun m : Mat => map (row_probs temp book) m) x)
    with (map (map (row_probs temp book)) x) in Hlen, Hnth.
  set (mp := mean01 (map (map (row_probs temp book)) x)) in *.
  unfold row_entropy. rewrite zipWith_map_r.
  rewrite <- (map_nth_seq mp) at 1. rewrite Hlen, map_map.
  unfold direct_mean_entro, vsum. f_equal. f_equal.
  apply map_ext_in. intros i Hi. apply in_seq in Hi.
  assert (Hi' : nth i mp 0 = direct_mean_prob temp dd x i).
  { rewrite Hnth. unfold direct_mean_prob.
    fold (vsum (map (fun row => direct_prob temp dd row i) (concat x))).
    pose proof (shape3_length_concat x B S _ Hshape) as HL.
    unfold Tensor3, Mat, Vec in HL. rewrite vsum_map_concat, HL.
    f_equal. apply vsum_map_ext_in. intros m Hm.
    apply vsum_map_ext_in. intros row Hrow. unfold book.
    rewrite row_probs_direct;
      [| assumption
       | now destruct (shape3_rows_in x B S _ Hshape m row Hm Hrow)].
    apply nth_map_seq. fold K. lia. }
  now rewrite Hi'.
Qed.

(** Both estimators compute the direct quantities, each at its own
    temperature. *)
Lemma estimators_direct (pt : R) (d0 : Z) (a b t e : R) (xs : Z)
  (dbg : bool) (t0 t1 : Z) (x : Tensor3) (B S : nat) :
  (1 <= d0 < t0)%Z ->
  shape3 B S (Z.to_nat d0) x -> (0 < B)%nat -> (0 < S)%nat ->
  (0 < xs)%Z -> (Z.of_nat S mod xs = 0)%Z ->
  let self := fst (init_books (LFQ_init d0 a b t e xs dbg (t0, t1))) in
  mode self = Some VANILLA /\
  calc_entro_vanilla pt self x =
    (self, Ok (direct_entro_mean pt e d0 x, direct_mean_entro pt e d0 x)) /\
  snd (calc_entro_by_batch self x) =
    Ok (direct_entro_mean t e d0 x, direct_mean_entro t e d0 x).
Proof.
  intros Hd Hshape HB HS Hxs Hdiv self.
  assert (Hself : self =
    set_book_t (set_mode (LFQ_init d0 a b t e xs dbg (t0, t1)) VANILLA)
      (full_book_t d0 (2 ^ d0))).
  { unfold self, init_books. cbn [d mode_delimiter fst LFQ_init k].
    assert (E : (d0 <? t0)%Z = true) by (apply Z.ltb_lt; lia).
    now rewrite E. }
  assert (Hk : (0 < 2 ^ d0)%Z) by (apply Z.pow_pos_nonneg; lia).
  assert (Hcols : ncols (full_book_t d0 (2 ^ d0)) = Z.to_nat (k self))
    by (rewrite Hself; cbn [k set_book_t set_mode LFQ_init];
        apply full_book_t_ncols; lia).
  assert (HK : (0 < ncols (full_book_t d0 (2 ^ d0)))%nat)
    by (rewrite full_book_t_ncols by lia; lia).
  assert (Hbook : book_t self = Some (full_book_t d0 (2 ^ d0)))
    by (rewrite Hself; reflexivity).
  assert (Hx : x_split self = xs) by (rewrite Hself; reflexivity).
  assert (Ht : temperature self = t) by (rewrite Hself; reflexivity).
  assert (He : eps self = e) by (rewrite Hself; reflexivity).
  pose proof (calc_entro_by_batch_closed self _ x B S _ Hshape HB HS
                ltac:(rewrite Hx; exact Hxs) ltac:(rewrite Hx; exact Hdiv)
                Hbook Hcols HK) as Hc.
  cbv zeta in Hc. rewrite Ht, He in Hc.
  split; [rewrite Hself; reflexivity|]. split.
  - unfold calc_entro_vanilla. rewrite Hbook, He.
    rewrite (book_entropy_closed pt _ e x B S _ Hshape HB HS).
    rewrite (closed_entro_mean_direct pt e d0 x B S) by (assumption || lia).
    rewrite (closed_mean_entro_direct pt e d0 x B S) by (assumption || lia).
    reflexivity.
  - rewrite Hc. cbn [snd].
    rewrite (closed_entro_mean_direct t e d0 x B S) by (assumption || lia).
    rewrite (closed_mean_entro_direct t e d0 x B S) by (assumption || lia).
    reflexivity.
Qed.

(** *** One position with one coordinate *)

Lemma direct_logit_one_0 (temp : R) :
  temp <> 0 -> direct_logit temp 1 [1] 0%nat = - / temp.
Proof.
  intros H. unfold direct_logit. change (Z.to_nat 1) with 1%nat.
  cbn [seq map fold_right nth].
  change (Z.testbit (Z.of_nat 0) (1 - 1 - Z.of_nat 0)) with false.
  cbv beta iota. field. exact H.
Qed.

Lemma direct_logit_one_1 (temp : R) :
  temp <> 0 -> direct_logit temp 1 [1] 1%nat = / temp.
Proof.
  intros H. unfold direct_logit. change (Z.to_nat 1) with 1%nat.
  cbn [seq map fold_right nth].
  change (Z.testbit (Z.of_nat 1) (1 - 1 - Z.of_nat 0)) with true.
  cbv beta iota. field. exact H.
Qed.

Lemma ln_exp_shift (a e : R) :
  ln (exp (- a + e) + exp (a + e)) = e + ln (exp (- a) + exp a).
Proof.
  pose proof (exp_pos (- a)). pose proof (exp_pos a). pose proof (exp_pos e).
  rewrite !exp_plus.
  replace (exp (- a) * exp e + exp a * exp e)
    with (exp e * (exp (- a) + exp a)) by ring.
  rewrite ln_mult by lra. now rewrite ln_exp.
Qed.

Lemma direct_entro_mean_one (temp e : R) :
  temp <> 0 ->
  direct_entro_mean temp e 1 [[[1]]] = two_point_entropy (/ temp).
Proof.
  intros H. unfold direct_entro_mean.
  cbn [concat app map length fold_right]. unfold direct_H.
  change (Z.to_nat (2 ^ 1)) with 2%nat. cbn [seq map fold_right].
  unfold direct_prob, direct_log_prob.
  change (Z.to_nat (2 ^ 1)) with 2%nat. cbn [seq map fold_right].
  rewrite !direct_logit_one_0, !direct_logit_one_1 by exact H.
  set (a := / temp). rewrite !Rplus_0_r.
  rewrite ln_exp_shift. unfold two_point_entropy.
  pose proof (exp_pos (- a)). pose proof (exp_pos a).
  simpl INR. field. lra.
Qed.

Lemma div_le_of_mul (x dn a : R) : 0 < dn -> x <= a * dn -> x / dn <= a.
Proof.
  intros Hd H. apply Rmult_le_reg_r with dn; [assumption|].
  replace (x / dn * dn) with x by (field; lra). exact H.
Qed.

Lemma le_div_of_mul (x dn a : R) : 0 < dn -> a * dn <= x -> a <= x / dn.
Proof.
  intros Hd H. apply Rmult_le_reg_r with dn; [assumption|].
  replace (x / dn * dn) with x by (field; lra). exact H.
Qed.

Lemma ln_2_le (z : R) : 2 <= z -> / 2 < ln z.
Proof.
  intros Hz. pose proof ln_lt_2 as H2.
  destruct Hz as [Hlt | <-]; [|exact H2].
  pose proof (ln_increasing 2 z ltac:(lra) Hlt). lra.
Qed.

(** At a high temperature the two codewords are nearly equally likely. *)
Lemma two_point_entropy_low : 1 / 4 <= two_point_entropy (/ 4).
Proof.
  unfold two_point_entropy. set (a := / 4).
  assert (Ha : a = 1 / 4) by (unfold a; lra).
  pose proof (exp_pos (- a)) as H0. pose proof (exp_pos a) as H1.
  pose proof (exp_ineq1_le (- a)) as L0.
  pose proof (exp_ineq1_le a) as L1.
  set (E0 := exp (- a)) in *. set (E1 := exp a) in *.
  assert (HZ : 2 <= E0 + E1) by lra.
  pose proof (ln_2_le _ HZ) as Hln.
  assert (Ht : a * (E1 - E0) / (E0 + E1) <= a).
  { apply div_le_of_mul; [lra|]. nra. }
  lra.
Qed.

(** At the temperature 0.005 the assignment is nearly certain. *)
Lemma two_point_entropy_high : two_point_entropy 200 <= 401 / 40401.
Proof.
  unfold two_point_entropy.
  pose proof (exp_pos (Ropp 200)) as H0. pose proof (exp_pos 200) as H1.
  pose proof (exp_ineq1_le 200) as L1.
  assert (H01 : exp (Ropp 200) * exp 200 = 1).
  { rewrite <- exp_plus. replace (Ropp 200 + 200) with 0 by ring. apply exp_0. }
  set (E0 := exp (Ropp 200)) in *. set (E1 := exp 200) in *.
  assert (HE0 : E0 <= / 201).
  { apply Rmult_le_reg_r with 201; [lra|].
    replace (/ 201 * 201) with 1 by lra. nra. }
  assert (Hu : E0 * E0 <= / 40401).
  { replace (/ 40401) with (/ 201 * / 201) by lra.
    apply Rmult_le_compat; lra. }
  assert (Hln : ln (E0 + E1) <= 200 + E0 * E0).
  { pose proof (exp_ineq1_le (ln (E0 + E1) - 200)) as Hl.
    unfold Rminus in Hl. rewrite exp_plus, exp_ln in Hl by lra.
    fold E0 in Hl. nra. }
  assert (Ht : 200 * (1 - 2 * (E0 * E0)) <= 200 * (E1 - E0) / (E0 + E1)).
  { apply le_div_of_mul; [lra|]. nra. }
  lra.
Qed.

(** X18. Below the first threshold, on a non-empty
    batch of shape (B, S, d) whose length [S] a positive chunk size
    divides, the direct estimator returns the direct quantities of the
    specification at the temperature [pt] the provider uses (the call of
    line 104 passes only the batch, the codebook and [eps]), and the
    chunked-batch estimator returns them at the temperature [t] of the
    instance, in exact arithmetic.  So when the two temperatures are the
    same the two estimators return the same pair, in particular within
    [1e-3]. *)
Theorem chunked_batch_agrees_with_vanilla :
  forall (pt : R) (d0 : Z) (a b t e : R) (xs : Z) (dbg : bool) (t0 t1 : Z)
         (x : Tensor3) (B S : nat),
    (1 <= d0 < t0)%Z -> pt <> 0 -> t <> 0 ->
    shape3 B S (Z.to_nat d0) x -> (0 < B)%nat -> (0 < S)%nat ->
    (0 < xs)%Z -> (Z.of_nat S mod xs = 0)%Z ->
    let self := fst (init_books (LFQ_init d0 a b t e xs dbg (t0, t1))) in
    exists emv mev emc mec s',
      mode self = Some VANILLA /\
      calc_entro_vanilla pt self x = (self, Ok (emv, mev)) /\
      calc_entro_by_batch self x = (s', Ok (emc, mec)) /\
      emv = direct_entro_mean pt e d0 x /\
      mev = direct_mean_entro pt e d0 x /\
      emc = direct_entro_mean t e d0 x /\
      mec = direct_mean_entro t e d0 x /\
      (pt = t ->
       emc = emv /\ mec = mev /\
       Rabs (emc - emv) < 1 / 1000 /\ Rabs (mec - mev) < 1 / 1000).
Proof.
  intros pt d0 a b t e xs dbg t0 t1 x B S Hd _ _ Hshape HB HS Hxs Hdiv self.
  destruct (estimators_direct pt d0 a b t e xs dbg t0 t1 x B S
              Hd Hshape HB HS Hxs Hdiv) as (Hm & Hv & Hc).
  fold self in Hm, Hv, Hc.
  exists (direct_entro_mean pt e d0 x), (direct_mean_entro pt e d0 x),
    (direct_entro_mean t e d0 x), (direct_mean_entro t e d0 x),
    (fst (calc_entro_by_batch self x)).
  split; [exact Hm|]. split; [exact Hv|]. split.
  { rewrite (surjective_pairing (calc_entro_by_batch self x)).
    now rewrite Hc. }
  do 4 (split; [reflexivity|]).
  intros ->. split; [reflexivity|]. split; [reflexivity|].
  rewrite !Rminus_diag, Rabs_R0. lra.
Qed.

Lemma chunked_batch_agrees_with_vanilla_witness :
  let self :=
    fst (init_books (LFQ_init 1 1 1 (5 / 1000) (1 / 10000000000) 1 false
                       (19, 26)%Z)) in
  exists emv mev emc mec s',
    calc_entro_vanilla (5 / 1000) self [[[1]; [-1]]] =
      (self, Ok (emv, mev)) /\
    calc_entro_by_batch self [[[1]; [-1]]] = (s', Ok (emc, mec)) /\
    emc = emv /\ mec = mev.
Proof.
  intros self.
  destruct (chunked_batch_agrees_with_vanilla (5 / 1000) 1 1 1 (5 / 1000)
              (1 / 10000000000) 1 false 19 26 [[[1]; [-1]]] 1 2)
    as (emv & mev & emc & mec & s' & _ & Hv & Hc & _ & _ & _ & _ & Hagree).
  - lia.
  - lra.
  - lra.
  - repeat constructor.
  - lia.
  - lia.
  - lia.
  - reflexivity.
  - destruct (Hagree eq_refl) as (He & Hm & _).
    exists emv, mev, emc, mec, s'. repeat split; assumption.
Defined.

(** C5.  The direct estimator is called with the batch, the codebook and
    [eps] only (line 104), so its result cannot follow the temperature of
    the instance, which the chunked-batch estimator divides by (line 88).
    On the batch of one position with the one coordinate [1.0] ([d = 1],
    chunk size 1): with the provider at 0.005, an instance at
    temperature 4 gets values of [entro_mean] from the two estimators
    that differ by more than [1e-3]; with the provider at 4, so does an
    instance at the default temperature 0.005; and there is no provider
    temperature at which both instances agree within [1e-3]. *)
Theorem vanilla_ignores_temperature :
  let x := [[[1]]] in
  let self4 :=
    fst (init_books (LFQ_init 1 1 1 4 (1 / 10000000000) 1 false
                       (19, 26)%Z)) in
  let self5 :=
    fst (init_books (LFQ_init 1 1 1 (5 / 1000) (1 / 10000000000) 1 false
                       (19, 26)%Z)) in
  (exists emv mev emc mec s',
     calc_entro_vanilla (5 / 1000) self4 x = (self4, Ok (emv, mev)) /\
     calc_entro_by_batch self4 x = (s', Ok (emc, mec)) /\
     1 / 1000 < Rabs (emc - emv)) /\
  (exists emv mev emc mec s',
     calc_entro_vanilla 4 self5 x = (self5, Ok (emv, mev)) /\
     calc_entro_by_batch self5 x = (s', Ok (emc, mec)) /\
     1 / 1000 < Rabs (emc - emv)) /\
  ~ (exists (pt : R) (v4 c4 v5 c5 : R * R),
       pt <> 0 /\
       snd (calc_entro_vanilla pt self4 x) = Ok v4 /\
       snd (calc_entro_by_batch self4 x) = Ok c4 /\
       snd (calc_entro_vanilla pt self5 x) = Ok v5 /\
       snd (calc_entro_by_batch self5 x) = Ok c5 /\
       Rabs (fst c4 - fst v4) <= 1 / 1000 /\
       Rabs (fst c5 - fst v5) <= 1 / 1000).
Proof.
  intros x self4 self5.
  pose proof two_point_entropy_low as Hlow.
  pose proof two_point_entropy_high as Hhigh.
  assert (H200 : / (5 / 1000) = 200) by lra.
  assert (Hshape : shape3 1 1 (Z.to_nat 1) x) by repeat constructor.
  assert (H4 : forall pt,
    calc_entro_vanilla pt self4 x =
      (self4, Ok (direct_entro_mean pt (1 / 10000000000) 1 x,
                  direct_mean_entro pt (1 / 10000000000) 1 x)) /\
    snd (calc_entro_by_batch self4 x) =
      Ok (direct_entro_mean 4 (1 / 10000000000) 1 x,
          direct_mean_entro 4 (1 / 10000000000) 1 x)).
  { intros pt.
    destruct (estimators_direct pt 1 1 1 4 (1 / 10000000000) 1
                false 19 26 x 1 1 ltac:(lia) Hshape ltac:(lia)
                ltac:(lia) ltac:(lia) eq_refl) as (_ & Hv & Hc).
    split; assumption. }
  assert (H5 : forall pt,
    calc_entro_vanilla pt self5 x =
      (self5, Ok (direct_entro_mean pt (1 / 10000000000) 1 x,
                  direct_mean_entro pt (1 / 10000000000) 1 x)) /\
    snd (calc_entro_by_batch self5 x) =
      Ok (direct_entro_mean (5 / 1000) (1 / 10000000000) 1 x,
          direct_mean_entro (5 / 1000) (1 / 10000000000) 1 x)).
  { intros pt.
    destruct (estimators_direct pt 1 1 1 (5 / 1000) (1 / 10000000000) 1
                false 19 26 x 1 1 ltac:(lia) Hshape ltac:(lia)
                ltac:(lia) ltac:(lia) eq_refl) as (_ & Hv & Hc).
    split; assumption. }
  split; [|split].
  - destruct (H4 (5 / 1000)) as [Hv Hc].
    do 4 eexists. exists (fst (calc_entro_by_batch self4 x)).
    split; [exact Hv|]. split.
    { rewrite (surjective_pairing (calc_entro_by_batch self4 x)).
      now rewrite Hc. }
    unfold x. rewrite !direct_entro_mean_one by lra. rewrite H200.
    apply Rlt_le_trans with
      (two_point_entropy (/ 4) - two_point_entropy 200);
      [lra | apply Rle_abs].
  - destruct (H5 4) as [Hv Hc].
    do 4 eexists. exists (fst (calc_entro_by_batch self5 x)).
    split; [exact Hv|]. split.
    { rewrite (surjective_pairing (calc_entro_by_batch self5 x)).
      now rewrite Hc. }
    unfold x. rewrite !direct_entro_mean_one by lra. rewrite H200.
    rewrite <- Rabs_Ropp.
    apply Rlt_le_trans with
      (two_point_entropy (/ 4) - two_point_entropy 200);
      [lra|].
    replace (- (two_point_entropy 200 - two_point_entropy (/ 4)))
      with (two_point_entropy (/ 4) - two_point_entropy 200) by ring.
    apply Rle_abs.
  - intros (pt & v4 & c4 & v5 & c5 & Hpt & Hv4 & Hc4 & Hv5 & Hc5 & Ha4 & Ha5).
    destruct (H4 pt) as [Hv4' Hc4']. destruct (H5 pt) as [Hv5' Hc5'].
    rewrite Hv4' in Hv4. rewrite Hc4' in Hc4.
    rewrite Hv5' in Hv5. rewrite Hc5' in Hc5.
    cbn [snd] in Hv4, Hv5.
    injection Hv4 as <-. injection Hc4 as <-.
    injection Hv5 as <-. injection Hc5 as <-.
    cbn [fst] in Ha4, Ha5. unfold x in Ha4, Ha5.
    rewrite !direct_entro_mean_one in Ha4, Ha5 by lra.
    rewrite H200 in Ha5.
    pose proof (Rle_abs (two_point_entropy (/ 4) - two_point_entropy (/ pt)))
      as Hb4.
    pose proof (Rle_abs (- (two_point_entropy 200 - two_point_entropy (/ pt))))
      as Hb5.
    rewrite Rabs_Ropp in Hb5. lra.
Qed.

(** ** The chunk size and the result *)

(** X13. The result of the chunked-batch estimator does not depend on the
    chunk size: for two positive chunk sizes that both divide the
    sequence length of a non-empty batch of shape (B, S, d), and a
    non-zero temperature, instances that differ in [x_split] only return
    the same pair [(entro_mean, mean_entro)], the direct quantities at
    the temperature of the instance, and store the same [mean_probs],
    whose [B] rows all equal the mean of the per-position distributions
    over samples and positions. *)
Theorem chunk_size_is_irrelevant :
  forall (d0 : Z) (a b t e : R) (xs1 xs2 : Z) (dbg : bool) (t0 t1 : Z)
         (x : Tensor3) (B S : nat),
    (1 <= d0)%Z -> (d0 < t1)%Z -> t <> 0 ->
    shape3 B S (Z.to_nat d0) x -> (0 < B)%nat -> (0 < S)%nat ->
    (0 < xs1)%Z -> (Z.of_nat S mod xs1 = 0)%Z ->
    (0 < xs2)%Z -> (Z.of_nat S mod xs2 = 0)%Z ->
    let self1 := fst (init_books (LFQ_init d0 a b t e xs1 dbg (t0, t1))) in
    let self2 := fst (init_books (LFQ_init d0 a b t e xs2 dbg (t0, t1))) in
    exists r,
      snd (calc_entro_by_batch self1 x) = Ok r /\
      snd (calc_entro_by_batch self2 x) = Ok r /\
      r = (direct_entro_mean t e d0 x, direct_mean_entro t e d0 x) /\
      mean_probs (fst (calc_entro_by_batch self1 x)) =
        Some (repeat
                (mean01 (map (map (row_probs t (full_book_t d0 (2 ^ d0)))) x))
                B) /\
      mean_probs (fst (calc_entro_by_batch self2 x)) =
        mean_probs (fst (calc_entro_by_batch self1 x)).
Proof.
  intros d0 a b t e xs1 xs2 dbg t0 t1 x B S Hd Ht Htemp Hshape HB HS
    Hxs1 Hdiv1 Hxs2 Hdiv2 self1 self2.
  set (n := Z.to_nat d0) in Hshape.
  destruct (calc_entro_by_batch_initialised d0 a b t e xs1 dbg t0 t1 x B S n
              Hd Ht Hshape HB HS Hxs1 Hdiv1) as [Hr1 Hm1].
  destruct (calc_entro_by_batch_initialised d0 a b t e xs2 dbg t0 t1 x B S n
              Hd Ht Hshape HB HS Hxs2 Hdiv2) as [Hr2 Hm2].
  fold self1 in Hr1, Hm1. fold self2 in Hr2, Hm2.
  eexists. split; [exact Hr1|]. split; [exact Hr2|].
  split; [|split; [exact Hm1 | now rewrite Hm1, Hm2]].
  rewrite (closed_entro_mean_direct t e d0 x B S) by assumption.
  rewrite (closed_mean_entro_direct t e d0 x B S) by assumption.
  reflexivity.
Qed.

Lemma chunk_size_is_irrelevant_witness :
  snd (calc_entro_by_batch
         (fst (init_books (LFQ_init 1 1 1 1 1 1 false (0, 5)%Z)))
         [[[1]; [-1]]]) =
  snd (calc_entro_by_batch
         (fst (init_books (LFQ_init 1 1 1 1 1 2 false (0, 5)%Z)))
         [[[1]; [-1]]]).
Proof.
  destruct (chunk_size_is_irrelevant 1 1 1 1 1 1 2 false 0 5
              [[[1]; [-1]]] 1 2)
    as (r & H1 & H2 & _); try lia; try reflexivity.
  - lra.
  - repeat constructor.
  - now rewrite H1, H2.
Defined.
